(** * leaflet-canvasify: the canvas marker layer

    A shallow embedding of [src/leaflet-markers-canvas.ts] (class
    [CanvasLayer]) and of the types of [types.ts], followed by the
    properties of the layer's marker registry, its two spatial indexes, its
    icon cache and its halo colour.

    Conventions of the embedding.
    - A JavaScript number is an integer of [Z]: geographic coordinates and
      pixels live on an integer grid.  The only fractional values of the
      source, the arguments of [ctx.arc], are rationals of [Q].  The hash of
      [_generateDynamicHexcode] is an integer below 2^53 for every string
      shorter than 2^21 characters, where a double is exact.
    - A marker is an object owned by the caller and mutated in place
      ([marker.image], [marker._map], [marker._leaflet_id]): markers live in
      a [heap] and the layer holds references ([MarkerRef]).
    - A method is a computation of the monad [M]: it threads the [State]
      and either returns or throws; what was mutated before a [throw] stays
      mutated, as in JavaScript.
    - What the layer does to the outside world (console, image fetches,
      canvas calls) is appended to [trace], oldest first. *)

From Stdlib Require Import ZArith QArith String Ascii List Lia.
From stdpp Require Import base gmap list strings.
Import ListNotations.
Open Scope Z_scope.

(** ** Leaflet: the part of the host the layer consumes *)

Module Leaflet.

Record LatLng := mkLatLng { lat : Z; lng : Z }.

Record Point := mkPoint { px : Z; py : Z }.

(** [L.LatLngBounds]: south-west and north-east corners. *)
Record LatLngBounds := mkBounds { _southWest : LatLng; _northEast : LatLng }.

Definition getWest (b : LatLngBounds) : Z := lng (_southWest b).
Definition getSouth (b : LatLngBounds) : Z := lat (_southWest b).
Definition getEast (b : LatLngBounds) : Z := lng (_northEast b).
Definition getNorth (b : LatLngBounds) : Z := lat (_northEast b).

(** [bounds.contains(latLng)] for a point. *)
Definition contains (b : LatLngBounds) (p : LatLng) : bool :=
  (getSouth b <=? lat p) && (lat p <=? getNorth b) &&
  (getWest b <=? lng p) && (lng p <=? getEast b).

(** [bounds.extend(latLng)]; [None] is a bounds object without corners,
    as [new L.LatLngBounds(undefined, undefined)] builds it. *)
Definition extend (b : option LatLngBounds) (p : LatLng) : option LatLngBounds :=
  match b with
  | None => Some (mkBounds p p)
  | Some b =>
      Some (mkBounds
              (mkLatLng (Z.min (lat p) (getSouth b)) (Z.min (lng p) (getWest b)))
              (mkLatLng (Z.max (lat p) (getNorth b)) (Z.max (lng p) (getEast b))))
  end.

(** [new L.LatLngBounds(c, c)] for an optional corner. *)
Definition newBounds (c : option LatLng) : option LatLngBounds :=
  match c with
  | None => None
  | Some p => extend (extend None p) p
  end.

(** [L.Map], as far as the layer reads it: the viewport, the projection
    of the current view, the size of the container and the panes. *)
Record Map := mkMap {
  getBounds : LatLngBounds;
  latLngToContainerPoint : LatLng -> Point;
  getSize : Point;
  getPane : string -> bool
}.

End Leaflet.
Import Leaflet.

(** ** Markers, icons and images ([types.ts]) *)

Definition MarkerRef := nat.

(** An [HTMLImageElement] made by [new Image()]: its identity and [src].
    [src] is the url the image was given.  What a browser hands back for
    [image.src] is that url resolved against the page, an absolute url,
    which is the key of [_colorMap] and the text that is hashed; the
    embedding stands for it by the url as given. *)
Record Image := mkImage { img_id : nat; src : string }.

Record IconOptions := mkIconOptions {
  iconUrl : option string;
  iconSize : option (Z * Z);
  iconAnchor : option (Z * Z)
}.

Record MarkerOptions := mkMarkerOptions {
  pane : string;
  icon : option IconOptions
}.

(** [ExtendedMarker]; [has_map] tells whether [marker._map] is set. *)
Record Marker := mkMarker {
  _leaflet_id : option nat;
  _latlng : LatLng;
  options : MarkerOptions;
  image : option Image;
  indicators : option (list string);
  has_map : bool
}.

Definition getLatLng (m : Marker) : LatLng := _latlng m.

Definition with_image (i : Image) (m : Marker) : Marker :=
  mkMarker (_leaflet_id m) (_latlng m) (options m) (Some i) (indicators m) (has_map m).

Definition with_id (i : nat) (m : Marker) : Marker :=
  mkMarker (Some i) (_latlng m) (options m) (image m) (indicators m) (has_map m).

Definition with_map (m : Marker) : Marker :=
  mkMarker (_leaflet_id m) (_latlng m) (options m) (image m) (indicators m) true.

(** [RBushBox] *)
Record RBushBox := mkBox {
  minX : Z; minY : Z; maxX : Z; maxY : Z;
  marker : MarkerRef
}.

(** ** RBush *)

Module RBush.

(** Modelled from the spec: the [rbush] package is not part of the
    sources.  Section 4.1 gives its contract: [load] bulk-inserts
    entries, [remove] deletes by an equality predicate on the entries and
    not by box coordinates, [search] returns exactly the entries whose
    box overlaps the rectangle, [clear] discards everything.  The index
    is the list of its entries; the order of a search result, which the
    contract leaves open, is the order of that list. *)
Definition t := list RBushBox.

Definition empty : t := [].

Definition load (data : list RBushBox) (tree : t) : t := tree ++ data.

Definition clear (tree : t) : t := [].

Definition intersects (a b : RBushBox) : bool :=
  (minX b <=? maxX a) && (minY b <=? maxY a) &&
  (minX a <=? maxX b) && (minY a <=? maxY b).

Definition search (bbox : RBushBox) (tree : t) : list RBushBox :=
  List.filter (intersects bbox) tree.

(** [remove(item, equalsFn)] deletes one entry, the first one that
    [equalsFn(item, entry)] accepts. *)
Fixpoint remove (item : RBushBox) (equalsFn : RBushBox -> RBushBox -> bool)
         (tree : t) : t :=
  match tree with
  | [] => []
  | b :: rest => if equalsFn item b then rest else b :: remove item equalsFn rest
  end.

End RBush.

(** ** The state of the layer and of its surroundings *)

Inductive CanvasOp :=
| Save
| Restore
| Translate (x y : Z)
| FillStyle (colour : string)
| StrokeStyle (colour : string)
| LineWidth (w : Z)
| BeginPath
| Arc (x y radius : Q) (startAngle endAngle : Z)
| Fill
| Stroke
| ClosePath
| DrawImage (i : Image) (dx dy dw dh : Z)
| ClearRect (x y w h : Z).

Inductive Event :=
| ConsoleError (msg : string)
| ImageFetch (i : Image)
| Canvas (op : CanvasOp).

(** An entry of [_icons]; [hasErrored] is [false] while the optional field
    is undefined. *)
Record IconEntry := mkIconEntry {
  isLoaded : bool;
  ic_image : Image;
  elements : list (MarkerRef * Z * Z);
  hasErrored : bool
}.

Record State := mkState {
  _canvas : option (Z * Z);
  _ctx : bool;
  _layers : gmap nat MarkerRef;
  _markersTree : RBush.t;
  _positionsTree : RBush.t;
  _icons : gmap string IconEntry;
  _colorMap : gmap string string;
  addBackground : bool;
  opt_pane : string;
  _map : option Map;
  heap : MarkerRef -> Marker;
  lastId : nat;
  nextImage : nat;
  trace : list Event
}.

Definition set_canvas (v : option (Z * Z)) (s : State) : State :=
  mkState v (_ctx s) (_layers s) (_markersTree s) (_positionsTree s) (_icons s)
          (_colorMap s) (addBackground s) (opt_pane s) (_map s) (heap s) (lastId s)
          (nextImage s) (trace s).

Definition set_ctx (v : bool) (s : State) : State :=
  mkState (_canvas s) v (_layers s) (_markersTree s) (_positionsTree s) (_icons s)
          (_colorMap s) (addBackground s) (opt_pane s) (_map s) (heap s) (lastId s)
          (nextImage s) (trace s).

Definition set_layers (v : gmap nat MarkerRef) (s : State) : State :=
  mkState (_canvas s) (_ctx s) v (_markersTree s) (_positionsTree s) (_icons s)
          (_colorMap s) (addBackground s) (opt_pane s) (_map s) (heap s) (lastId s)
          (nextImage s) (trace s).

Definition set_markersTree (v : RBush.t) (s : State) : State :=
  mkState (_canvas s) (_ctx s) (_layers s) v (_positionsTree s) (_icons s)
          (_colorMap s) (addBackground s) (opt_pane s) (_map s) (heap s) (lastId s)
          (nextImage s) (trace s).

Definition set_positionsTree (v : RBush.t) (s : State) : State :=
  mkState (_canvas s) (_ctx s) (_layers s) (_markersTree s) v (_icons s)
          (_colorMap s) (addBackground s) (opt_pane s) (_map s) (heap s) (lastId s)
          (nextImage s) (trace s).

Definition set_icons (v : gmap string IconEntry) (s : State) : State :=
  mkState (_canvas s) (_ctx s) (_layers s) (_markersTree s) (_positionsTree s) v
          (_colorMap s) (addBackground s) (opt_pane s) (_map s) (heap s) (lastId s)
          (nextImage s) (trace s).

Definition set_colorMap (v : gmap string string) (s : State) : State :=
  mkState (_canvas s) (_ctx s) (_layers s) (_markersTree s) (_positionsTree s) (_icons s)
          v (addBackground s) (opt_pane s) (_map s) (heap s) (lastId s)
          (nextImage s) (trace s).

Definition set_map (v : option Map) (s : State) : State :=
  mkState (_canvas s) (_ctx s) (_layers s) (_markersTree s) (_positionsTree s) (_icons s)
          (_colorMap s) (addBackground s) (opt_pane s) v (heap s) (lastId s)
          (nextImage s) (trace s).

Definition set_heap (v : MarkerRef -> Marker) (s : State) : State :=
  mkState (_canvas s) (_ctx s) (_layers s) (_markersTree s) (_positionsTree s) (_icons s)
          (_colorMap s) (addBackground s) (opt_pane s) (_map s) v (lastId s)
          (nextImage s) (trace s).

Definition set_lastId (v : nat) (s : State) : State :=
  mkState (_canvas s) (_ctx s) (_layers s) (_markersTree s) (_positionsTree s) (_icons s)
          (_colorMap s) (addBackground s) (opt_pane s) (_map s) (heap s) v
          (nextImage s) (trace s).

Definition set_nextImage (v : nat) (s : State) : State :=
  mkState (_canvas s) (_ctx s) (_layers s) (_markersTree s) (_positionsTree s) (_icons s)
          (_colorMap s) (addBackground s) (opt_pane s) (_map s) (heap s) (lastId s)
          v (trace s).

Definition set_trace (v : list Event) (s : State) : State :=
  mkState (_canvas s) (_ctx s) (_layers s) (_markersTree s) (_positionsTree s) (_icons s)
          (_colorMap s) (addBackground s) (opt_pane s) (_map s) (heap s) (lastId s)
          (nextImage s) v.

(** In-place update of one marker object. *)
Definition update_marker (r : MarkerRef) (f : Marker -> Marker)
           (h : MarkerRef -> Marker) : MarkerRef -> Marker :=
  fun r' => if Nat.eqb r' r then f (h r') else h r'.

(** ** The monad of methods *)

Inductive Exn :=
| Error (msg : string)
| TypeError.

Inductive Res (A : Type) :=
| Ok (a : A)
| Throw (e : Exn).
Arguments Ok {A} a.
Arguments Throw {A} e.

Definition M (A : Type) : Type := State -> Res A * State.

Definition ret {A} (a : A) : M A := fun s => (Ok a, s).

Definition bind {A B} (m : M A) (f : A -> M B) : M B :=
  fun s => match m s with
           | (Ok a, s') => f a s'
           | (Throw e, s') => (Throw e, s')
           end.

Definition throw {A} (e : Exn) : M A := fun s => (Throw e, s).

Definition gets {A} (f : State -> A) : M A := fun s => (Ok (f s), s).

Definition modify (f : State -> State) : M unit := fun s => (Ok tt, f s).

Declare Scope method_scope.
Delimit Scope method_scope with method.
Notation "x <- c1 ;; c2" := (bind c1 (fun x => c2))
  (at level 100, c1 at next level, c2 at level 200, right associativity) : method_scope.
Notation "c1 ;; c2" := (bind c1 (fun _ => c2))
  (at level 100, c2 at level 200, right associativity) : method_scope.
Open Scope method_scope.

Definition when (b : bool) (m : M unit) : M unit := if b then m else ret tt.

(** [for (const x of l) body(x)] *)
Fixpoint forEach {A} (body : A -> M unit) (l : list A) : M unit :=
  match l with
  | [] => ret tt
  | x :: rest => body x ;; forEach body rest
  end.

Definition emit (e : Event) : M unit :=
  modify (fun s => set_trace (trace s ++ [e]) s).

(** The calls of the 2D context are recorded in the trace and are taken to
    return: a context that refuses a call ([drawImage] of a broken image,
    [arc] of a negative radius) is not part of the embedding. *)
Definition canvas (ops : list CanvasOp) : M unit :=
  modify (fun s => set_trace (trace s ++ List.map Canvas ops) s).

Definition console_error (msg : string) : M unit := emit (ConsoleError msg).

(** [this._ctx!]: dereferencing a null context is a [TypeError]. *)
Definition ctx : M unit :=
  c <- gets _ctx ;; if c then ret tt else throw TypeError.

(** [this._map] where the source dereferences it without a guard. *)
Definition the_map : M Map :=
  m <- gets _map ;;
  match m with
  | Some map => ret map
  | None => throw TypeError
  end.

(** [L.Util.stamp(obj)]: [obj._leaflet_id = obj._leaflet_id || ++lastId]. *)
Definition stamp (r : MarkerRef) : M nat :=
  m <- gets (fun s => heap s r) ;;
  match _leaflet_id m with
  | Some i => ret i
  | None =>
      i <- gets (fun s => S (lastId s)) ;;
      modify (fun s => set_heap (update_marker r (with_id i) (heap s)) (set_lastId i s)) ;;
      ret i
  end.

(** [const image = new Image(); image.src = iconUrl]: the fetch starts. *)
Definition new_Image (url : string) : M Image :=
  n <- gets nextImage ;;
  let i := mkImage n url in
  modify (set_nextImage (S n)) ;;
  emit (ImageFetch i) ;;
  ret i.

(** ** [CanvasLayer] *)

(** [new CanvasLayer(options)], in a world with the given marker objects. *)
Definition new_CanvasLayer (opt_addBackground : option bool) (pane_opt : option string)
           (h : MarkerRef -> Marker) : State :=
  mkState None false ∅ RBush.empty RBush.empty ∅ ∅
          (default false opt_addBackground) (default "overlayPane" pane_opt)
          None h 0%nat 0%nat [].

(** *** The halo colour *)

(** [ToInt32], the conversion the operators [<<] and [>>] apply first. *)
Definition ToInt32 (z : Z) : Z := (z + 2 ^ 31) mod 2 ^ 32 - 2 ^ 31.

(** [char.charCodeAt(0)]; the characters of a [string] are code units
    below 256. *)
Definition charCodeAt0 (char : ascii) : Z := Z.of_N (N_of_ascii char).

Definition hex_digit (d : Z) : ascii :=
  nth (Z.to_nat d) (list_ascii_of_string "0123456789abcdef") "0"%char.

(** [value.toString(16)] for [0 <= value < 256]. *)
Definition toString16 (value : Z) : string :=
  if value <? 16 then String (hex_digit value) EmptyString
  else String (hex_digit (value / 16)) (String (hex_digit (value mod 16)) EmptyString).

Fixpoint replicate_char (n : nat) (c : ascii) : string :=
  match n with
  | O => EmptyString
  | S n' => String c (replicate_char n' c)
  end.

(** [str.padStart(targetLength, c)] *)
Definition padStart (targetLength : nat) (c : ascii) (str : string) : string :=
  (replicate_char (targetLength - String.length str) c ++ str)%string.

(** The body of the [forEach] over the characters. *)
Definition hash_step (hash : Z) (char : ascii) : Z :=
  charCodeAt0 char + (ToInt32 (Z.shiftl (ToInt32 hash) 5) - hash).

Definition hash_of (strValue : string) : Z :=
  fold_left hash_step (list_ascii_of_string strValue) 0.

Definition _generateDynamicHexcode (strValue : string) : string :=
  let hash := hash_of strValue in
  fold_left
    (fun colour i =>
       let value := Z.land (Z.shiftr (ToInt32 hash) (i * 8)) 255 in
       (colour ++ padStart 2 "0"%char (toString16 value))%string)
    [0; 1; 2] "#"%string.

(** JavaScript truthiness of a string: [!color] holds of the empty one. *)
Definition truthy (str : string) : bool :=
  match str with
  | EmptyString => false
  | _ => true
  end.

(** *** Drawing *)

Definition Qz (z : Z) : Q := inject_Z z.

(** The [forEach] over [marker.indicators], from index [idx] on. *)
Fixpoint indicator_ops (size : Z * Z) (radius : Z) (idx : Z) (colours : list string)
  : list CanvasOp :=
  match colours with
  | [] => []
  | color :: rest =>
      let row := idx / 5 in
      let col := idx mod 5 in
      let posX := Qplus (Qdiv (Qz (fst size)) (Qz 2)) (Qz (row * (radius * 2 + 1))) in
      let posY := Qplus (Qdiv (Qz (- snd size)) (Qz 2))
                        (Qdiv (Qz (col * (radius * 2 + 1))) (Qz 2)) in
      [FillStyle color; StrokeStyle "black"; BeginPath;
       Arc posX posY (Qz radius) 0 360; Fill; Stroke; ClosePath]
        ++ indicator_ops size radius (idx + 1) rest
  end.

(** [this._colorMap[imgSrc]], generated and stored when absent. *)
Definition halo_colour (imgSrc : string) : M string :=
  cm <- gets _colorMap ;;
  match cm !! imgSrc with
  | Some color =>
      if truthy color then ret color
      else
        let color := _generateDynamicHexcode imgSrc in
        modify (fun s => set_colorMap (<[imgSrc := color]> (_colorMap s)) s) ;;
        ret color
  | None =>
      let color := _generateDynamicHexcode imgSrc in
      modify (fun s => set_colorMap (<[imgSrc := color]> (_colorMap s)) s) ;;
      ret color
  end.

Definition _drawImage (r : MarkerRef) (x y : Z) : M unit :=
  m <- gets (fun s => heap s r) ;;
  match icon (options m) with
  | None =>
      throw (Error "ERROR: Marker icon options are undefined. Please ensure that the icon is properly configured.")
  | Some iconOptions =>
      match iconAnchor iconOptions, iconSize iconOptions, image m with
      | Some anchor, Some size, Some img =>
          ctx ;;
          canvas [Save; Translate x y] ;;
          bg <- gets addBackground ;;
          when bg
            (color <- halo_colour (src img) ;;
             canvas [FillStyle "#00000033"; StrokeStyle color; LineWidth 1; BeginPath;
                     Arc (Qz 0) (Qz 0) (Qdiv (Qz (fst size)) (Qmake 3 2)) 0 360;
                     Fill; Stroke; ClosePath]) ;;
          canvas [DrawImage img (- fst anchor) (- snd anchor) (fst size) (snd size)] ;;
          let radius := fst size / 6 + 1 in
          match indicators m with
          | Some colours => canvas (indicator_ops size radius 0 colours)
          | None => ret tt
          end ;;
          canvas [Restore]
      | _, _, _ =>
          throw (Error "ERROR: One or more icon options properties are undefined. Please ensure you have defined the icon anchor, icon size and have provided a valid image.")
      end
  end.

(** [marker.options.icon?.options.iconUrl] *)
Definition iconUrl_of (m : Marker) : option string :=
  match icon (options m) with
  | Some iconOptions => iconUrl iconOptions
  | None => None
  end.

(** [this._icons[iconUrl]?.hasErrored] *)
Definition errored (e : option IconEntry) : bool :=
  match e with
  | Some entry => hasErrored entry
  | None => false
  end.

Definition set_image (r : MarkerRef) (i : Image) : M unit :=
  modify (fun s => set_heap (update_marker r (with_image i) (heap s)) s).

Definition push_element (url : string) (el : MarkerRef * Z * Z) (e : IconEntry) : M unit :=
  modify (fun s =>
            set_icons (<[url := mkIconEntry (isLoaded e) (ic_image e)
                                            (elements e ++ [el]) (hasErrored e)]>
                         (_icons s)) s).

(** [_icons] is a plain object, [{}]: a key that is none of its own
    properties is looked up in [Object.prototype], whose properties these
    are. *)
Definition Object_prototype : list string :=
  ["constructor"; "hasOwnProperty"; "isPrototypeOf"; "propertyIsEnumerable";
   "toLocaleString"; "toString"; "valueOf"; "__proto__"; "__defineGetter__";
   "__defineSetter__"; "__lookupGetter__"; "__lookupSetter__"]%string.

Definition inherited (key : string) : bool := existsb (String.eqb key) Object_prototype.

(** The handlers [image.onload] and [image.onerror] that the last branch
    installs are [image_onload] and [image_onerror] below.  Where the cache
    has no entry for the url and the url names a property of
    [Object.prototype], [this._icons[iconUrl]] is that property: it is
    truthy and has no [hasErrored], no [image] and no [isLoaded], so the
    second branch of the source is taken, [marker.image] stays undefined
    and [.elements.push] is a [TypeError]. *)
Definition _drawMarker (r : MarkerRef) (x y : Z) : M unit :=
  m <- gets (fun s => heap s r) ;;
  match iconUrl_of m with
  | None =>
      throw (Error "ERROR: The icon or its url are undefined. Please ensure that the icon is properly configured and provide a valid url.")
  | Some url =>
      icons <- gets _icons ;;
      match image m with
      | Some _ =>
          if errored (icons !! url) then ret tt
          else _drawImage r x y
      | None =>
          match icons !! url with
          | Some e =>
              if hasErrored e then ret tt
              else
                set_image r (ic_image e) ;;
                if isLoaded e then _drawImage r x y
                else push_element url (r, x, y) e
          | None =>
              if inherited url then throw TypeError
              else
                img <- new_Image url ;;
                set_image r img ;;
                modify (fun s =>
                          set_icons (<[url := mkIconEntry false img [(r, x, y)] false]>
                                       (_icons s)) s)
          end
      end
  end.

(** [image.onload] of the image fetched for [url]. *)
Definition image_onload (url : string) : M unit :=
  icons <- gets _icons ;;
  match icons !! url with
  | None => throw TypeError
  | Some e =>
      modify (fun s =>
                set_icons (<[url := mkIconEntry true (ic_image e) (elements e)
                                                (hasErrored e)]> (_icons s)) s) ;;
      forEach
        (fun el : MarkerRef * Z * Z =>
           let r := fst (fst el) in
           m <- gets (fun s => heap s r) ;;
           let latLng := getLatLng m in
           map <- the_map ;;
           let p := latLngToContainerPoint map latLng in
           _drawImage r (px p) (py p))
        (elements e)
  end.

(** [image.onerror] of the image [img] fetched for [url]. *)
Definition image_onerror (url : string) (img : Image) : M unit :=
  icons <- gets _icons ;;
  match icons !! url with
  | None => throw TypeError
  | Some e =>
      modify (fun s =>
                set_icons (<[url := mkIconEntry (isLoaded e) (ic_image e) (elements e)
                                                true]> (_icons s)) s) ;;
      console_error ("ERROR: image with source " ++ src img ++
                     " could not be loaded. Please ensure the provided src matches the image location.")
  end.

(** *** Redrawing *)

Definition markerBox_of (p : Point) (anchor size : Z * Z) (r : MarkerRef) : RBushBox :=
  mkBox (px p - fst anchor) (py p - snd anchor)
        (px p + fst size - fst anchor) (py p + snd size - snd anchor) r.

Definition positionBox_of (latLng : LatLng) (r : MarkerRef) : RBushBox :=
  mkBox (lng latLng) (lat latLng) (lng latLng) (lat latLng) r.

Definition mapBoundsBox_of (mapBounds : LatLngBounds) : RBushBox :=
  mkBox (getWest mapBounds) (getSouth mapBounds) (getEast mapBounds) (getNorth mapBounds)
        0%nat.

(** The loop of [redraw] over the entries found in the viewport;
    [markers] is the array of boxes built so far. *)
Fixpoint redraw_loop (map : Map) (found : list RBushBox) (markers : list RBushBox)
  : M (list RBushBox) :=
  match found with
  | [] => ret markers
  | entry :: rest =>
      let r := marker entry in
      m <- gets (fun s => heap s r) ;;
      let latLng := getLatLng m in
      let p := latLngToContainerPoint map latLng in
      match icon (options m) with
      | None =>
          throw (Error "ERROR: Marker icon or its options are undefined. Please ensure that the icon is properly configured.")
      | Some iconOptions =>
          match iconSize iconOptions, iconAnchor iconOptions with
          | Some size, Some anchor =>
              let markerBox := markerBox_of p anchor size r in
              _drawMarker r (px p) (py p) ;;
              redraw_loop map rest (markers ++ [markerBox])
          | _, _ =>
              throw (Error "ERROR: One or more icon options properties are undefined. Please ensure you have defined the icon anchor and icon size.")
          end
      end
  end.

Definition redraw (clear : bool) : M unit :=
  om <- gets _map ;;
  match om with
  | None => ret tt
  | Some map =>
      c <- gets _ctx ;;
      cv <- gets _canvas ;;
      match cv with
      | Some (width, height) => when (clear && c) (canvas [ClearRect 0 0 width height])
      | None => ret tt
      end ;;
      let mapBounds := getBounds map in
      let mapBoundsBox := mapBoundsBox_of mapBounds in
      found <- gets (fun s => RBush.search mapBoundsBox (_positionsTree s)) ;;
      markers <- redraw_loop map found [] ;;
      modify (fun s => set_markersTree (RBush.clear (_markersTree s)) s) ;;
      modify (fun s => set_markersTree (RBush.load markers (_markersTree s)) s)
  end.

(** *** Lifecycle *)

Definition _initCanvas : M unit :=
  map <- the_map ;;
  let size := getSize map in
  modify (set_canvas (Some (px size, py size))) ;;
  modify (set_ctx true).

Definition onAdd (map : Map) : M unit :=
  modify (set_map (Some map)) ;;
  _initCanvas ;;
  p <- gets opt_pane ;;
  if getPane map p then ret tt
  else throw (Error ("ERROR: could not find pane " ++ p)).

Definition clear : M unit :=
  modify (set_positionsTree RBush.empty) ;;
  modify (set_markersTree RBush.empty) ;;
  modify (set_layers ∅) ;;
  redraw true.

(** [_reset], the handler of [moveend] and [resize]; the arguments are
    [window.innerWidth] and [window.innerHeight]. *)
Definition _reset (innerWidth innerHeight : Z) : M unit :=
  cv <- gets _canvas ;;
  match cv with
  | None => ret tt
  | Some _ =>
      modify (set_canvas (Some (innerWidth, innerHeight))) ;;
      _ <- the_map ;;
      redraw true
  end.

(** *** Removing markers *)

(** The [equalsFn] of both removals:
    [a.marker._leaflet_id === b.marker._leaflet_id]. *)
Definition same_leaflet_id (h : MarkerRef -> Marker) (a b : RBushBox) : bool :=
  bool_decide (_leaflet_id (h (marker a)) = _leaflet_id (h (marker b))).

Definition remove_position (r : MarkerRef) : M unit :=
  modify (fun s =>
            let latLng := getLatLng (heap s r) in
            let positionBox := positionBox_of latLng r in
            set_positionsTree
              (RBush.remove positionBox (same_leaflet_id (heap s)) (_positionsTree s)) s).

Definition removeMarker (r : MarkerRef) : M unit :=
  om <- gets _map ;;
  match om with
  | None => ret tt
  | Some map =>
      m <- gets (fun s => heap s r) ;;
      let latLng := getLatLng m in
      let isVisible := contains (getBounds map) latLng in
      remove_position r ;;
      when isVisible (redraw true)
  end.

Fixpoint removeMarkers_loop (map : Map) (markers : list MarkerRef) (hasChanged : bool)
  : M bool :=
  match markers with
  | [] => ret hasChanged
  | r :: rest =>
      m <- gets (fun s => heap s r) ;;
      let latLng := getLatLng m in
      let isVisible := contains (getBounds map) latLng in
      remove_position r ;;
      removeMarkers_loop map rest (if isVisible then true else hasChanged)
  end.

Definition removeMarkers (markers : list MarkerRef) : M unit :=
  om <- gets _map ;;
  match om with
  | None => ret tt
  | Some map =>
      hasChanged <- removeMarkers_loop map markers false ;;
      when hasChanged (redraw true)
  end.

(** *** Adding markers *)

Record AddResult := mkAddResult {
  markerBox : option RBushBox;
  positionBox : option RBushBox;
  isVisible : option bool
}.

Definition no_result : AddResult := mkAddResult None None None.

Definition addMarker (r : MarkerRef) : M AddResult :=
  m <- gets (fun s => heap s r) ;;
  match icon (options m) with
  | None => console_error "This is not a marker" ;; ret no_result
  | Some markerIcon =>
      if negb (String.eqb (pane (options m)) "markerPane")
      then console_error "This is not a marker" ;; ret no_result
      else
        om <- gets _map ;;
        match om with
        | None => ret no_result
        | Some map =>
            modify (fun s => set_heap (update_marker r with_map (heap s)) s) ;;
            id <- stamp r ;;
            let latLng := getLatLng m in
            let visible := contains (getBounds map) latLng in
            let p := latLngToContainerPoint map latLng in
            match iconAnchor markerIcon, iconSize markerIcon with
            | Some anchor, Some size =>
                let mBox := markerBox_of p anchor size r in
                let pBox := positionBox_of latLng r in
                when visible (_drawMarker r (px p) (py p)) ;;
                modify (fun s => set_layers (<[id := r]> (_layers s)) s) ;;
                ret (mkAddResult (Some mBox) (Some pBox) (Some visible))
            | _, _ =>
                throw (Error "ERROR: One or more icon options properties are undefined. Please ensure you have defined the icon anchor and icon size.")
            end
        end
  end.

Fixpoint addMarkers_loop (markers : list MarkerRef) (markerBoxes positionBoxes : list RBushBox)
  : M (list RBushBox * list RBushBox) :=
  match markers with
  | [] => ret (markerBoxes, positionBoxes)
  | r :: rest =>
      res <- addMarker r ;;
      let markerBoxes' :=
        match markerBox res, isVisible res with
        | Some b, Some true => markerBoxes ++ [b]
        | _, _ => markerBoxes
        end in
      let positionBoxes' :=
        match positionBox res with
        | Some b => positionBoxes ++ [b]
        | None => positionBoxes
        end in
      addMarkers_loop rest markerBoxes' positionBoxes'
  end.

Definition addMarkers (markers : list MarkerRef) : M unit :=
  boxes <- addMarkers_loop markers [] [] ;;
  modify (fun s => set_markersTree (RBush.load (fst boxes) (_markersTree s)) s) ;;
  modify (fun s => set_positionsTree (RBush.load (snd boxes) (_positionsTree s)) s).

(** *** Queries *)

Definition getAllMarkers (s : State) : gmap nat MarkerRef := _layers s.

(** [getBounds()]: the bounds start from the marker of key 0, if any, and
    are extended by every registered marker.  [extend] takes minima and
    maxima, so the order of the [for ... in] does not show in the result. *)
Definition layer_getBounds (s : State) : option LatLngBounds :=
  let initMarker := getLatLng <$> (heap s <$> (_layers s !! 0%nat)) in
  let bounds := newBounds initMarker in
  fold_left (fun b kv => extend b (getLatLng (heap s (snd kv))))
            (map_to_list (_layers s)) bounds.

(** ** Runs of the layer

    What can happen to a layer between two moments: the caller invokes a
    public method, the browser fires a handler, the host changes the view
    or the caller moves a marker. *)

Inductive Call :=
| Call_onAdd (map : Map)
| Call_addMarker (r : MarkerRef)
| Call_addMarkers (rs : list MarkerRef)
| Call_removeMarker (r : MarkerRef)
| Call_removeMarkers (rs : list MarkerRef)
| Call_redraw (clear : bool)
| Call_clear
| Call_reset (innerWidth innerHeight : Z)
| Fire_onload (url : string)
| Fire_onerror (url : string)
| Host_setView (map : Map)
| Host_setLatLng (r : MarkerRef) (latLng : LatLng).

(** The browser fires [load] or [error] once for an image being fetched,
    and never after either has fired. *)
Definition pending (e : IconEntry) : bool := negb (isLoaded e) && negb (hasErrored e).

Definition fire_onload (url : string) : M unit :=
  icons <- gets _icons ;;
  match icons !! url with
  | Some e => when (pending e) (image_onload url)
  | None => ret tt
  end.

Definition fire_onerror (url : string) : M unit :=
  icons <- gets _icons ;;
  match icons !! url with
  | Some e => when (pending e) (image_onerror url (ic_image e))
  | None => ret tt
  end.

Definition setView (map : Map) : M unit :=
  om <- gets _map ;;
  match om with
  | Some _ => modify (set_map (Some map))
  | None => ret tt
  end.

Definition setLatLng (r : MarkerRef) (latLng : LatLng) : M unit :=
  modify (fun s =>
            set_heap (update_marker r
                        (fun m => mkMarker (_leaflet_id m) latLng (options m) (image m)
                                           (indicators m) (has_map m))
                        (heap s)) s).

Definition discard {A} (m : M A) : M unit := m ;; ret tt.

Definition call (c : Call) : M unit :=
  match c with
  | Call_onAdd map => onAdd map
  | Call_addMarker r => discard (addMarker r)
  | Call_addMarkers rs => addMarkers rs
  | Call_removeMarker r => removeMarker r
  | Call_removeMarkers rs => removeMarkers rs
  | Call_redraw c => redraw c
  | Call_clear => clear
  | Call_reset w h => _reset w h
  | Fire_onload url => fire_onload url
  | Fire_onerror url => fire_onerror url
  | Host_setView map => setView map
  | Host_setLatLng r latLng => setLatLng r latLng
  end.

(** An exception ends the call; the state it leaves is the state the next
    call starts from. *)
Definition run (cs : list Call) (s : State) : State :=
  fold_left (fun s c => snd (call c s)) cs s.

(** ** Observations *)

Definition positions (t : list Event) : list (Z * Z) :=
  omap (fun e => match e with Canvas (Translate x y) => Some (x, y) | _ => None end) t.

Definition drawn (t : list Event) : list Image :=
  omap (fun e => match e with Canvas (DrawImage i _ _ _ _) => Some i | _ => None end) t.

Definition fetched (t : list Event) : list Image :=
  omap (fun e => match e with ImageFetch i => Some i | _ => None end) t.

Definition reported (t : list Event) : list string :=
  omap (fun e => match e with ConsoleError msg => Some msg | _ => None end) t.

Definition cleared (t : list Event) : list unit :=
  omap (fun e => match e with Canvas (ClearRect _ _ _ _) => Some tt | _ => None end) t.

(** A marker the layer can draw: an icon with a url, a size and an anchor. *)
Definition drawable (m : Marker) : bool :=
  match icon (options m) with
  | Some io =>
      match iconUrl io, iconSize io, iconAnchor io with
      | Some _, Some _, Some _ => true
      | _, _, _ => false
      end
  | None => false
  end.

(** The memo of halo colours holds nothing but generated colours. *)
Definition colorMap_ok (cm : gmap string string) : Prop :=
  forall url color, cm !! url = Some color -> color = _generateDynamicHexcode url.

(** Two marker objects that differ at most by their image handle. *)
Definition same_but_image (m m' : Marker) : Prop :=
  _leaflet_id m' = _leaflet_id m /\ _latlng m' = _latlng m /\ options m' = options m /\
  indicators m' = indicators m /\ has_map m' = has_map m.

(** What drawing and redrawing leave alone: the registry, the position
    index, the host, the context, and every marker but for the image handle
    it may receive. *)
Definition frame (s s' : State) : Prop :=
  _layers s' = _layers s /\ _positionsTree s' = _positionsTree s /\
  _map s' = _map s /\ _ctx s' = _ctx s /\
  addBackground s' = addBackground s /\ lastId s' = lastId s /\
  (forall r, same_but_image (heap s r) (heap s' r)).

(** What a removal leaves alone. *)
Definition registry_frame (s s' : State) : Prop :=
  _layers s' = _layers s /\ (forall r, same_but_image (heap s r) (heap s' r)).

(** A method [preserves] a relation when every run of it, returning or
    throwing, relates the state before to the state after. *)
Definition preserves {A} (R : State -> State -> Prop) (m : M A) : Prop :=
  forall s, R s (snd (m s)).

(** A method is [silent] for an observation of the trace when no run of it
    adds an observed event. *)
Definition silent {B} (obs : list Event -> list B) (s s' : State) : Prop :=
  obs (trace s') = obs (trace s).

(** The entries of an index that belong to the marker of identity [i]. *)
Definition has_id (h : MarkerRef -> Marker) (i : option nat) (b : RBushBox) : bool :=
  bool_decide (i = _leaflet_id (h (marker b))).

Definition entries_of (h : MarkerRef -> Marker) (r : MarkerRef) (tree : RBush.t)
  : list RBushBox :=
  List.filter (has_id h (_leaflet_id (h r))) tree.

Definition entries_of_others (h : MarkerRef -> Marker) (r : MarkerRef) (tree : RBush.t)
  : list RBushBox :=
  List.filter (fun b => negb (has_id h (_leaflet_id (h r)) b)) tree.

(** A marker [_drawImage] can paint: an icon with an anchor and a size,
    and an image handle. *)
Definition paintable (m : Marker) : bool :=
  match icon (options m), image m with
  | Some io, Some _ =>
      match iconAnchor io, iconSize io with
      | Some _, Some _ => true
      | _, _ => false
      end
  | _, _ => false
  end.

(** Where the view of a map shows a marker. *)
Definition projected (map : Map) (m : Marker) : Z * Z :=
  let p := latLngToContainerPoint map (getLatLng m) in (px p, py p).

(** The screen box [redraw] computes for an entry of the position index. *)
Definition screen_box (map : Map) (h : MarkerRef -> Marker) (entry : RBushBox) : RBushBox :=
  let m := h (marker entry) in
  let p := latLngToContainerPoint map (getLatLng m) in
  let io := default (mkIconOptions None None None) (icon (options m)) in
  markerBox_of p (default (0, 0) (iconAnchor io)) (default (0, 0) (iconSize io))
               (marker entry).

(** A draw request: the marker and the screen position of the request. *)
Definition request (el : MarkerRef * Z * Z) : M unit :=
  _drawMarker (fst (fst el)) (snd (fst el)) (snd el).

(** [painted s s']: the state [s'] is [s] but for the canvas calls of the
    trace and the memo of colours. *)
Definition painted (s s' : State) : Prop :=
  s' = set_trace (trace s') (set_colorMap (_colorMap s') s).

(** A method keeps a component of the state when no run of it changes it. *)
Definition kept {A} (f : State -> A) (s s' : State) : Prop := f s' = f s.

(** The errored state of a url is never left. *)
Definition sticky (url : string) (s s' : State) : Prop :=
  errored (_icons s !! url) = true -> errored (_icons s' !! url) = true.

(** The icon url of the marker names no property of [Object.prototype]:
    where the cache has no entry for it, [this._icons[iconUrl]] is
    undefined. *)
Definition own_url (m : Marker) : bool :=
  match iconUrl_of m with
  | Some url => negb (inherited url)
  | None => true
  end.

(** A marker the layer can draw whatever the cache holds: a full icon
    whose url the cache can take as a key. *)
Definition requestable (m : Marker) : bool := drawable m && own_url m.

(** The keys of the registry are identities that [L.Util.stamp] has handed
    out. *)
Definition ids_bounded (s : State) : Prop :=
  forall k r, _layers s !! k = Some r -> (k <= lastId s)%nat.

(** A marker that [addMarker] accepts on its first visit: of the marker
    pane, with a full icon that the cache can hold, and not stamped yet. *)
Definition addable (m : Marker) : Prop :=
  requestable m = true /\ pane (options m) = "markerPane" /\ _leaflet_id m = None.

(** No url has been fetched twice, and every image fetched has its entry
    in the cache. *)
Definition fetch_ok (s : State) : Prop :=
  NoDup (List.map src (fetched (trace s))) /\
  forall img, img ∈ fetched (trace s) -> is_Some (_icons s !! src img).

Definition fetch_kept (s s' : State) : Prop := fetch_ok s -> fetch_ok s'.

(** The memo stays sound along every method. *)
Definition memo_kept (s s' : State) : Prop :=
  colorMap_ok (_colorMap s) -> colorMap_ok (_colorMap s').

(** ** A small world for the examples *)

Module World.

Definition icon32 (url : string) : IconOptions :=
  mkIconOptions (Some url) (Some (32, 32)) (Some (16, 16)).

Definition marker_at (la lo : Z) (io : option IconOptions) : Marker :=
  mkMarker None (mkLatLng la lo) (mkMarkerOptions "markerPane" io) None None false.

(** Markers 0 and 1 share an icon and lie in the view, marker 2 lies
    outside of it, marker 3 has an icon without anchor, marker 4 has no
    icon. *)
Definition markers (r : MarkerRef) : Marker :=
  match r with
  | 0%nat => marker_at 10 10 (Some (icon32 "a.png"))
  | 1%nat => marker_at 20 20 (Some (icon32 "a.png"))
  | 2%nat => marker_at 500 500 (Some (icon32 "b.png"))
  | 3%nat => marker_at 30 30 (Some (mkIconOptions (Some "c.png") (Some (32, 32)) None))
  | _ => marker_at 40 40 None
  end.

Definition view : Map :=
  mkMap (mkBounds (mkLatLng 0 0) (mkLatLng 100 100))
        (fun p => mkPoint (2 * lng p) (200 - 2 * lat p))
        (mkPoint 200 200) (fun _ => true).

(** The same map after a pan of 50 pixels. *)
Definition panned : Map :=
  mkMap (mkBounds (mkLatLng 0 25) (mkLatLng 100 125))
        (fun p => mkPoint (2 * lng p - 50) (200 - 2 * lat p))
        (mkPoint 200 200) (fun _ => true).

(** A view that shows marker 2 only. *)
Definition far_view : Map :=
  mkMap (mkBounds (mkLatLng 450 450) (mkLatLng 550 550))
        (fun p => mkPoint (2 * lng p - 900) (1100 - 2 * lat p))
        (mkPoint 200 200) (fun _ => true).

Definition attached : State := run [Call_onAdd view] (new_CanvasLayer None None markers).

Definition attached_bg : State :=
  run [Call_onAdd view] (new_CanvasLayer (Some true) None markers).

(** The layer once markers 0, 1 and 2 have been added in one call. *)
Definition loaded : State := run [Call_addMarkers [0; 1; 2]%nat] attached.

(** The same layer after the user has panned the map, before any redraw. *)
Definition moved : State := run [Host_setView panned] loaded.

(** Markers whose icon is a file named [constructor]: marker 0 lies in
    the view, the others outside of it where [far_view] shows them. *)
Definition namesakes (r : MarkerRef) : Marker :=
  match r with
  | 0%nat => marker_at 10 10 (Some (icon32 "constructor"))
  | _ => marker_at 500 500 (Some (icon32 "constructor"))
  end.

Definition attached_namesakes : State :=
  run [Call_onAdd view] (new_CanvasLayer None None namesakes).

End World.

(** ** The dispatch of pointer events

    [_fire] reads the map and the screen index and writes the hover state of
    the layer, the cursor of the map container and, through [marker.fire],
    the listeners of the markers. *)

Inductive EventType :=
| click
| mousemove.

(** [L.LeafletMouseEvent]: the layer subscribes [_fire] to [click] and to
    [mousemove] only. *)
Record MouseEvent := mkMouseEvent {
  ev_type : EventType;
  containerPoint : Point
}.

(** [cursor] is [map.getContainer().style.cursor]; [fired] lists the calls
    of [marker.fire(type)], oldest first. *)
Record Pointer := mkPointer {
  _mouseOverMarker : option MarkerRef;
  _previousCursorStyle : string;
  cursor : string;
  fired : list (MarkerRef * string)
}.

Definition set_mouseOverMarker (v : option MarkerRef) (p : Pointer) : Pointer :=
  mkPointer v (_previousCursorStyle p) (cursor p) (fired p).

Definition set_previousCursorStyle (v : string) (p : Pointer) : Pointer :=
  mkPointer (_mouseOverMarker p) v (cursor p) (fired p).

Definition set_cursor (v : string) (p : Pointer) : Pointer :=
  mkPointer (_mouseOverMarker p) (_previousCursorStyle p) v (fired p).

(** [if (marker.listens(type)) marker.fire(type)]; [listens] is the state
    of the listeners, which Leaflet keeps. *)
Definition fire_if_listens (listens : MarkerRef -> string -> bool) (r : MarkerRef)
           (type : string) (p : Pointer) : Pointer :=
  if listens r type
  then mkPointer (_mouseOverMarker p) (_previousCursorStyle p) (cursor p)
                 (fired p ++ [(r, type)])
  else p.

(** The query box of a pixel. *)
Definition pixelBox_of (pt : Point) : RBushBox := mkBox (px pt) (py pt) (px pt) (py pt) 0%nat.

Definition _fire (listens : MarkerRef -> string -> bool) (event : MouseEvent)
           (s : State) (p : Pointer) : Pointer :=
  match _map s with
  | None => p
  | Some map =>
      let markers := RBush.search (pixelBox_of (containerPoint event)) (_markersTree s) in
      match markers with
      | first :: _ =>
          let r := marker first in
          match ev_type event with
          | click => fire_if_listens listens r "click" p
          | mousemove =>
              let p1 :=
                match _mouseOverMarker p with
                | Some over =>
                    if Nat.eqb over r then p else fire_if_listens listens over "mouseout" p
                | None => p
                end in
              let p2 :=
                match _mouseOverMarker p1 with
                | None => set_cursor "pointer" (set_previousCursorStyle (cursor p1) p1)
                | Some _ => p1
                end in
              match _mouseOverMarker p2 with
              | Some over =>
                  if Nat.eqb over r then p2
                  else fire_if_listens listens r "mouseover" (set_mouseOverMarker (Some r) p2)
              | None =>
                  fire_if_listens listens r "mouseover" (set_mouseOverMarker (Some r) p2)
              end
          end
      | [] =>
          match ev_type event, _mouseOverMarker p with
          | mousemove, Some over =>
              set_mouseOverMarker None
                (fire_if_listens listens over "mouseout"
                   (set_cursor (_previousCursorStyle p) p))
          | _, _ => p
          end
      end
  end.

(** The pointer events of a session, each with the state of the layer at
    the moment it arrives. *)
Definition dispatch (listens : MarkerRef -> string -> bool)
           (events : list (State * MouseEvent)) (p : Pointer) : Pointer :=
  fold_left (fun p se => _fire listens (snd se) (fst se) p) events p.

(** The hover events of a log. *)
Definition hover_events (log : list (MarkerRef * string)) : list (MarkerRef * string) :=
  List.filter (fun e => negb (String.eqb (snd e) "click")) log.

(** A log of hover events in which every [mouseover] of a marker is
    followed by the [mouseout] of the same marker before anything else; the
    index is the marker whose [mouseout] is still to come. *)
Inductive paired : list (MarkerRef * string) -> option MarkerRef -> Prop :=
| paired_nil : paired [] None
| paired_over log r : paired log None -> paired (log ++ [(r, "mouseover"%string)]) (Some r)
| paired_out log r : paired log (Some r) -> paired (log ++ [(r, "mouseout"%string)]) None.

(** Whether a screen box holds a pixel. *)
Definition holds (b : RBushBox) (pt : Point) : bool :=
  (minX b <=? px pt) && (px pt <=? maxX b) && (minY b <=? py pt) && (py pt <=? maxY b).

(** The pointer state of a new layer, on a map container of the given
    cursor style. *)
Definition new_Pointer (style : string) : Pointer := mkPointer None "" style [].

(** The cursor a layer must show and restore: the style of before the
    hover while no marker is hovered, the pointer while one is. *)
Definition cursor_kept (style : string) (p : Pointer) : Prop :=
  match _mouseOverMarker p with
  | None => cursor p = style
  | Some _ => _previousCursorStyle p = style /\ cursor p = "pointer"%string
  end.

(** The icon of a marker is in the cache, loaded and not errored. *)
Definition icon_loaded (s : State) (m : Marker) : bool :=
  match iconUrl_of m with
  | Some url =>
      match _icons s !! url with
      | Some e => isLoaded e && negb (hasErrored e)
      | None => false
      end
  | None => false
  end.

(** The anchor of the icon lies within the icon. *)
Definition anchored_inside (m : Marker) : bool :=
  match icon (options m) with
  | Some io =>
      match iconAnchor io, iconSize io with
      | Some anchor, Some size =>
          (0 <=? fst anchor) && (fst anchor <=? fst size) &&
          (0 <=? snd anchor) && (snd anchor <=? snd size)
      | _, _ => false
      end
  | None => false
  end.

(** The viewport of a map as a query box, and the entries it finds. *)
Definition in_view (map : Map) (tree : RBush.t) : list RBushBox :=
  RBush.search (mapBoundsBox_of (getBounds map)) tree.

(** ** Scenes for the examples of the pointer and of the redraw *)

Module Scene.

(** The layer of [World.loaded] once the icon has arrived and the layer
    has redrawn. *)
Definition redrawn : State := run [Fire_onload "a.png"; Call_redraw true] World.loaded.

Definition all_ears (r : MarkerRef) (type : string) : bool := true.

(** The pointer moves onto marker 0, then away from every marker. *)
Definition over_and_out : list (State * MouseEvent) :=
  [(redrawn, mkMouseEvent mousemove (mkPoint 20 180));
   (redrawn, mkMouseEvent mousemove (mkPoint 150 20))].

End Scene.

(** Each side of the bounds goes through one of the given points. *)
Definition touched (P : LatLng -> Prop) (b : LatLngBounds) : Prop :=
  (exists p, P p /\ lat p = getSouth b) /\ (exists p, P p /\ lat p = getNorth b) /\
  (exists p, P p /\ lng p = getWest b) /\ (exists p, P p /\ lng p = getEast b).

(** The positions of the registered markers. *)
Definition registered_at (s : State) (p : LatLng) : Prop :=
  exists k r, getAllMarkers s !! k = Some r /\ p = getLatLng (heap s r).

(** The position index once the entries of the given markers have been
    removed, one entry per marker and in the order of the list. *)
Definition removed_from (h : MarkerRef -> Marker) (rs : list MarkerRef) (tree : RBush.t)
  : RBush.t :=
  fold_left
    (fun t r => RBush.remove (positionBox_of (getLatLng (h r)) r) (same_leaflet_id h) t)
    rs tree.

(** Whether a marker lies in the viewport of a map. *)
Definition visible (map : Map) (h : MarkerRef -> Marker) (r : MarkerRef) : bool :=
  contains (getBounds map) (getLatLng (h r)).

(** What the methods of the layer, [onAdd] and [_reset] apart, leave alone
    of the host: the map, the context and the canvas. *)
Definition host_kept (s s' : State) : Prop :=
  _map s' = _map s /\ _ctx s' = _ctx s /\ _canvas s' = _canvas s.

(** The digits of a hexadecimal colour. *)
Definition hex_digits : list ascii := list_ascii_of_string "0123456789abcdef".

(** An entry of the icon cache is kept: it stays in the cache with its
    image, stays loaded once loaded, and its queue only grows. *)
Definition entry_kept (url : string) (s s' : State) : Prop :=
  forall e, _icons s !! url = Some e ->
    exists e', _icons s' !! url = Some e' /\ ic_image e' = ic_image e /\
               (isLoaded e = true -> isLoaded e' = true) /\
               exists more, elements e' = elements e ++ more.

(** The cache has no entry under a key that [Object.prototype] has. *)
Definition own_keys (s : State) : Prop :=
  forall url, inherited url = true -> _icons s !! url = None.

Definition own_keys_kept (s s' : State) : Prop := own_keys s -> own_keys s'.

(** * Properties *)

(** ** The monad *)

Lemma bind_ok {A B} (m : M A) (f : A -> M B) s a s' :
  m s = (Ok a, s') -> bind m f s = f a s'.
Proof. intros H. unfold bind. now rewrite H. Qed.

Lemma bind_then {A B} (m : M A) (f : A -> M B) s a s' res :
  m s = (Ok a, s') -> f a s' = res -> bind m f s = res.
Proof. intros H <-. now apply bind_ok. Qed.

Lemma bind_throw {A B} (m : M A) (f : A -> M B) s e s' :
  m s = (Throw e, s') -> bind m f s = (Throw e, s').
Proof. intros H. unfold bind. now rewrite H. Qed.

Section Preserves.

Context (R : State -> State -> Prop) `{!PreOrder R}.

Lemma preserves_ret {A} (a : A) : preserves R (ret a).
Proof. intros s. simpl. reflexivity. Qed.

Lemma preserves_throw {A} (e : Exn) : preserves R (@throw A e).
Proof. intros s. simpl. reflexivity. Qed.

Lemma preserves_gets {A} (f : State -> A) : preserves R (gets f).
Proof. intros s. simpl. reflexivity. Qed.

Lemma preserves_modify (f : State -> State) :
  (forall s, R s (f s)) -> preserves R (modify f).
Proof. intros H s. apply H. Qed.

Lemma preserves_bind {A B} (m : M A) (f : A -> M B) :
  preserves R m -> (forall a, preserves R (f a)) -> preserves R (bind m f).
Proof.
  intros Hm Hf s. unfold bind. specialize (Hm s).
  destruct (m s) as [[a|e] s1]; simpl in *.
  - transitivity s1; [exact Hm | apply Hf].
  - exact Hm.
Qed.

Lemma preserves_when (b : bool) (m : M unit) : preserves R m -> preserves R (when b m).
Proof. intros H. destruct b; [exact H | apply preserves_ret]. Qed.

Lemma preserves_forEach {A} (body : A -> M unit) (l : list A) :
  (forall x, preserves R (body x)) -> preserves R (forEach body l).
Proof.
  intros H. induction l as [|x l IH]; simpl.
  - apply preserves_ret.
  - apply preserves_bind; [apply H | intros _; exact IH].
Qed.

End Preserves.

Lemma preserves_weaken {A} (R R' : State -> State -> Prop) (m : M A) :
  (forall s s', R s s' -> R' s s') -> preserves R m -> preserves R' m.
Proof. intros H Hm s. apply H, Hm. Qed.

(** One step of a proof that a method preserves a relation, along the
    structure of the method. *)
Ltac preserves_step :=
  lazymatch goal with
  | |- preserves _ (bind _ _) => apply preserves_bind; [ assumption || apply _ | | intros ? ]
  | |- preserves _ (ret _) => apply preserves_ret; assumption || apply _
  | |- preserves _ (throw _) => apply preserves_throw; assumption || apply _
  | |- preserves _ (gets _) => apply preserves_gets; assumption || apply _
  | |- preserves _ (when _ _) => apply preserves_when; [ assumption || apply _ | ]
  | |- preserves _ (forEach _ _) => apply preserves_forEach; [ assumption || apply _ | intros ? ]
  | |- preserves _ (match ?x with _ => _ end) => destruct x
  end.

Lemma same_but_image_refl m : same_but_image m m.
Proof. now repeat split. Qed.

Lemma same_but_image_trans m1 m2 m3 :
  same_but_image m1 m2 -> same_but_image m2 m3 -> same_but_image m1 m3.
Proof.
  unfold same_but_image. intros (?&?&?&?&?) (?&?&?&?&?).
  repeat split; congruence.
Qed.

#[local] Instance frame_preorder : PreOrder frame.
Proof.
  split.
  - intros s. unfold frame. split_and!; auto using same_but_image_refl.
  - intros s1 s2 s3 (?&?&?&?&?&?&H12) (?&?&?&?&?&?&H23).
    unfold frame. split_and!; try congruence.
    intros r. eapply same_but_image_trans; eauto.
Qed.

#[local] Instance registry_frame_preorder : PreOrder registry_frame.
Proof.
  split.
  - intros s. split; auto using same_but_image_refl.
  - intros s1 s2 s3 [? H12] [? H23]. split; [congruence|].
    intros r. eapply same_but_image_trans; eauto.
Qed.

Lemma frame_registry s s' : frame s s' -> registry_frame s s'.
Proof. intros (?&?&?&?&?&?&?). now split. Qed.

(** ** What drawing leaves alone *)

Create HintDb frame.

Lemma frame_set_trace t s : frame s (set_trace t s).
Proof. unfold frame; simpl. split_and!; auto using same_but_image_refl. Qed.

Lemma frame_set_colorMap cm s : frame s (set_colorMap cm s).
Proof. unfold frame; simpl. split_and!; auto using same_but_image_refl. Qed.

Lemma frame_set_icons ic s : frame s (set_icons ic s).
Proof. unfold frame; simpl. split_and!; auto using same_but_image_refl. Qed.

Lemma frame_set_nextImage n s : frame s (set_nextImage n s).
Proof. unfold frame; simpl. split_and!; auto using same_but_image_refl. Qed.

Lemma frame_set_markersTree t s : frame s (set_markersTree t s).
Proof. unfold frame; simpl. split_and!; auto using same_but_image_refl. Qed.

Lemma frame_set_canvas c s : frame s (set_canvas c s).
Proof. unfold frame; simpl. split_and!; auto using same_but_image_refl. Qed.

Lemma frame_set_image r i s :
  frame s (set_heap (update_marker r (with_image i) (heap s)) s).
Proof.
  unfold frame; simpl. split_and!; auto.
  intros r'. unfold update_marker. destruct (Nat.eqb r' r).
  - now unfold same_but_image.
  - apply same_but_image_refl.
Qed.

#[local] Hint Resolve frame_set_trace frame_set_colorMap frame_set_icons
  frame_set_nextImage frame_set_markersTree frame_set_canvas frame_set_image : frame.

Ltac preserves_tac :=
  repeat first
    [ progress cbv zeta
    | preserves_step
    | apply preserves_modify; intros ?; solve [auto with frame]
    | solve [auto with frame] ].

Lemma emit_frame e : preserves frame (emit e).
Proof. unfold emit. preserves_tac. Qed.

Lemma canvas_frame ops : preserves frame (canvas ops).
Proof. unfold canvas. preserves_tac. Qed.

Lemma ctx_frame : preserves frame ctx.
Proof. unfold ctx. preserves_tac. Qed.

Lemma the_map_frame : preserves frame the_map.
Proof. unfold the_map. preserves_tac. Qed.

Lemma halo_colour_frame imgSrc : preserves frame (halo_colour imgSrc).
Proof. unfold halo_colour. preserves_tac. Qed.

#[local] Hint Resolve emit_frame canvas_frame ctx_frame the_map_frame
  halo_colour_frame : frame.

Lemma _drawImage_frame r x y : preserves frame (_drawImage r x y).
Proof. unfold _drawImage. preserves_tac. Qed.

#[local] Hint Resolve _drawImage_frame : frame.

Lemma new_Image_frame url : preserves frame (new_Image url).
Proof. unfold new_Image. preserves_tac. Qed.

Lemma set_image_frame r i : preserves frame (set_image r i).
Proof. unfold set_image. preserves_tac. Qed.

Lemma push_element_frame url el e : preserves frame (push_element url el e).
Proof. unfold push_element. preserves_tac. Qed.

#[local] Hint Resolve new_Image_frame set_image_frame push_element_frame : frame.

Lemma _drawMarker_frame r x y : preserves frame (_drawMarker r x y).
Proof. unfold _drawMarker. preserves_tac. Qed.

#[local] Hint Resolve _drawMarker_frame : frame.

Lemma image_onload_frame url : preserves frame (image_onload url).
Proof. unfold image_onload. preserves_tac. Qed.

Lemma image_onerror_frame url img : preserves frame (image_onerror url img).
Proof. unfold image_onerror, console_error. preserves_tac. Qed.

Lemma redraw_loop_frame map found markers : preserves frame (redraw_loop map found markers).
Proof.
  revert markers. induction found as [|entry rest IH]; intros markers; simpl.
  - preserves_tac.
  - preserves_tac.
Qed.

#[local] Hint Resolve redraw_loop_frame image_onload_frame image_onerror_frame : frame.

Lemma redraw_frame c : preserves frame (redraw c).
Proof. unfold redraw. preserves_tac. Qed.

#[local] Hint Resolve redraw_frame : frame.

(** ** Removal and the registry *)

Lemma registry_set_positionsTree t s : registry_frame s (set_positionsTree t s).
Proof. split; simpl; auto using same_but_image_refl. Qed.

#[local] Hint Resolve registry_set_positionsTree : frame.

Lemma redraw_registry c : preserves registry_frame (redraw c).
Proof. eapply preserves_weaken; [apply frame_registry | apply redraw_frame]. Qed.

Lemma remove_position_registry r : preserves registry_frame (remove_position r).
Proof. unfold remove_position. preserves_tac. Qed.

#[local] Hint Resolve redraw_registry remove_position_registry : frame.

Lemma removeMarker_registry r : preserves registry_frame (removeMarker r).
Proof. unfold removeMarker. preserves_tac. Qed.

Lemma removeMarkers_loop_registry map rs b :
  preserves registry_frame (removeMarkers_loop map rs b).
Proof.
  revert b. induction rs as [|r rs IH]; intros b; simpl; preserves_tac.
Qed.

#[local] Hint Resolve removeMarkers_loop_registry : frame.

Lemma removeMarkers_registry rs : preserves registry_frame (removeMarkers rs).
Proof. unfold removeMarkers. preserves_tac. Qed.

Lemma fold_extend_ext (h h' : MarkerRef -> Marker) (l : list (nat * MarkerRef)) b :
  (forall r, getLatLng (h' r) = getLatLng (h r)) ->
  fold_left (fun b kv => extend b (getLatLng (h' (snd kv)))) l b =
  fold_left (fun b kv => extend b (getLatLng (h (snd kv)))) l b.
Proof.
  intros H. revert b. induction l as [|kv l IH]; intros b; simpl; [reflexivity|].
  now rewrite H, IH.
Qed.

Lemma layer_getBounds_registry s s' :
  registry_frame s s' -> layer_getBounds s' = layer_getBounds s.
Proof.
  intros [Hl Hh]. unfold layer_getBounds. rewrite Hl.
  assert (Hll : forall r, getLatLng (heap s' r) = getLatLng (heap s r)).
  { intros r. destruct (Hh r) as (_ & ? & _). assumption. }
  rewrite (fold_extend_ext (heap s) (heap s')) by exact Hll.
  destruct (_layers s !! 0%nat) as [r0|]; simpl; [|reflexivity].
  now rewrite Hll.
Qed.

Lemma extend_contains_new b p :
  exists b', extend b p = Some b' /\ contains b' p = true.
Proof.
  destruct b as [b|]; simpl; eexists; split; try reflexivity;
    unfold contains, getSouth, getNorth, getWest, getEast; simpl;
    rewrite !andb_true_iff, !Z.leb_le; lia.
Qed.

Lemma extend_contains_old b q p :
  contains b q = true ->
  exists b', extend (Some b) p = Some b' /\ contains b' q = true.
Proof.
  intros H. simpl. eexists; split; [reflexivity|].
  revert H. unfold contains, getSouth, getNorth, getWest, getEast; simpl.
  rewrite !andb_true_iff, !Z.leb_le. lia.
Qed.

Lemma fold_extend_keeps (h : MarkerRef -> Marker) (l : list (nat * MarkerRef)) b q :
  contains b q = true ->
  exists b', fold_left (fun b kv => extend b (getLatLng (h (snd kv)))) l (Some b) = Some b'
             /\ contains b' q = true.
Proof.
  revert b. induction l as [|kv l IH]; intros b H; simpl.
  - eauto.
  - destruct (extend_contains_old b q (getLatLng (h (snd kv))) H) as (b1 & E & H1).
    simpl in E. rewrite E. apply IH, H1.
Qed.

Lemma fold_extend_contains (h : MarkerRef -> Marker) (l : list (nat * MarkerRef)) b kv :
  In kv l ->
  exists b', fold_left (fun b kv => extend b (getLatLng (h (snd kv)))) l b = Some b'
             /\ contains b' (getLatLng (h (snd kv))) = true.
Proof.
  revert b. induction l as [|kv' l IH]; intros b Hin; simpl; [destruct Hin|].
  destruct Hin as [->|Hin].
  - destruct (extend_contains_new b (getLatLng (h (snd kv)))) as (b1 & E & H1).
    rewrite E. apply fold_extend_keeps, H1.
  - apply IH, Hin.
Qed.

Lemma layer_getBounds_contains s id r :
  _layers s !! id = Some r ->
  exists b, layer_getBounds s = Some b /\ contains b (getLatLng (heap s r)) = true.
Proof.
  intros H. unfold layer_getBounds.
  apply (fold_extend_contains (heap s) _ _ (id, r)).
  apply list_elem_of_In, elem_of_map_to_list, H.
Qed.

Lemma removeMarker_positionsTree r s :
  _positionsTree (snd (removeMarker r s)) =
  match _map s with
  | Some _ =>
      RBush.remove (positionBox_of (getLatLng (heap s r)) r) (same_leaflet_id (heap s))
                   (_positionsTree s)
  | None => _positionsTree s
  end.
Proof.
  unfold removeMarker, bind, gets, remove_position, modify; simpl.
  destruct (_map s) as [map|]; simpl; [|reflexivity].
  destruct (contains (getBounds map) (getLatLng (heap s r))); simpl; [|reflexivity].
  match goal with |- _positionsTree (snd (redraw true ?s1)) = _ =>
    destruct (redraw_frame true s1) as (_ & E & _); rewrite E end.
  reflexivity.
Qed.

(** C10.  Removing a registered marker, by [removeMarker] or by
    [removeMarkers], leaves the registry as it was: [getAllMarkers] returns
    the same mapping, which still holds the marker, [getBounds] returns the
    same bounds, which still enclose the marker; of the layer's collections
    only the position index loses an entry. *)
Theorem removal_keeps_registration (s : State) (id : nat) (r : MarkerRef) :
  getAllMarkers s !! id = Some r ->
  (let s1 := snd (removeMarker r s) in
   getAllMarkers s1 = getAllMarkers s /\
   getAllMarkers s1 !! id = Some r /\
   layer_getBounds s1 = layer_getBounds s /\
   (exists b, layer_getBounds s1 = Some b /\ contains b (getLatLng (heap s1 r)) = true) /\
   _positionsTree s1 =
     match _map s with
     | Some _ =>
         RBush.remove (positionBox_of (getLatLng (heap s r)) r) (same_leaflet_id (heap s))
                      (_positionsTree s)
     | None => _positionsTree s
     end) /\
  (forall rs,
      let s2 := snd (removeMarkers rs s) in
      getAllMarkers s2 = getAllMarkers s /\
      getAllMarkers s2 !! id = Some r /\
      layer_getBounds s2 = layer_getBounds s /\
      (exists b, layer_getBounds s2 = Some b /\ contains b (getLatLng (heap s2 r)) = true)).
Proof.
  intros Hreg. unfold getAllMarkers in *. split.
  - pose proof (removeMarker_registry r s) as Hf.
    destruct Hf as [Hl Hh]. cbv zeta. split_and!.
    + exact Hl.
    + now rewrite Hl.
    + apply layer_getBounds_registry. now split.
    + apply (layer_getBounds_contains _ id). now rewrite Hl.
    + apply removeMarker_positionsTree.
  - intros rs. pose proof (removeMarkers_registry rs s) as Hf.
    destruct Hf as [Hl Hh]. cbv zeta. split_and!.
    + exact Hl.
    + now rewrite Hl.
    + apply layer_getBounds_registry. now split.
    + apply (layer_getBounds_contains _ id). now rewrite Hl.
Qed.

Lemma removal_keeps_registration_witness :
  getAllMarkers World.loaded !! 1%nat = Some 0%nat /\
  getAllMarkers (snd (removeMarker 0%nat World.loaded)) = getAllMarkers World.loaded.
Proof.
  split; [vm_compute; reflexivity|].
  refine (proj1 (proj1 (removal_keeps_registration World.loaded 1%nat 0%nat _))).
  vm_compute; reflexivity.
Defined.

(** ** Silence *)

#[local] Instance silent_preorder {B} (obs : list Event -> list B) : PreOrder (silent obs).
Proof. split; unfold silent; [intros s | intros s1 s2 s3 ? ?]; congruence. Qed.

Lemma silent_modify {B} (obs : list Event -> list B) (f : State -> State) :
  (forall s, trace (f s) = trace s) -> preserves (silent obs) (modify f).
Proof. intros H s. unfold silent, modify; simpl. now rewrite H. Qed.

Lemma silent_emit {B} (obs : list Event -> list B) (e : Event) :
  (forall t, obs (t ++ [e]) = obs t) -> preserves (silent obs) (emit e).
Proof. intros H s. unfold silent, emit, modify; simpl. apply H. Qed.

Lemma silent_canvas {B} (obs : list Event -> list B) (ops : list CanvasOp) :
  (forall t, obs (t ++ List.map Canvas ops) = obs t) -> preserves (silent obs) (canvas ops).
Proof. intros H s. unfold silent, canvas, modify; simpl. apply H. Qed.

Lemma omap_indicator_ops {B} (f : Event -> option B) size radius idx colours :
  (forall c, f (Canvas (FillStyle c)) = None) ->
  (forall c, f (Canvas (StrokeStyle c)) = None) ->
  f (Canvas BeginPath) = None ->
  (forall x y r a b, f (Canvas (Arc x y r a b)) = None) ->
  f (Canvas Fill) = None -> f (Canvas Stroke) = None -> f (Canvas ClosePath) = None ->
  omap f (List.map Canvas (indicator_ops size radius idx colours)) = [].
Proof.
  intros H1 H2 H3 H4 H5 H6 H7. revert idx.
  induction colours as [|c rest IH]; intros idx; simpl; [reflexivity|].
  rewrite H1, H2, H3, H4, H5, H6, H7. apply IH.
Qed.

(** Discharges [obs (t ++ events) = obs t] for the observations of this
    file, all of which are [omap]s. *)
Ltac no_event :=
  intros; unfold cleared, drawn, fetched, reported, positions;
  rewrite omap_app;
  first [ rewrite omap_indicator_ops by (intros; reflexivity) | simpl ];
  apply app_nil_r.

Ltac silent_tac :=
  repeat first
    [ progress cbv zeta
    | preserves_step
    | apply silent_canvas; solve [no_event]
    | apply silent_emit; solve [no_event]
    | apply silent_modify; intros ?; reflexivity
    | solve [auto with silent] ].

Create HintDb silent.

(** *** Nothing but [redraw] clears the canvas *)

Lemma ctx_uncleared : preserves (silent cleared) ctx.
Proof. unfold ctx. silent_tac. Qed.

Lemma halo_colour_uncleared imgSrc : preserves (silent cleared) (halo_colour imgSrc).
Proof. unfold halo_colour. silent_tac. Qed.

#[local] Hint Resolve ctx_uncleared halo_colour_uncleared : silent.

Lemma _drawImage_uncleared r x y : preserves (silent cleared) (_drawImage r x y).
Proof. unfold _drawImage. silent_tac. Qed.

#[local] Hint Resolve _drawImage_uncleared : silent.

Lemma _drawMarker_uncleared r x y : preserves (silent cleared) (_drawMarker r x y).
Proof. unfold _drawMarker, new_Image, set_image, push_element. silent_tac. Qed.

#[local] Hint Resolve _drawMarker_uncleared : silent.

Lemma redraw_loop_uncleared map found markers :
  preserves (silent cleared) (redraw_loop map found markers).
Proof.
  revert markers. induction found as [|entry rest IH]; intros markers; simpl; silent_tac.
Qed.

Lemma redraw_clears_once s map size :
  _map s = Some map -> _canvas s = Some size -> _ctx s = true ->
  cleared (trace (snd (redraw true s))) = cleared (trace s) ++ [tt].
Proof.
  intros Hmap Hcv Hctx. destruct size as [w h].
  unfold redraw, bind, gets; simpl. rewrite Hmap, Hcv, Hctx; simpl.
  match goal with |- context [redraw_loop ?m ?f ?a ?s1] =>
    pose proof (redraw_loop_uncleared m f a s1) as Hq;
    destruct (redraw_loop m f a s1) as [[bs|e] s2] end;
    unfold silent in Hq; simpl in *; rewrite Hq;
    unfold cleared; now rewrite omap_app.
Qed.

(** ** Removing a marker *)

Lemma remove_same h i item tree :
  length (List.filter (has_id h i) (RBush.remove item (fun a => has_id h i) tree)) =
  pred (length (List.filter (has_id h i) tree)).
Proof.
  induction tree as [|b rest IH]; simpl; [reflexivity|].
  destruct (has_id h i b) eqn:E; simpl.
  - reflexivity.
  - rewrite E. exact IH.
Qed.

Lemma remove_others h i item tree :
  List.filter (fun b => negb (has_id h i b)) (RBush.remove item (fun a => has_id h i) tree) =
  List.filter (fun b => negb (has_id h i b)) tree.
Proof.
  induction tree as [|b rest IH]; simpl; [reflexivity|].
  destruct (has_id h i b) eqn:E; simpl.
  - reflexivity.
  - rewrite E. simpl. now rewrite IH.
Qed.

Lemma remove_by_identity h item item' tree :
  marker item = marker item' ->
  RBush.remove item (same_leaflet_id h) tree = RBush.remove item' (same_leaflet_id h) tree.
Proof.
  intros E. induction tree as [|b rest IH]; simpl; [reflexivity|].
  unfold same_leaflet_id at 1 3. rewrite E.
  destruct (bool_decide _); [reflexivity | now rewrite IH].
Qed.

Lemma remove_same_leaflet_id h item tree :
  RBush.remove item (same_leaflet_id h) tree =
  RBush.remove item (fun a => has_id h (_leaflet_id (h (marker item)))) tree.
Proof.
  induction tree as [|b rest IH]; simpl; [reflexivity|].
  unfold same_leaflet_id at 1, has_id at 1.
  destruct (bool_decide _); [reflexivity | now rewrite IH].
Qed.

(** C6.  On an attached layer [removeMarker] deletes from the position
    index one entry of the marker, found by its [_leaflet_id] whatever box
    the entry or the request carries, and leaves the entries of other
    markers alone; it then redraws with [redraw(true)] when the marker lies
    in the viewport, and does nothing more when it does not: the canvas is
    cleared once in the first case and not at all in the second. *)
Theorem removeMarker_removes_and_redraws (s : State) (map : Map) (r : MarkerRef) :
  _map s = Some map ->
  let isVisible := contains (getBounds map) (getLatLng (heap s r)) in
  let tree' := RBush.remove (positionBox_of (getLatLng (heap s r)) r)
                            (same_leaflet_id (heap s)) (_positionsTree s) in
  let s1 := set_positionsTree tree' s in
  let s' := snd (removeMarker r s) in
  _positionsTree s' = tree' /\
  length (entries_of (heap s) r tree') =
    pred (length (entries_of (heap s) r (_positionsTree s))) /\
  entries_of_others (heap s) r tree' = entries_of_others (heap s) r (_positionsTree s) /\
  (forall box, marker box = r ->
     RBush.remove box (same_leaflet_id (heap s)) (_positionsTree s) = tree') /\
  removeMarker r s = (if isVisible then redraw true s1 else (Ok tt, s1)) /\
  (forall size, _canvas s = Some size -> _ctx s = true ->
     cleared (trace s') = cleared (trace s) ++ (if isVisible then [tt] else [])).
Proof.
  intros Hmap isVisible tree' s1 s'.
  assert (Hrun : removeMarker r s = (if isVisible then redraw true s1 else (Ok tt, s1))).
  { unfold removeMarker, bind, gets, remove_position, modify; simpl. rewrite Hmap.
    fold isVisible. destruct isVisible; reflexivity. }
  split_and!.
  - subst s'. rewrite removeMarker_positionsTree, Hmap. reflexivity.
  - subst tree'. unfold entries_of. rewrite remove_same_leaflet_id. simpl.
    apply remove_same.
  - subst tree'. unfold entries_of_others. rewrite remove_same_leaflet_id. simpl.
    apply remove_others.
  - intros box Hbox. subst tree'. apply remove_by_identity. exact Hbox.
  - exact Hrun.
  - intros size Hcv Hctx. subst s'. rewrite Hrun. destruct isVisible.
    + rewrite (redraw_clears_once s1 map size); auto.
    + simpl. now rewrite app_nil_r.
Qed.

Lemma removeMarker_removes_and_redraws_witness :
  _map World.loaded = Some World.view /\
  cleared (trace (snd (removeMarker 0%nat World.loaded))) =
    cleared (trace World.loaded) ++ [tt].
Proof.
  split; [reflexivity|].
  pose proof (removeMarker_removes_and_redraws World.loaded World.view 0%nat eq_refl)
    as (_ & _ & _ & _ & _ & H).
  apply (H (200, 200)); reflexivity.
Defined.

(** ** The halo colour *)

Lemma _generateDynamicHexcode_truthy url : truthy (_generateDynamicHexcode url) = true.
Proof. unfold _generateDynamicHexcode. cbn [fold_left String.append]. reflexivity. Qed.

Lemma colorMap_ok_insert cm url :
  colorMap_ok cm -> colorMap_ok (<[url := _generateDynamicHexcode url]> cm).
Proof.
  intros H u c. rewrite lookup_insert. case_decide.
  - subst u. congruence.
  - apply H.
Qed.

Lemma halo_colour_ok url s :
  colorMap_ok (_colorMap s) ->
  fst (halo_colour url s) = Ok (_generateDynamicHexcode url) /\
  colorMap_ok (_colorMap (snd (halo_colour url s))).
Proof.
  intros H. unfold halo_colour, bind, gets, modify, ret; simpl.
  destruct (_colorMap s !! url) as [c|] eqn:E; simpl.
  - rewrite (H url c E), _generateDynamicHexcode_truthy. simpl. now split.
  - split; [reflexivity | now apply colorMap_ok_insert].
Qed.

#[local] Instance memo_kept_preorder : PreOrder memo_kept.
Proof. split; unfold memo_kept; [intros s | intros s1 s2 s3 ? ?]; auto. Qed.

Create HintDb memo.

Ltac memo_tac :=
  unfold emit, canvas, console_error, ctx, the_map, stamp, new_Image, set_image,
    push_element, remove_position, discard;
  repeat first
    [ progress cbv zeta
    | preserves_step
    | apply preserves_modify; intros ? H; exact H
    | solve [auto with memo] ].

Lemma halo_colour_memo url : preserves memo_kept (halo_colour url).
Proof. intros s H. now apply halo_colour_ok. Qed.

#[local] Hint Resolve halo_colour_memo : memo.

Lemma _drawImage_memo r x y : preserves memo_kept (_drawImage r x y).
Proof. unfold _drawImage. memo_tac. Qed.

#[local] Hint Resolve _drawImage_memo : memo.

Lemma _drawMarker_memo r x y : preserves memo_kept (_drawMarker r x y).
Proof. unfold _drawMarker. memo_tac. Qed.

#[local] Hint Resolve _drawMarker_memo : memo.

Lemma redraw_loop_memo map found markers :
  preserves memo_kept (redraw_loop map found markers).
Proof.
  revert markers. induction found as [|entry rest IH]; intros markers; simpl; memo_tac.
Qed.

#[local] Hint Resolve redraw_loop_memo : memo.

Lemma redraw_memo c : preserves memo_kept (redraw c).
Proof. unfold redraw. memo_tac. Qed.

#[local] Hint Resolve redraw_memo : memo.

Lemma addMarker_memo r : preserves memo_kept (addMarker r).
Proof. unfold addMarker. memo_tac. Qed.

#[local] Hint Resolve addMarker_memo : memo.

Lemma addMarkers_loop_memo rs mb pb : preserves memo_kept (addMarkers_loop rs mb pb).
Proof.
  revert mb pb. induction rs as [|r rs IH]; intros mb pb; simpl; memo_tac.
Qed.

Lemma removeMarkers_loop_memo map rs b : preserves memo_kept (removeMarkers_loop map rs b).
Proof.
  revert b. induction rs as [|r rs IH]; intros b; simpl; memo_tac.
Qed.

#[local] Hint Resolve addMarkers_loop_memo removeMarkers_loop_memo : memo.

Lemma image_onload_memo url : preserves memo_kept (image_onload url).
Proof. unfold image_onload. memo_tac. Qed.

Lemma image_onerror_memo url img : preserves memo_kept (image_onerror url img).
Proof. unfold image_onerror. memo_tac. Qed.

#[local] Hint Resolve image_onload_memo image_onerror_memo : memo.





Example colour_of_a_png : _generateDynamicHexcode "a.png" = "#1c836d".
Proof. reflexivity. Qed.

(** On a layer with halos, two markers of one icon: the first halo
    generates the colour, the second reads it from the memo. *)
Example halo_is_memoized :
  let s := run [Call_addMarkers [0; 1]%nat; Fire_onload "a.png"] World.attached_bg in
  map_to_list (_colorMap s) = [("a.png"%string, "#1c836d"%string)] /\
  omap (fun e => match e with Canvas (StrokeStyle c) => Some c | _ => None end) (trace s) =
    ["#1c836d"%string; "#1c836d"%string].
Proof. vm_compute. split; reflexivity. Qed.

Lemma ToInt32_range z : - 2 ^ 31 <= ToInt32 z < 2 ^ 31.
Proof.
  unfold ToInt32. pose proof (Z.mod_pos_bound (z + 2 ^ 31) (2 ^ 32)). lia.
Qed.

Lemma charCodeAt0_range c : 0 <= charCodeAt0 c < 256.
Proof.
  unfold charCodeAt0. pose proof (N_ascii_bounded c). lia.
Qed.

Lemma fold_hash_step_bound chars : forall hash,
  Z.abs (fold_left hash_step chars hash) <=
  Z.abs hash + Z.of_nat (length chars) * (2 ^ 31 + 255).
Proof.
  induction chars as [|c chars IH]; intros hash.
  - simpl. lia.
  - cbn [fold_left]. etransitivity; [apply IH|].
    unfold hash_step.
    pose proof (ToInt32_range (Z.shiftl (ToInt32 hash) 5)).
    pose proof (charCodeAt0_range c).
    rewrite length_cons, Nat2Z.inj_succ. lia.
Qed.

(** The hash of a string of fewer than 2^21 characters stays below 2^53,
    where the doubles of JavaScript are exact integers: the integers of
    this embedding are the numbers of the source. *)
Lemma hash_of_exact strValue :
  (String.length strValue < 2 ^ 21)%nat -> Z.abs (hash_of strValue) < 2 ^ 53.
Proof.
  intros Hlen. unfold hash_of.
  pose proof (fold_hash_step_bound (list_ascii_of_string strValue) 0) as H.
  assert (E : length (list_ascii_of_string strValue) = String.length strValue).
  { clear. induction strValue as [|c str IH]; simpl; [reflexivity | now rewrite IH]. }
  rewrite E in H.
  assert (Z.of_nat (String.length strValue) < 2 ^ 21).
  { change (2 ^ 21) with (Z.of_nat (2 ^ 21)). lia. }
  simpl Z.abs in H. lia.
Qed.

(** ** Rejected markers *)

(** C8, as the code has it.  [addMarker] rejects in two ways.  A marker
    without icon, or of another pane than [markerPane], is logged and
    nothing else happens: no exception, no change of state beyond the
    console.  A marker whose icon lacks its anchor or its size makes an
    attached layer throw an [Error], without a log: the marker is neither
    registered nor drawn nor indexed, and the icon cache is untouched. *)
Theorem addMarker_rejects (s : State) (r : MarkerRef) :
  (icon (options (heap s r)) = None \/ pane (options (heap s r)) <> "markerPane" ->
   addMarker r s =
     (Ok no_result, set_trace (trace s ++ [ConsoleError "This is not a marker"]) s)) /\
  (forall io map,
      icon (options (heap s r)) = Some io -> pane (options (heap s r)) = "markerPane" ->
      _map s = Some map ->
      iconAnchor io = None \/ iconSize io = None ->
      exists msg s',
        addMarker r s = (Throw (Error msg), s') /\
        trace s' = trace s /\ _layers s' = _layers s /\
        _positionsTree s' = _positionsTree s /\ _markersTree s' = _markersTree s /\
        _icons s' = _icons s).
Proof.
  split.
  - intros H. unfold addMarker, bind, gets, console_error, emit, modify, ret; simpl.
    destruct (icon (options (heap s r))) as [io|]; [|reflexivity].
    destruct H as [H|H]; [discriminate|].
    apply String.eqb_neq in H. rewrite H. reflexivity.
  - intros io map Hicon Hpane Hmap Hmiss.
    unfold addMarker, bind, gets, stamp, modify, ret, throw; simpl.
    rewrite Hicon. apply String.eqb_eq in Hpane. rewrite Hpane. simpl. rewrite Hmap.
    unfold bind, gets, modify, ret; simpl.
    destruct (_leaflet_id (update_marker r with_map (heap s) r)); simpl;
      destruct Hmiss as [-> | ->]; simpl;
      try destruct (iconAnchor io); simpl;
      eexists; eexists; (split; [reflexivity|]); simpl; auto.
Qed.

Lemma addMarker_rejects_witness :
  icon (options (heap World.attached 4%nat)) = None /\
  addMarker 4%nat World.attached =
    (Ok no_result,
     set_trace (trace World.attached ++ [ConsoleError "This is not a marker"])
               World.attached).
Proof.
  split; [reflexivity|].
  apply (proj1 (addMarker_rejects World.attached 4%nat)). left. reflexivity.
Defined.

(** C8 does not hold as it is stated.  Marker 3 has an icon without
    anchor: the layer throws and no diagnostic reaches the console.
    Marker 4 has no icon: the layer logs, and nothing is raised. *)
Lemma addMarker_throw_is_not_logged :
  (exists msg, fst (addMarker 3%nat World.attached) = Throw (Error msg)) /\
  reported (trace (snd (addMarker 3%nat World.attached))) = [] /\
  fst (addMarker 4%nat World.attached) = Ok no_result /\
  reported (trace (snd (addMarker 4%nat World.attached))) = ["This is not a marker"].
Proof. split_and!; [eexists|..]; reflexivity. Qed.


(** ** Painting *)

(** What [_drawImage] does for a marker it can paint: it returns, and
    touches nothing but the canvas and the memo of colours. *)
Lemma _drawImage_returns r x y s :
  _ctx s = true -> paintable (heap s r) = true ->
  exists s', _drawImage r x y s = (Ok tt, s') /\
             painted s s' /\
             positions (trace s') = positions (trace s) ++ [(x, y)] /\
             drawn (trace s') = drawn (trace s) ++ option_list (image (heap s r)) /\
             fetched (trace s') = fetched (trace s) /\
             reported (trace s') = reported (trace s).
Proof.
  intros Hctx Hp. unfold paintable in Hp.
  unfold _drawImage, bind, gets; simpl.
  destruct (icon (options (heap s r))) as [io|]; [|discriminate].
  destruct (image (heap s r)) as [img|]; [|discriminate].
  destruct (iconAnchor io) as [anchor|]; [|discriminate].
  destruct (iconSize io) as [size|]; [|discriminate].
  unfold ctx, bind, gets; simpl. rewrite Hctx. simpl.
  unfold when, halo_colour, bind, gets, modify, canvas, ret; simpl.
  destruct (addBackground s); simpl;
    [destruct (_colorMap s !! src img) as [c|]; simpl; [destruct (truthy c); simpl|]|];
    destruct (indicators (heap s r)); simpl;
    (eexists; split; [reflexivity|]); simpl;
    (split; [reflexivity|]);
    unfold positions, drawn, fetched, reported;
    rewrite ?omap_app, ?omap_indicator_ops by (intros; reflexivity);
    simpl; rewrite ?app_nil_r, <- ?app_assoc; auto.
Qed.

Lemma painted_refl s : painted s s.
Proof. unfold painted. now destruct s. Qed.

Lemma painted_trans s1 s2 s3 : painted s1 s2 -> painted s2 s3 -> painted s1 s3.
Proof. unfold painted. intros H12 H23. rewrite H23 at 1. rewrite H12 at 1. reflexivity. Qed.

Lemma painted_fields s s' :
  painted s s' ->
  heap s' = heap s /\ _icons s' = _icons s /\ _map s' = _map s /\ _ctx s' = _ctx s /\
  _layers s' = _layers s /\ _positionsTree s' = _positionsTree s /\
  _markersTree s' = _markersTree s /\ nextImage s' = nextImage s.
Proof. unfold painted. intros ->. simpl. now split_and!. Qed.

Lemma paintable_images (h : MarkerRef -> Marker) (els : list (MarkerRef * Z * Z)) :
  Forall (fun el : MarkerRef * Z * Z => paintable (h (fst (fst el))) = true) els ->
  length (omap (fun el : MarkerRef * Z * Z => image (h (fst (fst el)))) els) = length els.
Proof.
  induction 1 as [|el els Hel _ IH]; [reflexivity|].
  cbn [omap list_omap]. unfold paintable in Hel.
  destruct (image (h (fst (fst el)))).
  - simpl. now f_equal.
  - destruct (icon (options (h (fst (fst el))))); discriminate.
Qed.

(** The loop of [image.onload] over the queue. *)
Lemma flush_returns map els s :
  _map s = Some map -> _ctx s = true ->
  Forall (fun el : MarkerRef * Z * Z => paintable (heap s (fst (fst el))) = true) els ->
  exists s',
    forEach
      (fun el : MarkerRef * Z * Z =>
         let r := fst (fst el) in
         m <- gets (fun s => heap s r) ;;
         let latLng := getLatLng m in
         map <- the_map ;;
         let p := latLngToContainerPoint map latLng in
         _drawImage r (px p) (py p))
      els s = (Ok tt, s') /\
    painted s s' /\
    positions (trace s') =
      positions (trace s) ++ List.map (fun el => projected map (heap s (fst (fst el)))) els /\
    drawn (trace s') =
      drawn (trace s) ++ omap (fun el => image (heap s (fst (fst el)))) els /\
    fetched (trace s') = fetched (trace s) /\
    reported (trace s') = reported (trace s).
Proof.
  revert s. induction els as [|el els IH]; intros s Hmap Hctx Hall.
  - exists s. simpl. rewrite !app_nil_r. split_and!; auto using painted_refl.
  - inversion Hall as [|? ? Hel Hels]; subst.
    destruct (_drawImage_returns (fst (fst el))
                (px (latLngToContainerPoint map (getLatLng (heap s (fst (fst el))))))
                (py (latLngToContainerPoint map (getLatLng (heap s (fst (fst el))))))
                s Hctx Hel)
      as (s1 & E1 & P1 & Hpos1 & Hdr1 & Hf1 & Hr1).
    destruct (painted_fields s s1 P1) as (Hh & _ & Hm & Hc & _).
    destruct (IH s1) as (s2 & E2 & P2 & Hpos2 & Hdr2 & Hf2 & Hr2).
    { congruence. } { congruence. } { now rewrite Hh. }
    exists s2. split_and!.
    + cbn [forEach]. eapply bind_then; [|exact E2].
      cbv beta zeta iota delta [bind gets the_map ret]. rewrite Hmap. exact E1.
    + eapply painted_trans; eauto.
    + rewrite Hpos2, Hpos1, Hh. simpl. unfold projected at 2. now rewrite <- app_assoc.
    + rewrite Hdr2, Hdr1, Hh. simpl.
      destruct (image (heap s (fst (fst el)))); simpl; now rewrite <- app_assoc.
    + congruence.
    + congruence.
Qed.

(** [image.onload] on a queue of markers that can be painted. *)
Lemma image_onload_returns (s : State) (url : string) (e : IconEntry) (map : Map) :
  _icons s !! url = Some e -> _map s = Some map -> _ctx s = true ->
  Forall (fun el : MarkerRef * Z * Z => paintable (heap s (fst (fst el))) = true)
         (elements e) ->
  exists s',
    image_onload url s = (Ok tt, s') /\
    _icons s' = <[url := mkIconEntry true (ic_image e) (elements e) (hasErrored e)]> (_icons s) /\
    positions (trace s') =
      positions (trace s) ++
      List.map (fun el => projected map (heap s (fst (fst el)))) (elements e) /\
    drawn (trace s') =
      drawn (trace s) ++ omap (fun el => image (heap s (fst (fst el)))) (elements e) /\
    fetched (trace s') = fetched (trace s) /\
    reported (trace s') = reported (trace s).
Proof.
  intros Hicon Hmap Hctx Hall.
  set (s0 := set_icons (<[url := mkIconEntry true (ic_image e) (elements e) (hasErrored e)]>
                          (_icons s)) s).
  destruct (flush_returns map (elements e) s0) as (s' & E & P & Hpos & Hdr & Hf & Hr);
    [exact Hmap | exact Hctx | exact Hall |].
  exists s'. split_and!.
  - unfold image_onload, bind at 1, gets at 1. rewrite Hicon.
    unfold bind at 1, modify at 1. exact E.
  - destruct (painted_fields s0 s' P) as (_ & -> & _). reflexivity.
  - exact Hpos.
  - exact Hdr.
  - exact Hf.
  - exact Hr.
Qed.

(** C2.  When the load of an icon completes, every request queued for its
    url is drawn, in the order of the queue, at the point where the view of
    that moment projects the position the marker has at that moment: the
    coordinates stored with the request play no part. *)
Theorem onload_draws_at_current_position (s : State) (url : string) (e : IconEntry)
        (map : Map) :
  _icons s !! url = Some e -> _map s = Some map -> _ctx s = true ->
  Forall (fun el : MarkerRef * Z * Z => paintable (heap s (fst (fst el))) = true)
         (elements e) ->
  exists s',
    image_onload url s = (Ok tt, s') /\
    (isLoaded <$> (_icons s' !! url)) = Some true /\
    positions (trace s') =
      positions (trace s) ++
      List.map (fun el => projected map (heap s (fst (fst el)))) (elements e) /\
    drawn (trace s') =
      drawn (trace s) ++ omap (fun el => image (heap s (fst (fst el)))) (elements e) /\
    length (drawn (trace s')) = (length (drawn (trace s)) + length (elements e))%nat.
Proof.
  intros Hicon Hmap Hctx Hall.
  destruct (image_onload_returns s url e map Hicon Hmap Hctx Hall)
    as (s' & E & Hic & Hpos & Hdr & _ & _).
  exists s'. split_and!.
  - exact E.
  - rewrite Hic. now rewrite lookup_insert_eq.
  - exact Hpos.
  - exact Hdr.
  - rewrite Hdr. rewrite length_app. f_equal. now apply paintable_images.
Qed.

Lemma onload_draws_at_current_position_witness :
  (elements <$> (_icons World.moved !! "a.png")) = Some [(0%nat, 20, 180); (1%nat, 40, 160)] /\
  exists s',
    image_onload "a.png" World.moved = (Ok tt, s') /\
    positions (trace s') = [(-30, 180); (-10, 160)].
Proof.
  split; [vm_compute; reflexivity|].
  destruct (onload_draws_at_current_position World.moved "a.png"
              (mkIconEntry false (mkImage 0 "a.png")
                           [(0%nat, 20, 180); (1%nat, 40, 160)] false)
              World.panned)
    as (s' & E & _ & Hpos & _).
  - vm_compute; reflexivity.
  - reflexivity.
  - reflexivity.
  - repeat constructor.
  - exists s'. split; [exact E|]. rewrite Hpos. reflexivity.
Defined.

(** ** Requests for one icon *)

(** The first request for a url: the image is created and fetched, the
    marker receives the handle and is queued; nothing is drawn. *)
Lemma request_unseen r x y s url :
  iconUrl_of (heap s r) = Some url -> image (heap s r) = None -> _icons s !! url = None ->
  inherited url = false ->
  let img := mkImage (nextImage s) url in
  _drawMarker r x y s =
    (Ok tt,
     set_icons (<[url := mkIconEntry false img [(r, x, y)] false]> (_icons s))
       (set_heap (update_marker r (with_image img) (heap s))
          (set_trace (trace s ++ [ImageFetch img]) (set_nextImage (S (nextImage s)) s)))).
Proof.
  intros Hurl Himg Hicon Hown.
  unfold _drawMarker, bind, gets; simpl. rewrite Hurl, Himg, Hicon, Hown. reflexivity.
Qed.

(** The first request for a url that names a property of
    [Object.prototype]: the lookup finds that property, nothing is fetched,
    queued or drawn, and the request ends in a [TypeError]. *)
Lemma request_inherited r x y s url :
  iconUrl_of (heap s r) = Some url -> image (heap s r) = None -> _icons s !! url = None ->
  inherited url = true ->
  _drawMarker r x y s = (Throw TypeError, s).
Proof.
  intros Hurl Himg Hicon Hin.
  unfold _drawMarker, bind, gets; simpl. rewrite Hurl, Himg, Hicon, Hin. reflexivity.
Qed.

(** A request for a marker without handle while the image is being
    fetched: the marker receives the handle and joins the end of the queue;
    nothing is drawn and nothing is fetched. *)
Lemma request_pending r x y s url img queue :
  iconUrl_of (heap s r) = Some url -> image (heap s r) = None ->
  _icons s !! url = Some (mkIconEntry false img queue false) ->
  _drawMarker r x y s =
    (Ok tt,
     set_icons (<[url := mkIconEntry false img (queue ++ [(r, x, y)]) false]> (_icons s))
       (set_heap (update_marker r (with_image img) (heap s)) s)).
Proof.
  intros Hurl Himg Hicon.
  unfold _drawMarker, bind, gets; simpl. rewrite Hurl, Himg, Hicon. reflexivity.
Qed.

Lemma update_marker_eq r f h : update_marker r f h r = f (h r).
Proof. unfold update_marker. now rewrite Nat.eqb_refl. Qed.

Lemma update_marker_ne r r' f h : r' <> r -> update_marker r f h r' = h r'.
Proof. intros H. unfold update_marker. apply Nat.eqb_neq in H. now rewrite H. Qed.

Lemma requests_pending url img reqs : forall s queue,
  _icons s !! url = Some (mkIconEntry false img queue false) ->
  NoDup (List.map (fun el : MarkerRef * Z * Z => fst (fst el)) reqs) ->
  Forall (fun el : MarkerRef * Z * Z =>
            iconUrl_of (heap s (fst (fst el))) = Some url /\
            image (heap s (fst (fst el))) = None) reqs ->
  exists s',
    forEach request reqs s = (Ok tt, s') /\
    _icons s' !! url = Some (mkIconEntry false img (queue ++ reqs) false) /\
    trace s' = trace s /\ _map s' = _map s /\ _ctx s' = _ctx s /\
    (forall r, r ∈ List.map (fun el : MarkerRef * Z * Z => fst (fst el)) reqs ->
               heap s' r = with_image img (heap s r)) /\
    (forall r, r ∉ List.map (fun el : MarkerRef * Z * Z => fst (fst el)) reqs ->
               heap s' r = heap s r).
Proof.
  induction reqs as [|[[r x] y] reqs IH]; intros s queue Hicon Hnd Hall.
  - exists s. simpl. rewrite app_nil_r. split_and!; auto.
    intros r Hr. inversion Hr.
  - inversion Hall as [|? ? [Hurl Himg] Hrest]; subst. simpl in Hurl, Himg.
    cbn [List.map fst] in Hnd. apply NoDup_cons in Hnd as [Hnotin Hnd].
    pose proof (request_pending r x y s url img queue Hurl Himg Hicon) as E1.
    set (s1 := set_icons (<[url := mkIconEntry false img (queue ++ [(r, x, y)]) false]>
                            (_icons s))
                 (set_heap (update_marker r (with_image img) (heap s)) s)) in E1.
    destruct (IH s1 (queue ++ [(r, x, y)])) as (s' & E & Hic & Ht & Hm & Hc & Hin & Hout).
    { subst s1. simpl. apply lookup_insert_eq. }
    { exact Hnd. }
    { rewrite Forall_forall in Hrest |- *. intros el Hel.
      destruct (Hrest el Hel) as [H1 H2]. subst s1. simpl.
      rewrite update_marker_ne; [now split|].
      intros Heq. apply Hnotin. rewrite <- Heq.
      apply (list_elem_of_fmap_2 (fun el : MarkerRef * Z * Z => fst (fst el))), Hel. }
    exists s'. cbn [List.map fst]. split_and!.
    + cbn [forEach]. eapply bind_then; [exact E1 | exact E].
    + rewrite Hic. now rewrite <- app_assoc.
    + rewrite Ht. reflexivity.
    + rewrite Hm. reflexivity.
    + rewrite Hc. reflexivity.
    + intros r' Hr'. apply elem_of_cons in Hr' as [->|Hr'].
      * rewrite Hout by exact Hnotin. subst s1. simpl. apply update_marker_eq.
      * rewrite Hin by exact Hr'. subst s1. simpl.
        rewrite update_marker_ne; [reflexivity|].
        intros ->. now apply Hnotin.
    + intros r' Hr'. apply not_elem_of_cons in Hr' as [Hne Hr'].
      rewrite Hout by exact Hr'. subst s1. simpl.
      now apply update_marker_ne.
Qed.

Lemma drawable_paintable m img : drawable m = true -> paintable (with_image img m) = true.
Proof.
  unfold drawable, paintable. simpl.
  destruct (icon (options m)) as [io|]; [|discriminate].
  destruct (iconUrl io); [|discriminate].
  destruct (iconSize io); [|discriminate].
  destruct (iconAnchor io); [reflexivity|discriminate].
Qed.

Lemma omap_images_repeat (h : MarkerRef -> Marker) img (els : list (MarkerRef * Z * Z)) :
  (forall el, el ∈ els -> image (h (fst (fst el))) = Some img) ->
  omap (fun el : MarkerRef * Z * Z => image (h (fst (fst el)))) els = repeat img (length els).
Proof.
  induction els as [|el els IH]; intros H; [reflexivity|].
  cbn [omap list_omap]. rewrite (H el) by (apply elem_of_cons; now left).
  simpl. f_equal. apply IH. intros el' Hel'. apply H. apply elem_of_cons. now right.
Qed.

(** X19.  Draw requests for any number of distinct markers that share an
    icon url the cache has not seen, and that names no property of
    [Object.prototype], start one image load, the one of the first
    request, and draw nothing; when that load completes, a single pass
    draws every one of the markers, in the order of the requests, and
    fetches nothing. *)
Theorem one_fetch_for_many_markers (s : State) (url : string) (map : Map)
        (reqs : list (MarkerRef * Z * Z)) :
  reqs <> [] ->
  NoDup (List.map (fun el : MarkerRef * Z * Z => fst (fst el)) reqs) ->
  _icons s !! url = None -> inherited url = false ->
  _map s = Some map -> _ctx s = true ->
  Forall (fun el : MarkerRef * Z * Z =>
            drawable (heap s (fst (fst el))) = true /\
            iconUrl_of (heap s (fst (fst el))) = Some url /\
            image (heap s (fst (fst el))) = None) reqs ->
  exists s1 s2 img,
    forEach request reqs s = (Ok tt, s1) /\
    fetched (trace s1) = fetched (trace s) ++ [img] /\ src img = url /\
    drawn (trace s1) = drawn (trace s) /\
    image_onload url s1 = (Ok tt, s2) /\
    fetched (trace s2) = fetched (trace s1) /\
    drawn (trace s2) = drawn (trace s) ++ repeat img (length reqs) /\
    positions (trace s2) =
      positions (trace s) ++
      List.map (fun el => projected map (heap s (fst (fst el)))) reqs.
Proof.
  intros Hne Hnd Hicon Hown Hmap Hctx Hall.
  destruct reqs as [|[[r x] y] rest]; [contradiction|]. clear Hne.
  inversion Hall as [|? ? (Hd & Hurl & Himg) Hrest]; subst. simpl in Hd, Hurl, Himg.
  cbn [List.map fst] in Hnd. apply NoDup_cons in Hnd as [Hnotin Hnd].
  set (img := mkImage (nextImage s) url).
  pose proof (request_unseen r x y s url Hurl Himg Hicon Hown) as E0. cbv zeta in E0.
  fold img in E0.
  set (s0 := set_icons (<[url := mkIconEntry false img [(r, x, y)] false]> (_icons s))
               (set_heap (update_marker r (with_image img) (heap s))
                  (set_trace (trace s ++ [ImageFetch img])
                             (set_nextImage (S (nextImage s)) s)))) in E0.
  assert (Hrest0 : forall el, el ∈ rest -> heap s0 (fst (fst el)) = heap s (fst (fst el))).
  { intros el Hel. subst s0. simpl. apply update_marker_ne.
    intros Heq. apply Hnotin. rewrite <- Heq.
    apply (list_elem_of_fmap_2 (fun el : MarkerRef * Z * Z => fst (fst el))), Hel. }
  destruct (requests_pending url img rest s0 [(r, x, y)])
    as (s1 & E1 & Hic & Ht & Hm & Hc & Hin & Hout).
  { subst s0. simpl. apply lookup_insert_eq. }
  { exact Hnd. }
  { rewrite Forall_forall in Hrest |- *. intros el Hel.
    rewrite (Hrest0 el Hel). destruct (Hrest el Hel) as (_ & ? & ?). now split. }
  assert (Hheap : forall el, el ∈ (r, x, y) :: rest ->
                             heap s1 (fst (fst el)) = with_image img (heap s (fst (fst el)))).
  { intros el Hel. apply elem_of_cons in Hel as [->|Hel].
    - simpl. rewrite Hout by exact Hnotin. subst s0. simpl. apply update_marker_eq.
    - rewrite Hin.
      + now rewrite (Hrest0 el Hel).
      + apply (list_elem_of_fmap_2 (fun el : MarkerRef * Z * Z => fst (fst el))), Hel. }
  destruct (image_onload_returns s1 url (mkIconEntry false img ([(r, x, y)] ++ rest) false) map)
    as (s2 & E2 & _ & Hpos & Hdr & Hf & _).
  { exact Hic. }
  { rewrite Hm. subst s0. exact Hmap. }
  { rewrite Hc. subst s0. exact Hctx. }
  { simpl. rewrite Forall_forall in Hall |- *. intros el Hel.
    rewrite (Hheap el Hel). apply drawable_paintable. now destruct (Hall el Hel). }
  simpl in Hpos, Hdr.
  exists s1, s2, img. split_and!.
  - cbn [forEach]. eapply bind_then; [exact E0 | exact E1].
  - rewrite Ht. subst s0. simpl. unfold fetched. now rewrite omap_app.
  - reflexivity.
  - rewrite Ht. subst s0. simpl. unfold drawn. rewrite omap_app. simpl. apply app_nil_r.
  - exact E2.
  - exact Hf.
  - rewrite Hdr. rewrite Ht. subst s0. simpl. unfold drawn at 1. rewrite omap_app. simpl.
    rewrite app_nil_r. f_equal.
    change (omap (fun el : MarkerRef * Z * Z => image (heap s1 (fst (fst el))))
                 ((r, x, y) :: rest) = repeat img (length ((r, x, y) :: rest))).
    apply omap_images_repeat. intros el Hel. now rewrite (Hheap el Hel).
  - rewrite Hpos. rewrite Ht. subst s0. simpl. unfold positions at 1. rewrite omap_app.
    simpl. rewrite app_nil_r. f_equal.
    change (List.map (fun el : MarkerRef * Z * Z => projected map (heap s1 (fst (fst el))))
                     ((r, x, y) :: rest) =
            List.map (fun el : MarkerRef * Z * Z => projected map (heap s (fst (fst el))))
                     ((r, x, y) :: rest)).
    apply map_ext_in. intros el Hel. apply list_elem_of_In in Hel.
    now rewrite (Hheap el Hel).
Qed.

Lemma one_fetch_for_many_markers_witness :
  exists s1 s2 img,
    forEach request [(0%nat, 20, 180); (1%nat, 40, 160)] World.attached = (Ok tt, s1) /\
    fetched (trace s1) = fetched (trace World.attached) ++ [img] /\
    image_onload "a.png" s1 = (Ok tt, s2) /\
    drawn (trace s2) = drawn (trace World.attached) ++ [img; img].
Proof.
  destruct (one_fetch_for_many_markers World.attached "a.png" World.view
              [(0%nat, 20, 180); (1%nat, 40, 160)])
    as (s1 & s2 & img & E1 & Hf & _ & _ & E2 & _ & Hd & _).
  - discriminate.
  - apply (bool_decide_unpack _). vm_compute. exact I.
  - reflexivity.
  - reflexivity.
  - reflexivity.
  - reflexivity.
  - repeat constructor.
  - exists s1, s2, img. now split_and!.
Defined.

(** C7, on the code.  The markers of a fresh attached layer have an icon
    whose file is named [constructor].  The cache has no entry for the
    url, and yet the first draw request finds a value under it, the
    [constructor] of [Object.prototype]: the request ends in a
    [TypeError] and leaves the layer as it was, so that no image load is
    started, whatever number of markers ask.  Through [addMarkers] the
    marker in view is not registered either, where the same marker with
    the icon [a.png] starts its load. *)
Example inherited_url_starts_no_load :
  let s := World.attached_namesakes in
  _icons s !! "constructor"%string = None /\
  _drawMarker 0%nat 20 180 s = (Throw TypeError, s) /\
  forEach request [(0%nat, 20, 180); (1%nat, 40, 160)] s = (Throw TypeError, s) /\
  let s' := run [Call_addMarkers [0; 1]%nat] s in
  fetched (trace s') = [] /\ drawn (trace s') = [] /\ size (getAllMarkers s') = 0%nat /\
  fetched (trace (run [Call_addMarkers [0; 1]%nat] World.attached)) = [mkImage 0 "a.png"].
Proof.
  cbv zeta. split_and!; vm_compute; reflexivity.
Qed.

(** ** Redrawing *)

Lemma drawable_image_paintable m i :
  drawable m = true -> image m = Some i -> paintable m = true.
Proof.
  unfold drawable, paintable. intros H ->.
  destruct (icon (options m)) as [io|]; [|discriminate].
  destruct (iconUrl io); [|discriminate].
  destruct (iconSize io); [|discriminate].
  destruct (iconAnchor io); [reflexivity|discriminate].
Qed.

Lemma drawable_iconUrl m : drawable m = true -> exists url, iconUrl_of m = Some url.
Proof.
  unfold drawable, iconUrl_of.
  destruct (icon (options m)) as [io|]; [|discriminate].
  destruct (iconUrl io) as [url|]; [eauto|discriminate].
Qed.

Lemma requestable_drawable m : requestable m = true -> drawable m = true.
Proof. unfold requestable. now intros [H _]%andb_prop. Qed.

Lemma requestable_own_url m url :
  requestable m = true -> iconUrl_of m = Some url -> inherited url = false.
Proof.
  unfold requestable, own_url. intros [_ H]%andb_prop Hurl. rewrite Hurl in H.
  now apply negb_true_iff in H.
Qed.

(** A draw request for a marker with a full icon, of a url that names no
    property of [Object.prototype], returns. *)
Lemma _drawMarker_returns r x y s :
  _ctx s = true -> requestable (heap s r) = true ->
  exists s', _drawMarker r x y s = (Ok tt, s').
Proof.
  intros Hctx Hq. pose proof (requestable_drawable _ Hq) as Hd.
  destruct (drawable_iconUrl _ Hd) as [url Hurl].
  pose proof (requestable_own_url _ _ Hq Hurl) as Hown.
  unfold _drawMarker, bind, gets; simpl. rewrite Hurl.
  destruct (image (heap s r)) as [i|] eqn:Himg.
  - destruct (errored (_icons s !! url)); [eexists; reflexivity|].
    destruct (_drawImage_returns r x y s Hctx (drawable_image_paintable _ _ Hd Himg))
      as (s' & E & _). eauto.
  - destruct (_icons s !! url) as [e|] eqn:Hicon.
    + destruct (hasErrored e); [eexists; reflexivity|].
      unfold set_image, bind, modify; simpl.
      destruct (isLoaded e).
      * match goal with |- context [_drawImage r x y ?s1] =>
          destruct (_drawImage_returns r x y s1) as (s' & E & _) end.
        { exact Hctx. }
        { simpl. rewrite update_marker_eq. now apply drawable_paintable. }
        eauto.
      * eexists; reflexivity.
    + rewrite Hown. eexists; reflexivity.
Qed.

Lemma same_but_image_drawable m m' :
  same_but_image m m' -> drawable m' = drawable m.
Proof. intros (_ & _ & Ho & _). unfold drawable. now rewrite Ho. Qed.

Lemma same_but_image_requestable m m' :
  same_but_image m m' -> requestable m' = requestable m.
Proof.
  intros (_ & _ & Ho & _). unfold requestable, drawable, own_url, iconUrl_of. now rewrite Ho.
Qed.

Lemma same_but_image_screen_box map h h' entry :
  (forall r, same_but_image (h r) (h' r)) ->
  screen_box map h' entry = screen_box map h entry.
Proof.
  intros H. destruct (H (marker entry)) as (_ & Hl & Ho & _).
  unfold screen_box, getLatLng. now rewrite Hl, Ho.
Qed.

Lemma redraw_loop_returns map found : forall markers s,
  _ctx s = true ->
  Forall (fun entry => requestable (heap s (marker entry)) = true) found ->
  exists s',
    redraw_loop map found markers s =
      (Ok (markers ++ List.map (screen_box map (heap s)) found), s').
Proof.
  induction found as [|entry rest IH]; intros markers s Hctx Hall.
  - exists s. simpl. now rewrite app_nil_r.
  - inversion Hall as [|? ? Hq Hrest]; subst.
    set (p := latLngToContainerPoint map (getLatLng (heap s (marker entry)))).
    destruct (_drawMarker_returns (marker entry) (px p) (py p) s Hctx Hq) as (s1 & E1).
    pose proof (_drawMarker_frame (marker entry) (px p) (py p) s) as Hfr.
    rewrite E1 in Hfr. simpl in Hfr. destruct Hfr as (_ & _ & _ & Hc & _ & _ & Hh).
    pose proof (requestable_drawable _ Hq) as Hd. unfold drawable in Hd.
    destruct (icon (options (heap s (marker entry)))) as [io|] eqn:Hicon; [|discriminate].
    destruct (iconUrl io); [|discriminate].
    destruct (iconSize io) as [size|] eqn:Hsize; [|discriminate].
    destruct (iconAnchor io) as [anchor|] eqn:Hanchor; [|discriminate].
    assert (Hbox : screen_box map (heap s) entry = markerBox_of p anchor size (marker entry)).
    { unfold screen_box. rewrite Hicon. simpl. now rewrite Hsize, Hanchor. }
    destruct (IH (markers ++ [markerBox_of p anchor size (marker entry)]) s1) as (s' & E).
    { congruence. }
    { eapply Forall_impl; [exact Hrest|]. intros e He. simpl in He.
      now rewrite (same_but_image_requestable _ _ (Hh (marker e))). }
    exists s'. cbn [redraw_loop]. unfold bind at 1, gets at 1. cbv zeta.
    rewrite Hicon, Hsize, Hanchor.
    fold p. eapply bind_then; [exact E1|]. rewrite E. cbn [List.map]. rewrite Hbox.
    rewrite <- app_assoc. simpl. do 4 f_equal.
    apply map_ext. intros e. now apply same_but_image_screen_box.
Qed.

Lemma intersects_position b p r :
  RBush.intersects (mapBoundsBox_of b) (positionBox_of p r) = contains b p.
Proof.
  unfold RBush.intersects, mapBoundsBox_of, positionBox_of, contains. simpl.
  destruct (lng p <=? getEast b), (lat p <=? getNorth b),
    (getWest b <=? lng p), (getSouth b <=? lat p); reflexivity.
Qed.

Lemma screen_box_marker map h entry : marker (screen_box map h entry) = marker entry.
Proof. reflexivity. Qed.

Lemma count_absent (g : RBushBox -> RBushBox) (P : RBushBox -> bool) k (l : list RBushBox) :
  (forall e, marker (g e) = marker e) ->
  k ∉ List.map marker l ->
  List.filter (fun b => Nat.eqb (marker b) k) (List.map g (List.filter P l)) = [].
Proof.
  intros Hg. induction l as [|a l IH]; intros Hk; [reflexivity|].
  cbn [List.map] in Hk. apply not_elem_of_cons in Hk as [Hne Hk].
  cbn [List.filter]. destruct (P a); cbn [List.map List.filter].
  - rewrite Hg. assert (E : Nat.eqb (marker a) k = false) by (apply Nat.eqb_neq; congruence).
    rewrite E. now apply IH.
  - now apply IH.
Qed.

Lemma count_once (g : RBushBox -> RBushBox) (P : RBushBox -> bool) (l : list RBushBox) entry :
  (forall e, marker (g e) = marker e) ->
  NoDup (List.map marker l) -> entry ∈ l ->
  length (List.filter (fun b => Nat.eqb (marker b) (marker entry))
                      (List.map g (List.filter P l))) =
  if P entry then 1%nat else 0%nat.
Proof.
  intros Hg. induction l as [|a l IH]; intros Hnd Hin; [inversion Hin|].
  cbn [List.map] in Hnd. apply NoDup_cons in Hnd as [Hnotin Hnd].
  apply elem_of_cons in Hin as [->|Hin].
  - cbn [List.filter]. destruct (P a); cbn [List.map List.filter].
    + rewrite Hg, Nat.eqb_refl. simpl. now rewrite count_absent.
    + now rewrite count_absent.
  - assert (E : Nat.eqb (marker a) (marker entry) = false).
    { apply Nat.eqb_neq. intros Heq. apply Hnotin. rewrite Heq.
      apply (list_elem_of_fmap_2 marker), Hin. }
    cbn [List.filter]. destruct (P a); cbn [List.map List.filter].
    + rewrite Hg, E. now apply IH.
    + now apply IH.
Qed.

(** C5, as the code has it.  A [redraw(true)] on an attached layer whose
    markers in view have full icons, of urls that name no property of
    [Object.prototype], returns, and the screen index is then
    the list of the screen boxes, in the current view, of the entries of
    the position index whose box meets the viewport: one entry for each of
    them, none for an entry out of the viewport, nothing of the screen
    index of before.  An entry stands for a marker found in the viewport,
    whether this redraw has painted it, queued it or dropped it. *)
Theorem redraw_rebuilds_screen_index (s : State) (map : Map) :
  _map s = Some map -> _ctx s = true ->
  let found := RBush.search (mapBoundsBox_of (getBounds map)) (_positionsTree s) in
  Forall (fun entry => requestable (heap s (marker entry)) = true) found ->
  exists s',
    redraw true s = (Ok tt, s') /\
    _markersTree s' = List.map (screen_box map (heap s)) found /\
    List.map marker (_markersTree s') = List.map marker found /\
    (NoDup (List.map marker (_positionsTree s)) ->
     forall entry, entry ∈ _positionsTree s ->
       length (List.filter (fun b => Nat.eqb (marker b) (marker entry)) (_markersTree s')) =
       if RBush.intersects (mapBoundsBox_of (getBounds map)) entry then 1%nat else 0%nat) /\
    _positionsTree s' = _positionsTree s.
Proof.
  intros Hmap Hctx found Hall.
  assert (Hrun : exists s', redraw true s = (Ok tt, s') /\
                            _markersTree s' = List.map (screen_box map (heap s)) found /\
                            _positionsTree s' = _positionsTree s).
  { unfold redraw, bind, gets; simpl. rewrite Hmap.
    destruct (_canvas s) as [[w h]|]; rewrite ?Hctx; simpl;
      match goal with |- context [redraw_loop ?m ?f ?a ?s1] =>
        destruct (redraw_loop_returns m f a s1 Hctx Hall) as (s2 & E);
        pose proof (redraw_loop_frame m f a s1) as Hfr; rewrite E in Hfr;
        destruct Hfr as (_ & Hp & _); rewrite E
      end;
      simpl; (eexists; split; [reflexivity|]); simpl; (split; [reflexivity | exact Hp]). }
  destruct Hrun as (s' & E & Htree & Hpos). exists s'. split_and!.
  - exact E.
  - exact Htree.
  - rewrite Htree, List.map_map. reflexivity.
  - intros Hnd entry Hin. rewrite Htree. subst found. unfold RBush.search.
    apply count_once; auto.
  - exact Hpos.
Qed.

Lemma redraw_rebuilds_screen_index_witness :
  _map World.loaded = Some World.view /\
  exists s',
    redraw true World.loaded = (Ok tt, s') /\
    _markersTree s' = [mkBox 4 164 36 196 0%nat; mkBox 24 144 56 176 1%nat].
Proof.
  split; [reflexivity|].
  destruct (redraw_rebuilds_screen_index World.loaded World.view) as (s' & E & Ht & _).
  - reflexivity.
  - reflexivity.
  - repeat constructor.
  - exists s'. split; [exact E|]. rewrite Ht. reflexivity.
Defined.

(** C5 does not hold as it is stated.  Marker 2 was added out of view; the
    map then shows it and the layer redraws: the icon of the marker is not
    there yet, nothing is painted in this redraw, and the marker has its
    entry in the screen index all the same. *)
Lemma screen_index_entry_without_drawing :
  let s := run [Host_setView World.far_view; Call_redraw true] World.loaded in
  List.map marker (_markersTree s) = [2%nat] /\
  drawn (trace s) = [] /\ positions (trace s) = [] /\
  (pending <$> (_icons s !! "b.png")) = Some true.
Proof. vm_compute. split_and!; reflexivity. Qed.

(** ** The errored state *)

#[local] Instance kept_preorder {A} (f : State -> A) : PreOrder (kept f).
Proof. split; unfold kept; [intros s | intros s1 s2 s3 ? ?]; congruence. Qed.

#[local] Instance sticky_preorder url : PreOrder (sticky url).
Proof. split; unfold sticky; [intros s | intros s1 s2 s3 ? ?]; auto. Qed.

Ltac kept_tac :=
  unfold emit, canvas, console_error, ctx, the_map, halo_colour;
  repeat first
    [ progress cbv zeta
    | preserves_step
    | apply preserves_modify; intros ?; reflexivity ].

Lemma _drawImage_icons r x y : preserves (kept _icons) (_drawImage r x y).
Proof. unfold _drawImage. kept_tac. Qed.

(** A marker that holds an image handle goes to [_drawImage] as long as
    its url has not failed, whether the image is loaded or not. *)
Lemma handle_bypasses_queue r x y s url i :
  iconUrl_of (heap s r) = Some url -> image (heap s r) = Some i ->
  errored (_icons s !! url) = false ->
  _drawMarker r x y s = _drawImage r x y s.
Proof.
  intros Hurl Himg Herr. unfold _drawMarker, bind at 1, gets at 1. rewrite Hurl.
  unfold bind at 1, gets at 1. now rewrite Himg, Herr.
Qed.

(** C3, on the code.  Markers 0 and 1 have been added in view: the icon
    [a.png] is being fetched and both are queued.  A further request for
    marker 1, as any redraw issues it, finds the image handle on the marker
    and goes to [_drawImage] at once, before the image is there, and the
    queue is left as it was. *)
Example pending_request_is_drawn :
  let s := World.loaded in
  let s' := snd (_drawMarker 1%nat 40 160 s) in
  (pending <$> (_icons s !! "a.png")) = Some true /\
  drawn (trace s) = [] /\
  drawn (trace s') = [mkImage 0 "a.png"] /\
  positions (trace s') = [(40, 160)] /\
  (elements <$> (_icons s' !! "a.png")) = (elements <$> (_icons s !! "a.png")) /\
  drawn (trace (run [Call_redraw true] s)) = [mkImage 0 "a.png"; mkImage 0 "a.png"].
Proof. vm_compute. split_and!; reflexivity. Qed.

(** Once the load of a url has failed, a request for a marker of that url
    does nothing at all. *)
Lemma errored_request_dropped r x y s url :
  iconUrl_of (heap s r) = Some url -> errored (_icons s !! url) = true ->
  _drawMarker r x y s = (Ok tt, s).
Proof.
  intros Hurl Herr. unfold _drawMarker, bind, gets; simpl. rewrite Hurl.
  destruct (image (heap s r)).
  - now rewrite Herr.
  - destruct (_icons s !! url) as [e|]; [|discriminate]. simpl in Herr. now rewrite Herr.
Qed.

(** The failure of a load is recorded and reported by one diagnostic. *)
Lemma image_onerror_reports_once url img s e :
  _icons s !! url = Some e ->
  exists s',
    image_onerror url img s = (Ok tt, s') /\
    errored (_icons s' !! url) = true /\
    reported (trace s') =
      reported (trace s) ++
      [("ERROR: image with source " ++ src img ++
        " could not be loaded. Please ensure the provided src matches the image location.")%string] /\
    drawn (trace s') = drawn (trace s).
Proof.
  intros Hicon. unfold image_onerror, bind, gets, console_error, emit, modify; simpl.
  rewrite Hicon. eexists. split; [reflexivity|]. simpl. split_and!.
  - now rewrite lookup_insert_eq.
  - unfold reported. now rewrite omap_app.
  - unfold drawn. rewrite omap_app. apply app_nil_r.
Qed.

Lemma errored_insert_other (icons : gmap string IconEntry) url url' e :
  errored (icons !! url') = false ->
  errored (icons !! url) = true -> errored (<[url' := e]> icons !! url) = true.
Proof.
  intros Hno H. rewrite lookup_insert. case_decide; [|exact H].
  subst. congruence.
Qed.

Lemma _drawMarker_sticky url r x y : preserves (sticky url) (_drawMarker r x y).
Proof.
  intros s H. unfold _drawMarker, bind, gets; simpl.
  destruct (iconUrl_of (heap s r)) as [url'|]; [|exact H].
  destruct (image (heap s r)).
  - destruct (errored (_icons s !! url')); [exact H|].
    now rewrite (_drawImage_icons r x y s).
  - destruct (_icons s !! url') as [e|] eqn:Hicon.
    + destruct (hasErrored e) eqn:He; [exact H|].
      unfold set_image, push_element, bind, modify; simpl.
      destruct (isLoaded e).
      * match goal with |- context [_drawImage r x y ?s1] =>
          rewrite (_drawImage_icons r x y s1) end. exact H.
      * simpl. apply errored_insert_other; [|exact H]. rewrite Hicon. exact He.
    + destruct (inherited url'); [exact H|].
      unfold new_Image, set_image, bind, gets, modify, emit, modify; simpl.
      apply errored_insert_other; [|exact H]. now rewrite Hicon.
Qed.

Lemma image_onload_sticky url url' : preserves (sticky url) (image_onload url').
Proof.
  intros s H. unfold image_onload, bind at 1, gets at 1.
  destruct (_icons s !! url') as [e|] eqn:Hicon; [|exact H].
  unfold bind at 1, modify at 1.
  match goal with |- context [forEach ?body ?l ?s1] =>
    assert (Hk : preserves (kept _icons) (forEach body l))
      by (apply preserves_forEach; [apply _|]; intros ?; kept_tac; apply _drawImage_icons);
    rewrite (Hk s1) end.
  simpl. rewrite lookup_insert. case_decide; [|exact H].
  subst. rewrite Hicon in H. exact H.
Qed.

Lemma image_onerror_sticky url url' img : preserves (sticky url) (image_onerror url' img).
Proof.
  intros s H. unfold image_onerror, bind, gets, console_error, emit, modify; simpl.
  destruct (_icons s !! url') as [e|] eqn:Hicon; [|exact H]. simpl.
  rewrite lookup_insert. case_decide; [reflexivity | exact H].
Qed.

Create HintDb sticky.

#[local] Hint Resolve _drawMarker_sticky image_onload_sticky image_onerror_sticky : sticky.

Ltac sticky_tac :=
  unfold emit, canvas, console_error, ctx, the_map, stamp, remove_position, discard;
  repeat first
    [ progress cbv zeta
    | preserves_step
    | apply preserves_modify; intros ? H; exact H
    | solve [auto with sticky] ].

Lemma redraw_loop_sticky url map found markers :
  preserves (sticky url) (redraw_loop map found markers).
Proof.
  revert markers. induction found as [|entry rest IH]; intros markers; simpl; sticky_tac.
Qed.

#[local] Hint Resolve redraw_loop_sticky : sticky.

Lemma redraw_sticky url c : preserves (sticky url) (redraw c).
Proof. unfold redraw. sticky_tac. Qed.

#[local] Hint Resolve redraw_sticky : sticky.

Lemma addMarker_sticky url r : preserves (sticky url) (addMarker r).
Proof. unfold addMarker. sticky_tac. Qed.

#[local] Hint Resolve addMarker_sticky : sticky.

Lemma addMarkers_loop_sticky url rs mb pb :
  preserves (sticky url) (addMarkers_loop rs mb pb).
Proof.
  revert mb pb. induction rs as [|r rs IH]; intros mb pb; simpl; sticky_tac.
Qed.

Lemma removeMarkers_loop_sticky url map rs b :
  preserves (sticky url) (removeMarkers_loop map rs b).
Proof.
  revert b. induction rs as [|r rs IH]; intros b; simpl; sticky_tac.
Qed.

#[local] Hint Resolve addMarkers_loop_sticky removeMarkers_loop_sticky : sticky.

Lemma call_sticky url c : preserves (sticky url) (call c).
Proof.
  destruct c; simpl;
    unfold onAdd, _initCanvas, addMarkers, removeMarker, removeMarkers, clear, _reset,
      fire_onload, fire_onerror, setView, setLatLng;
    sticky_tac.
Qed.

(** Whatever happens to the layer after the load of a url has failed, the
    url stays errored. *)
Lemma errored_is_sticky url cs s :
  errored (_icons s !! url) = true -> errored (_icons (run cs s) !! url) = true.
Proof.
  revert s. induction cs as [|c cs IH]; intros s H; simpl; [exact H|].
  apply IH. now apply call_sticky.
Qed.

(** C4, on the code.  The same layer is redrawn while [a.png] is being
    fetched, then the fetch fails: the markers 0 and 1, which use the
    image, have been passed to [ctx.drawImage] before the failure.  The
    failure itself is reported once and later requests are dropped. *)
Example failed_icon_was_drawn_before :
  let s := run [Call_redraw true; Fire_onerror "a.png"] World.loaded in
  (hasErrored <$> (_icons s !! "a.png")) = Some true /\
  drawn (trace s) = [mkImage 0 "a.png"; mkImage 0 "a.png"] /\
  length (reported (trace s)) = 1%nat /\
  drawn (trace (run [Call_redraw true; Fire_onload "a.png"] s)) = drawn (trace s).
Proof. vm_compute. split_and!; reflexivity. Qed.

(** ** Adding markers *)

Lemma addMarker_positionsTree r : preserves (kept _positionsTree) (addMarker r).
Proof.
  unfold addMarker, _drawMarker, _drawImage, stamp, new_Image, set_image, push_element.
  kept_tac.
Qed.

(** [addMarker] on a marker it accepts: the marker is stamped with the
    next identity and registered under it, the position box is handed back,
    and the position index is left as it was. *)
Lemma addMarker_fresh s r map :
  _map s = Some map -> _ctx s = true -> addable (heap s r) -> ids_bounded s ->
  exists mb vis s',
    addMarker r s =
      (Ok (mkAddResult (Some mb) (Some (positionBox_of (getLatLng (heap s r)) r)) (Some vis)),
       s') /\
    _layers s' = <[S (lastId s) := r]> (_layers s) /\
    _layers s !! S (lastId s) = None /\
    lastId s' = S (lastId s) /\
    _positionsTree s' = _positionsTree s /\
    _map s' = _map s /\ _ctx s' = _ctx s /\
    (forall r', r' <> r -> same_but_image (heap s r') (heap s' r')).
Proof.
  intros Hmap Hctx (Hq & Hpane & Hid) Hb.
  assert (Hfree : _layers s !! S (lastId s) = None).
  { destruct (_layers s !! S (lastId s)) as [r0|] eqn:E; [|reflexivity].
    apply Hb in E. lia. }
  pose proof (requestable_drawable _ Hq) as Hd0. unfold drawable in Hd0.
  destruct (icon (options (heap s r))) as [io|] eqn:Hicon; [|discriminate].
  destruct (iconUrl io) as [url|] eqn:Hu; [|discriminate].
  destruct (iconSize io) as [size|] eqn:Hsize; [|discriminate].
  destruct (iconAnchor io) as [anchor|] eqn:Hanchor; [|discriminate]. clear Hd0.
  apply String.eqb_eq in Hpane.
  unfold addMarker, bind, gets, stamp, modify, ret, when; simpl.
  rewrite Hicon, Hpane. simpl. rewrite Hmap. unfold bind, gets, modify, ret; simpl.
  rewrite update_marker_eq. simpl. rewrite Hid. simpl. rewrite Hanchor, Hsize.
  set (h1 := update_marker r (with_id (S (lastId s))) (update_marker r with_map (heap s))).
  assert (Hh1 : forall r', r' <> r -> h1 r' = heap s r').
  { intros r' Hne. subst h1. now rewrite !update_marker_ne by exact Hne. }
  assert (Hd1 : requestable (h1 r) = true).
  { subst h1. rewrite update_marker_eq, update_marker_eq. exact Hq. }
  destruct (contains (getBounds map) (getLatLng (heap s r))).
  - match goal with |- context [_drawMarker r ?x ?y ?s1] =>
      destruct (_drawMarker_returns r x y s1 Hctx Hd1) as (s2 & E);
      pose proof (_drawMarker_frame r x y s1) as Hfr;
      rewrite E in Hfr; rewrite E
    end.
    destruct Hfr as (Hl & Hp & Hm & Hc & _ & Hli & Hh). simpl in *.
    do 3 eexists. split; [reflexivity|]. simpl. split_and!; try congruence.
    intros r' Hne. rewrite <- (Hh1 r' Hne). apply Hh.
  - do 3 eexists. split; [reflexivity|]. simpl. split_and!; try congruence.
    intros r' Hne. rewrite (Hh1 r' Hne). apply same_but_image_refl.
Qed.

Lemma same_but_image_addable m m' : same_but_image m m' -> addable m -> addable m'.
Proof.
  intros Hs (Hd & Hp & Hi). pose proof (same_but_image_requestable _ _ Hs) as Hd'.
  destruct Hs as (Hid & _ & Ho & _). unfold addable. rewrite Hd', Ho, Hid. now split_and!.
Qed.

(** The loop of [addMarkers] over markers it accepts, all distinct: every
    marker is registered under a new key and its position box is
    collected. *)
Lemma addMarkers_loop_fresh map rs : forall s mbs pbs,
  _map s = Some map -> _ctx s = true -> ids_bounded s -> NoDup rs ->
  Forall (fun r => addable (heap s r)) rs ->
  exists mbs' pbs' s',
    addMarkers_loop rs mbs pbs s = (Ok (mbs', pbs'), s') /\
    length pbs' = (length pbs + length rs)%nat /\
    size (_layers s') = (size (_layers s) + length rs)%nat /\
    _positionsTree s' = _positionsTree s /\
    List.map marker pbs' = List.map marker pbs ++ rs.
Proof.
  induction rs as [|r rs IH]; intros s mbs pbs Hmap Hctx Hb Hnd Hall.
  - exists mbs, pbs, s. simpl. rewrite !Nat.add_0_r, app_nil_r. now split_and!.
  - inversion Hall as [|? ? Hr Hrest]; subst.
    apply NoDup_cons in Hnd as [Hnotin Hnd].
    destruct (addMarker_fresh s r map Hmap Hctx Hr Hb)
      as (mb & vis & s1 & E1 & Hl & Hfree & Hli & Hp & Hm & Hc & Hh).
    destruct (IH s1
                (match Some mb, Some vis with
                 | Some b, Some true => mbs ++ [b]
                 | _, _ => mbs
                 end)
                (pbs ++ [positionBox_of (getLatLng (heap s r)) r]))
      as (mbs' & pbs' & s' & E & Hlen & Hsize & Hp' & Hmk).
    { congruence. }
    { congruence. }
    { intros k r0. rewrite Hl, Hli, lookup_insert. case_decide.
      - intros _. lia.
      - intros H0. apply Hb in H0. lia. }
    { exact Hnd. }
    { rewrite Forall_forall in Hrest |- *. intros r' Hr'.
      apply (same_but_image_addable (heap s r')); [|now apply Hrest].
      apply Hh. intros ->. contradiction. }
    exists mbs', pbs', s'. split_and!.
    + cbn [addMarkers_loop]. eapply bind_then; [exact E1|]. exact E.
    + rewrite Hlen, length_app. simpl. lia.
    + rewrite Hsize, Hl, map_size_insert_None by exact Hfree. simpl. lia.
    + congruence.
    + rewrite Hmk, List.map_app. simpl. now rewrite <- app_assoc.
Qed.

(** What holds of C1 on the code: one [addMarkers] of distinct markers
    that the layer accepts adds as many entries to the position index as
    markers to the registry. *)
Lemma addMarkers_counts s map rs :
  _map s = Some map -> _ctx s = true -> ids_bounded s -> NoDup rs ->
  Forall (fun r => addable (heap s r)) rs ->
  exists s',
    addMarkers rs s = (Ok tt, s') /\
    length (_positionsTree s') = (length (_positionsTree s) + length rs)%nat /\
    size (getAllMarkers s') = (size (getAllMarkers s) + length rs)%nat.
Proof.
  intros Hmap Hctx Hb Hnd Hall.
  destruct (addMarkers_loop_fresh map rs s [] [] Hmap Hctx Hb Hnd Hall)
    as (mbs' & pbs' & s1 & E & Hlen & Hsize & Hp & _).
  unfold addMarkers. eexists. split.
  - eapply bind_then; [exact E|]. reflexivity.
  - simpl. unfold RBush.load, getAllMarkers. rewrite length_app, Hp, Hlen, Hsize.
    simpl. now split.
Qed.

(** C1, on the code.  [addMarker] registers the marker and leaves the
    position index as it was, where [addMarkers] loads the position box
    that [addMarker] hands back: after one [addMarker] on a fresh layer the
    registry holds one marker and the position index none.  And a removal
    takes the entry out of the position index while the marker stays
    registered. *)
Example addMarker_is_not_indexed :
  let s := snd (addMarker 0%nat World.attached) in
  (exists res, fst (addMarker 0%nat World.attached) = Ok res /\
               positionBox res = Some (mkBox 10 10 10 10 0%nat)) /\
  size (getAllMarkers s) = 1%nat /\ length (_positionsTree s) = 0%nat /\
  let s' := run [Call_addMarkers [0; 1; 2]%nat; Call_removeMarker 0%nat] World.attached in
  size (getAllMarkers s') = 3%nat /\ length (_positionsTree s') = 2%nat.
Proof. cbv zeta. split_and!; [eexists; split|..]; vm_compute; reflexivity. Qed.

(** ** No url is fetched twice *)

#[local] Instance fetch_kept_preorder : PreOrder fetch_kept.
Proof. split; unfold fetch_kept; [intros s | intros s1 s2 s3 ? ?]; auto. Qed.

Lemma fetch_ok_quiet s s' :
  fetched (trace s') = fetched (trace s) -> _icons s' = _icons s ->
  fetch_ok s -> fetch_ok s'.
Proof. unfold fetch_ok. intros -> ->. auto. Qed.

Lemma fetch_ok_insert s s' url e :
  fetched (trace s') = fetched (trace s) -> _icons s' = <[url := e]> (_icons s) ->
  fetch_ok s -> fetch_ok s'.
Proof.
  unfold fetch_ok. intros -> -> [Hnd Hin]. split; [exact Hnd|].
  intros img Himg. rewrite lookup_insert. case_decide; [eauto | now apply Hin].
Qed.

Lemma _drawImage_unfetched r x y : preserves (silent fetched) (_drawImage r x y).
Proof. unfold _drawImage, ctx, halo_colour. silent_tac. Qed.

Lemma _drawImage_fetch r x y : preserves fetch_kept (_drawImage r x y).
Proof.
  intros s. unfold fetch_kept. apply fetch_ok_quiet.
  - apply _drawImage_unfetched.
  - apply _drawImage_icons.
Qed.

Lemma _drawMarker_fetch r x y : preserves fetch_kept (_drawMarker r x y).
Proof.
  intros s H. unfold _drawMarker, bind, gets; simpl.
  destruct (iconUrl_of (heap s r)) as [url|]; [|exact H].
  destruct (image (heap s r)).
  - destruct (errored (_icons s !! url)); [exact H|]. now apply _drawImage_fetch.
  - destruct (_icons s !! url) as [e|] eqn:Hicon.
    + destruct (hasErrored e); [exact H|].
      unfold set_image, push_element, bind, modify; simpl.
      destruct (isLoaded e).
      * match goal with |- context [_drawImage r x y ?s1] =>
          apply (_drawImage_fetch r x y s1) end. exact H.
      * simpl. eapply fetch_ok_insert; [| |exact H]; reflexivity.
    + destruct (inherited url); [exact H|].
      unfold new_Image, set_image, bind, gets, modify, emit, modify; simpl.
      destruct H as [Hnd Hin]. split; simpl.
      * unfold fetched. rewrite omap_app, List.map_app. simpl.
        apply NoDup_app. split_and!; [exact Hnd | | apply NoDup_singleton].
        intros u Hu Hu'. apply list_elem_of_singleton in Hu'. subst u.
        apply list_elem_of_fmap in Hu as (img & Hsrc & Himg).
        apply Hin in Himg. rewrite <- Hsrc, Hicon in Himg. now destruct Himg.
      * intros img Himg. unfold fetched in Himg. rewrite omap_app in Himg.
        rewrite lookup_insert. case_decide; [eauto|].
        apply elem_of_app in Himg as [Himg|Himg]; [now apply Hin|].
        simpl in Himg. apply list_elem_of_singleton in Himg. subst img. simpl in *.
        congruence.
Qed.

Lemma image_onload_fetch url : preserves fetch_kept (image_onload url).
Proof.
  intros s H. unfold image_onload, bind at 1, gets at 1.
  destruct (_icons s !! url) as [e|] eqn:Hicon; [|exact H].
  unfold bind at 1, modify at 1.
  match goal with |- context [forEach ?body ?l ?s1] =>
    assert (Hk : preserves fetch_kept (forEach body l))
      by (apply preserves_forEach; [apply _|]; intros ?; cbv zeta;
          repeat preserves_step; try apply _drawImage_fetch;
          unfold the_map; repeat preserves_step);
    apply (Hk s1) end.
  eapply fetch_ok_insert; [| |exact H]; reflexivity.
Qed.

Lemma image_onerror_fetch url img : preserves fetch_kept (image_onerror url img).
Proof.
  intros s H. unfold image_onerror, bind, gets, console_error, emit, modify; simpl.
  destruct (_icons s !! url) as [e|] eqn:Hicon; [|exact H]. simpl.
  eapply fetch_ok_insert; [| |exact H]; simpl.
  - unfold fetched. rewrite omap_app. apply app_nil_r.
  - reflexivity.
Qed.

Create HintDb fetch.

#[local] Hint Resolve _drawMarker_fetch image_onload_fetch image_onerror_fetch : fetch.

Lemma canvas_fetch ops : preserves fetch_kept (canvas ops).
Proof.
  intros s. unfold fetch_kept. apply fetch_ok_quiet; [|reflexivity].
  unfold canvas, modify; simpl. unfold fetched. rewrite omap_app.
  assert (E : omap (fun e => match e with ImageFetch i => Some i | _ => None end)
                   (List.map Canvas ops) = []) by (induction ops; auto).
  rewrite E. apply app_nil_r.
Qed.

Lemma console_error_fetch msg : preserves fetch_kept (console_error msg).
Proof.
  intros s. unfold fetch_kept. apply fetch_ok_quiet; [|reflexivity].
  unfold console_error, emit, modify; simpl. unfold fetched. rewrite omap_app.
  apply app_nil_r.
Qed.

#[local] Hint Resolve canvas_fetch console_error_fetch : fetch.

Ltac fetch_tac :=
  unfold ctx, the_map, stamp, remove_position, discard;
  repeat first
    [ progress cbv zeta
    | preserves_step
    | apply preserves_modify; intros ? H; exact H
    | solve [auto with fetch] ].

Lemma redraw_loop_fetch map found markers :
  preserves fetch_kept (redraw_loop map found markers).
Proof.
  revert markers. induction found as [|entry rest IH]; intros markers; simpl; fetch_tac.
Qed.

#[local] Hint Resolve redraw_loop_fetch : fetch.

Lemma redraw_fetch c : preserves fetch_kept (redraw c).
Proof. unfold redraw. fetch_tac. Qed.

#[local] Hint Resolve redraw_fetch : fetch.

Lemma addMarker_fetch r : preserves fetch_kept (addMarker r).
Proof. unfold addMarker. fetch_tac. Qed.

#[local] Hint Resolve addMarker_fetch : fetch.

Lemma addMarkers_loop_fetch rs mb pb : preserves fetch_kept (addMarkers_loop rs mb pb).
Proof.
  revert mb pb. induction rs as [|r rs IH]; intros mb pb; simpl; fetch_tac.
Qed.

Lemma removeMarkers_loop_fetch map rs b : preserves fetch_kept (removeMarkers_loop map rs b).
Proof.
  revert b. induction rs as [|r rs IH]; intros b; simpl; fetch_tac.
Qed.

#[local] Hint Resolve addMarkers_loop_fetch removeMarkers_loop_fetch : fetch.

Lemma call_fetch c : preserves fetch_kept (call c).
Proof.
  destruct c; simpl;
    unfold onAdd, _initCanvas, addMarkers, removeMarker, removeMarkers, clear, _reset,
      fire_onload, fire_onerror, setView, setLatLng;
    fetch_tac.
Qed.

(** In the life of a layer no url is fetched twice. *)
Lemma no_url_fetched_twice cs bg p h :
  NoDup (List.map src (fetched (trace (run cs (new_CanvasLayer bg p h))))).
Proof.
  assert (H : forall cs s, fetch_ok s -> fetch_ok (run cs s)).
  { clear cs. induction cs as [|c cs IH]; intros s Hs; simpl; [exact Hs|].
    apply IH. now apply call_fetch. }
  apply (H cs (new_CanvasLayer bg p h)). split; simpl.
  - apply NoDup_nil. exact I.
  - intros img Himg. inversion Himg.
Qed.

(** ** Pointer events *)

Lemma intersects_pixel pt b : RBush.intersects (pixelBox_of pt) b = holds b pt.
Proof.
  unfold RBush.intersects, pixelBox_of, holds. simpl.
  destruct (minX b <=? px pt), (px pt <=? maxX b), (minY b <=? py pt), (py pt <=? maxY b);
    reflexivity.
Qed.

Lemma search_pixel_head pt tree first rest :
  RBush.search (pixelBox_of pt) tree = first :: rest ->
  first ∈ tree /\ holds first pt = true.
Proof.
  intros E. assert (Hin : In first (RBush.search (pixelBox_of pt) tree)).
  { rewrite E. now left. }
  unfold RBush.search in Hin. apply filter_In in Hin as [Hin Hh].
  rewrite intersects_pixel in Hh. split; [now apply list_elem_of_In | exact Hh].
Qed.

Lemma search_pixel_none pt tree :
  (forall b, b ∈ tree -> holds b pt = false) -> RBush.search (pixelBox_of pt) tree = [].
Proof.
  intros H. destruct (RBush.search (pixelBox_of pt) tree) as [|first rest] eqn:E;
    [reflexivity|].
  apply search_pixel_head in E as [Hin Hh]. rewrite (H first Hin) in Hh. discriminate.
Qed.

Lemma hover_events_app l l' : hover_events (l ++ l') = hover_events l ++ hover_events l'.
Proof. unfold hover_events. apply List.filter_app. Qed.

#[local] Arguments hover_events : simpl never.

(** X1.  Whatever pointer events reach a layer whose markers listen to
    [mouseover] and [mouseout], and whatever happens to the layer between
    them, the hover events the markers receive are paired: every
    [mouseover] of a marker is followed by the [mouseout] of that marker
    before any other hover event, and the marker whose [mouseout] is still
    to come is the one the layer holds as hovered. *)
Theorem hover_events_are_paired (listens : MarkerRef -> string -> bool)
        (events : list (State * MouseEvent)) (style : string) :
  (forall r, listens r "mouseover" = true /\ listens r "mouseout" = true) ->
  let p := dispatch listens events (new_Pointer style) in
  paired (hover_events (fired p)) (_mouseOverMarker p).
Proof.
  intros Hl.
  assert (Hstep : forall s ev p,
             paired (hover_events (fired p)) (_mouseOverMarker p) ->
             paired (hover_events (fired (_fire listens ev s p)))
                    (_mouseOverMarker (_fire listens ev s p))).
  { intros s ev [mo prev cur log] H. unfold _fire, fire_if_listens. simpl in *.
    destruct (_map s); [|exact H].
    destruct (RBush.search (pixelBox_of (containerPoint ev)) (_markersTree s))
      as [|first rest]; destruct (ev_type ev); simpl; try exact H.
    - destruct mo as [over|]; simpl; [|exact H].
      rewrite (proj2 (Hl over)). simpl. rewrite hover_events_app.
      now apply paired_out.
    - destruct (listens (marker first) "click"); simpl; [|exact H].
      rewrite hover_events_app. change (hover_events [(marker first, "click"%string)])
        with (@nil (MarkerRef * string)). now rewrite app_nil_r.
    - destruct mo as [over|]; simpl.
      + destruct (Nat.eqb over (marker first)) eqn:Heq; simpl.
        * rewrite Heq. exact H.
        * rewrite (proj2 (Hl over)). simpl. rewrite Heq.
          rewrite (proj1 (Hl (marker first))). simpl.
          rewrite !hover_events_app.
          apply paired_over, paired_out. exact H.
      + rewrite (proj1 (Hl (marker first))). simpl. rewrite hover_events_app.
        now apply paired_over. }
  intros p. subst p. unfold dispatch.
  assert (Hgen : forall p0, paired (hover_events (fired p0)) (_mouseOverMarker p0) ->
                            paired (hover_events
                                      (fired (fold_left
                                                (fun p se => _fire listens (snd se) (fst se) p)
                                                events p0)))
                                   (_mouseOverMarker
                                      (fold_left
                                         (fun p se => _fire listens (snd se) (fst se) p)
                                         events p0))).
  { induction events as [|[s ev] events IH]; intros p0 H0; simpl; [exact H0|].
    apply IH, Hstep, H0. }
  apply Hgen. simpl. constructor.
Qed.

(** X2.  Whatever pointer events reach a layer, the cursor of the map is
    the pointer exactly while a marker is hovered, and is back to the style
    it had before the hover whenever none is. *)
Theorem cursor_is_restored (listens : MarkerRef -> string -> bool)
        (events : list (State * MouseEvent)) (style : string) :
  cursor_kept style (dispatch listens events (new_Pointer style)).
Proof.
  assert (Hstep : forall s ev p, cursor_kept style p ->
                                 cursor_kept style (_fire listens ev s p)).
  { intros s ev [mo prev cur log] H. unfold _fire, fire_if_listens, cursor_kept in *.
    simpl in *.
    destruct (_map s); [|exact H].
    destruct (RBush.search (pixelBox_of (containerPoint ev)) (_markersTree s))
      as [|first rest]; destruct (ev_type ev); simpl; try exact H.
    - destruct mo as [over|]; simpl; [|exact H].
      destruct (listens over "mouseout"); simpl; tauto.
    - destruct (listens (marker first) "click"); simpl; exact H.
    - destruct mo as [over|]; simpl.
      + destruct (Nat.eqb over (marker first)) eqn:Heq; simpl.
        * rewrite Heq. exact H.
        * destruct (listens over "mouseout"); simpl; rewrite Heq;
            destruct (listens (marker first) "mouseover"); simpl; exact H.
      + destruct (listens (marker first) "mouseover"); simpl; now split. }
  unfold dispatch.
  assert (Hgen : forall p0, cursor_kept style p0 ->
                            cursor_kept style
                              (fold_left (fun p se => _fire listens (snd se) (fst se) p)
                                         events p0)).
  { induction events as [|[s ev] events IH]; intros p0 H0; simpl; [exact H0|].
    apply IH, Hstep, H0. }
  apply Hgen. reflexivity.
Qed.

(** X3.  A click never touches the hover state nor the cursor.  It fires
    nothing where no box of the screen index holds the pixel, and otherwise
    at most one [click], on a marker that listens to it and whose box in
    the screen index holds the pixel. *)
Theorem click_hits_inside_a_box (listens : MarkerRef -> string -> bool) (s : State)
        (pt : Point) (p : Pointer) :
  let p' := _fire listens (mkMouseEvent click pt) s p in
  _mouseOverMarker p' = _mouseOverMarker p /\
  _previousCursorStyle p' = _previousCursorStyle p /\
  cursor p' = cursor p /\
  ((forall b, b ∈ _markersTree s -> holds b pt = false) -> p' = p) /\
  (fired p' = fired p \/
   exists b, b ∈ _markersTree s /\ holds b pt = true /\
             listens (marker b) "click" = true /\
             fired p' = fired p ++ [(marker b, "click"%string)]).
Proof.
  cbv zeta. unfold _fire. simpl.
  destruct (_map s).
  2:{ split_and!; auto. }
  destruct (RBush.search (pixelBox_of pt) (_markersTree s)) as [|first rest] eqn:E.
  - split_and!; auto.
  - apply search_pixel_head in E as [Hin Hh].
    unfold fire_if_listens. destruct (listens (marker first) "click") eqn:Hl; simpl.
    + split_and!; auto.
      * intros Hnone. rewrite (Hnone first Hin) in Hh. discriminate.
      * right. exists first. now split_and!.
    + split_and!; auto.
Qed.

Lemma hover_events_are_paired_witness :
  (forall r, Scene.all_ears r "mouseover" = true /\ Scene.all_ears r "mouseout" = true) /\
  paired (hover_events (fired (dispatch Scene.all_ears Scene.over_and_out (new_Pointer ""))))
         (_mouseOverMarker (dispatch Scene.all_ears Scene.over_and_out (new_Pointer ""))).
Proof.
  split; [intros r; split; reflexivity|].
  apply (hover_events_are_paired Scene.all_ears Scene.over_and_out "").
  intros r. split; reflexivity.
Defined.

Example over_and_out_fires_twice :
  fired (dispatch Scene.all_ears Scene.over_and_out (new_Pointer "grab")) =
    [(0%nat, "mouseover"%string); (0%nat, "mouseout"%string)] /\
  cursor (dispatch Scene.all_ears Scene.over_and_out (new_Pointer "grab")) = "grab"%string.
Proof. vm_compute. split; reflexivity. Qed.

(** ** Redrawing, again *)

(** A redraw of an attached layer whose markers in view have full icons,
    of urls that name no property of [Object.prototype], returns and
    rebuilds the screen index from the entries in view. *)
Lemma redraw_returns c s map :
  _map s = Some map -> _ctx s = true ->
  Forall (fun entry => requestable (heap s (marker entry)) = true)
         (in_view map (_positionsTree s)) ->
  exists s',
    redraw c s = (Ok tt, s') /\
    _markersTree s' = List.map (screen_box map (heap s)) (in_view map (_positionsTree s)) /\
    frame s s' /\
    cleared (trace s') =
      cleared (trace s) ++
      (if c then match _canvas s with Some _ => [tt] | None => [] end else []).
Proof.
  intros Hmap Hctx Hall.
  pose proof (redraw_frame c s) as Hfr.
  assert (Hrun : exists s', redraw c s = (Ok tt, s') /\
                   _markersTree s' =
                     List.map (screen_box map (heap s)) (in_view map (_positionsTree s)) /\
                   cleared (trace s') =
                     cleared (trace s) ++
                     (if c then match _canvas s with Some _ => [tt] | None => [] end
                      else [])).
  { unfold redraw, bind, gets; simpl. rewrite Hmap.
    destruct (_canvas s) as [[w h]|]; rewrite ?Hctx; destruct c; simpl;
      match goal with |- context [redraw_loop ?m ?f ?a ?s1] =>
        destruct (redraw_loop_returns m f a s1 Hctx Hall) as (s2 & E);
        pose proof (redraw_loop_uncleared m f a s1) as Hq; rewrite E in Hq;
        rewrite E
      end;
      simpl; (eexists; split; [reflexivity|]); simpl; (split; [reflexivity|]);
      unfold silent in Hq; simpl in Hq; rewrite Hq;
      unfold cleared; rewrite ?omap_app; simpl; now rewrite ?app_nil_r. }
  destruct Hrun as (s' & E & Ht & Hc). exists s'. rewrite E in Hfr. now split_and!.
Qed.

(** X4.  While the view and the markers stay as they are, and the markers
    in view have full icons of urls that name no property of
    [Object.prototype], a redraw returns and two redraws in a row leave
    the same screen index, with or without clearing, whether the icons
    have arrived or not; the position index is not touched, and a redraw
    without clearing clears nothing. *)
Theorem redraw_twice_same_screen_index (s : State) (map : Map) (c1 c2 : bool) :
  _map s = Some map -> _ctx s = true ->
  Forall (fun entry => requestable (heap s (marker entry)) = true)
         (in_view map (_positionsTree s)) ->
  exists s1 s2,
    redraw c1 s = (Ok tt, s1) /\ redraw c2 s1 = (Ok tt, s2) /\
    _markersTree s2 = _markersTree s1 /\
    _positionsTree s2 = _positionsTree s /\
    (c2 = false -> cleared (trace s2) = cleared (trace s1)).
Proof.
  intros Hmap Hctx Hall.
  destruct (redraw_returns c1 s map Hmap Hctx Hall) as (s1 & E1 & Ht1 & Hfr1 & _).
  destruct Hfr1 as (_ & Hp1 & Hm1 & Hc1 & _ & _ & Hh1).
  destruct (redraw_returns c2 s1 map) as (s2 & E2 & Ht2 & Hfr2 & Hcl2).
  { congruence. }
  { congruence. }
  { rewrite Hp1. eapply Forall_impl; [exact Hall|]. intros e He. simpl in He.
    now rewrite (same_but_image_requestable _ _ (Hh1 (marker e))). }
  destruct Hfr2 as (_ & Hp2 & _).
  exists s1, s2. split_and!; auto.
  - rewrite Ht2, Ht1, Hp1. apply map_ext. intros e.
    now apply same_but_image_screen_box.
  - congruence.
  - intros ->. rewrite Hcl2. apply app_nil_r.
Qed.

Lemma redraw_twice_same_screen_index_witness :
  _map World.loaded = Some World.view /\
  exists s1 s2,
    redraw true World.loaded = (Ok tt, s1) /\ redraw false s1 = (Ok tt, s2) /\
    _markersTree s2 = _markersTree s1.
Proof.
  split; [reflexivity|].
  destruct (redraw_twice_same_screen_index World.loaded World.view true false)
    as (s1 & s2 & E1 & E2 & Ht & _).
  - reflexivity.
  - reflexivity.
  - repeat constructor.
  - exists s1, s2. now split_and!.
Defined.

Lemma filter_nonempty {A} (f : A -> bool) (l : list A) x :
  In x l -> f x = true -> exists first rest, List.filter f l = first :: rest.
Proof.
  intros Hin Hf. destruct (List.filter f l) as [|first rest] eqn:E; [|eauto].
  assert (H : In x (List.filter f l)) by (apply filter_In; now split).
  rewrite E in H. destruct H.
Qed.

Lemma screen_box_holds map h entry :
  drawable (h (marker entry)) = true -> anchored_inside (h (marker entry)) = true ->
  holds (screen_box map h entry)
        (latLngToContainerPoint map (getLatLng (h (marker entry)))) = true.
Proof.
  unfold drawable, anchored_inside, screen_box, holds, markerBox_of.
  destruct (icon (options (h (marker entry)))) as [io|]; [|discriminate]. simpl.
  destruct (iconUrl io); [|discriminate].
  destruct (iconSize io) as [[w hh]|]; [|discriminate].
  destruct (iconAnchor io) as [[ax ay]|]; [|discriminate]. simpl.
  intros _. rewrite !andb_true_iff, !Z.leb_le. lia.
Qed.

(** X5.  After a redraw of a layer whose markers in view have full icons,
    of urls that name no property of [Object.prototype], a marker in view
    whose anchor lies within its icon can be hovered at its own place: a
    pointer move to the pixel the map projects the marker to finds a box
    of the screen index that holds the pixel, and the marker of that box
    becomes the hovered one. *)
Theorem marker_in_view_is_hoverable (s : State) (map : Map) (entry : RBushBox)
        (listens : MarkerRef -> string -> bool) (p : Pointer) :
  _map s = Some map -> _ctx s = true ->
  Forall (fun entry => requestable (heap s (marker entry)) = true)
         (in_view map (_positionsTree s)) ->
  In entry (in_view map (_positionsTree s)) ->
  anchored_inside (heap s (marker entry)) = true ->
  exists s',
    redraw true s = (Ok tt, s') /\
    let pt := latLngToContainerPoint map (getLatLng (heap s (marker entry))) in
    exists b,
      b ∈ _markersTree s' /\ holds b pt = true /\
      _mouseOverMarker (_fire listens (mkMouseEvent mousemove pt) s' p) = Some (marker b).
Proof.
  intros Hmap Hctx Hall Hin Hanch.
  destruct (redraw_returns true s map Hmap Hctx Hall) as (s' & E & Ht & Hfr & _).
  destruct Hfr as (_ & _ & Hm & _).
  exists s'. split; [exact E|]. cbv zeta.
  set (pt := latLngToContainerPoint map (getLatLng (heap s (marker entry)))).
  assert (Hd : drawable (heap s (marker entry)) = true).
  { rewrite Forall_forall in Hall. apply requestable_drawable, Hall.
    now apply list_elem_of_In. }
  destruct (filter_nonempty (RBush.intersects (pixelBox_of pt)) (_markersTree s')
              (screen_box map (heap s) entry)) as (first & rest & Es).
  { rewrite Ht. now apply in_map. }
  { rewrite intersects_pixel. now apply screen_box_holds. }
  fold (RBush.search (pixelBox_of pt) (_markersTree s')) in Es.
  pose proof (search_pixel_head _ _ _ _ Es) as [Hfirst Hholds].
  exists first. split_and!; [exact Hfirst | exact Hholds |].
  destruct p as [mo prev cur log]. unfold _fire, fire_if_listens. simpl.
  rewrite Hm, Hmap, Es.
  destruct mo as [over|]; simpl.
  - destruct (Nat.eqb over (marker first)) eqn:Heq; simpl.
    + rewrite Heq. simpl. apply Nat.eqb_eq in Heq. now subst.
    + destruct (listens over "mouseout"); simpl; rewrite Heq;
        destruct (listens (marker first) "mouseover"); reflexivity.
  - destruct (listens (marker first) "mouseover"); reflexivity.
Qed.

Lemma marker_in_view_is_hoverable_witness :
  _map World.loaded = Some World.view /\
  exists s' b,
    redraw true World.loaded = (Ok tt, s') /\ b ∈ _markersTree s' /\
    _mouseOverMarker
      (_fire Scene.all_ears (mkMouseEvent mousemove (mkPoint 20 180)) s' (new_Pointer "")) =
      Some (marker b).
Proof.
  split; [reflexivity|].
  destruct (marker_in_view_is_hoverable World.loaded World.view (mkBox 10 10 10 10 0%nat)
              Scene.all_ears (new_Pointer ""))
    as (s' & E & b & Hb & _ & Hover).
  - reflexivity.
  - reflexivity.
  - repeat constructor.
  - left. reflexivity.
  - reflexivity.
  - exists s', b. split_and!; [exact E | exact Hb | exact Hover].
Defined.

(** A request for a marker whose icon is loaded paints the marker at the
    place of the request and leaves the cache as it is. *)
Lemma _drawMarker_loaded r x y s :
  _ctx s = true -> drawable (heap s r) = true -> icon_loaded s (heap s r) = true ->
  exists s',
    _drawMarker r x y s = (Ok tt, s') /\ _icons s' = _icons s /\
    positions (trace s') = positions (trace s) ++ [(x, y)] /\
    length (drawn (trace s')) = S (length (drawn (trace s))) /\
    fetched (trace s') = fetched (trace s).
Proof.
  intros Hctx Hd Hl. unfold icon_loaded in Hl.
  destruct (iconUrl_of (heap s r)) as [url|] eqn:Hurl; [|discriminate].
  destruct (_icons s !! url) as [e|] eqn:Hicon; [|discriminate].
  apply andb_true_iff in Hl as [Hlo Her]. apply negb_true_iff in Her.
  unfold _drawMarker, bind, gets; simpl. rewrite Hurl, Hicon. simpl. rewrite Her.
  destruct (image (heap s r)) as [i|] eqn:Himg.
  - destruct (_drawImage_returns r x y s Hctx (drawable_image_paintable _ _ Hd Himg))
      as (s' & E & P & Hpos & Hdr & Hf & _).
    exists s'. destruct (painted_fields s s' P) as (_ & Hic & _).
    rewrite Himg in Hdr. split_and!; auto.
    rewrite Hdr, length_app. simpl. lia.
  - unfold set_image, bind, modify; simpl. rewrite Hlo.
    match goal with |- context [_drawImage r x y ?s1] =>
      destruct (_drawImage_returns r x y s1) as (s' & E & P & Hpos & Hdr & Hf & _) end.
    { exact Hctx. }
    { simpl. rewrite update_marker_eq. now apply drawable_paintable. }
    exists s'. destruct (painted_fields _ s' P) as (_ & Hic & _).
    simpl in Hdr. rewrite update_marker_eq in Hdr. simpl in Hdr.
    split_and!; auto.
    rewrite Hdr, length_app. simpl. lia.
Qed.

Lemma icon_loaded_frame s s' m m' :
  _icons s' = _icons s -> same_but_image m m' -> icon_loaded s' m' = icon_loaded s m.
Proof.
  intros Hic (_ & _ & Ho & _). unfold icon_loaded, iconUrl_of. now rewrite Hic, Ho.
Qed.

Lemma redraw_loop_paints map found : forall markers s,
  _ctx s = true ->
  Forall (fun entry => drawable (heap s (marker entry)) = true /\
                       icon_loaded s (heap s (marker entry)) = true) found ->
  exists bs s',
    redraw_loop map found markers s = (Ok bs, s') /\ _icons s' = _icons s /\
    positions (trace s') =
      positions (trace s) ++
      List.map (fun entry => projected map (heap s (marker entry))) found /\
    length (drawn (trace s')) = (length (drawn (trace s)) + length found)%nat /\
    fetched (trace s') = fetched (trace s).
Proof.
  induction found as [|entry rest IH]; intros markers s Hctx Hall.
  - exists markers, s. simpl. rewrite app_nil_r, Nat.add_0_r. now split_and!.
  - inversion Hall as [|? ? [Hd Hl] Hrest]; subst.
    set (p := latLngToContainerPoint map (getLatLng (heap s (marker entry)))).
    destruct (_drawMarker_loaded (marker entry) (px p) (py p) s Hctx Hd Hl)
      as (s1 & E1 & Hic1 & Hpos1 & Hdr1 & Hf1).
    pose proof (_drawMarker_frame (marker entry) (px p) (py p) s) as Hfr.
    rewrite E1 in Hfr. simpl in Hfr. destruct Hfr as (_ & _ & _ & Hc & _ & _ & Hh).
    unfold drawable in Hd.
    destruct (icon (options (heap s (marker entry)))) as [io|] eqn:Hicon; [|discriminate].
    destruct (iconUrl io); [|discriminate].
    destruct (iconSize io) as [size|] eqn:Hsize; [|discriminate].
    destruct (iconAnchor io) as [anchor|] eqn:Hanchor; [|discriminate].
    destruct (IH (markers ++ [markerBox_of p anchor size (marker entry)]) s1)
      as (bs & s' & E & Hic & Hpos & Hdr & Hf).
    { congruence. }
    { eapply Forall_impl; [exact Hrest|]. intros e [He1 He2]. simpl in He1, He2.
      rewrite (same_but_image_drawable _ _ (Hh (marker e))).
      now rewrite (icon_loaded_frame s s1 (heap s (marker e)) (heap s1 (marker e)) Hic1 (Hh _)). }
    exists bs, s'. split_and!.
    + cbn [redraw_loop]. unfold bind at 1, gets at 1. cbv zeta.
      rewrite Hicon, Hsize, Hanchor. fold p. eapply bind_then; [exact E1 | exact E].
    + congruence.
    + rewrite Hpos, Hpos1. cbn [List.map]. rewrite <- app_assoc. simpl. do 2 f_equal.
      apply map_ext. intros e. unfold projected, getLatLng.
      destruct (Hh (marker e)) as (_ & -> & _). reflexivity.
    + rewrite Hdr, Hdr1. simpl. lia.
    + congruence.
Qed.

(** X6.  Once the icons of the markers in view are loaded, [redraw(true)]
    paints every entry of the position index in view once, in the order of
    the index, at the pixel the current view projects its marker to; it
    fetches nothing and leaves the icon cache as it is. *)
Theorem redraw_paints_loaded_markers (s : State) (map : Map) :
  _map s = Some map -> _ctx s = true ->
  Forall (fun entry => drawable (heap s (marker entry)) = true /\
                       icon_loaded s (heap s (marker entry)) = true)
         (in_view map (_positionsTree s)) ->
  exists s',
    redraw true s = (Ok tt, s') /\
    positions (trace s') =
      positions (trace s) ++
      List.map (fun entry => projected map (heap s (marker entry)))
               (in_view map (_positionsTree s)) /\
    length (drawn (trace s')) =
      (length (drawn (trace s)) + length (in_view map (_positionsTree s)))%nat /\
    fetched (trace s') = fetched (trace s) /\
    _icons s' = _icons s.
Proof.
  intros Hmap Hctx Hall.
  unfold redraw, bind, gets; simpl. rewrite Hmap.
  destruct (_canvas s) as [[w h]|]; rewrite ?Hctx; simpl;
    match goal with |- context [redraw_loop ?m ?f ?a ?s1] =>
      destruct (redraw_loop_paints m f a s1 Hctx Hall)
        as (bs & s2 & E & Hic & Hpos & Hdr & Hf);
      rewrite E
    end;
    simpl; (eexists; split; [reflexivity|]); simpl; simpl in Hic, Hpos, Hdr, Hf;
    rewrite Hpos, Hdr, Hf, Hic;
    unfold positions, drawn, fetched; rewrite ?omap_app; simpl; rewrite ?app_nil_r;
    now split_and!.
Qed.

Lemma redraw_paints_loaded_markers_witness :
  _map Scene.redrawn = Some World.view /\
  exists s',
    redraw true Scene.redrawn = (Ok tt, s') /\
    positions (trace s') = positions (trace Scene.redrawn) ++ [(20, 180); (40, 160)].
Proof.
  split; [reflexivity|].
  destruct (redraw_paints_loaded_markers Scene.redrawn World.view)
    as (s' & E & Hpos & _).
  - reflexivity.
  - reflexivity.
  - repeat constructor.
  - exists s'. split; [exact E|]. rewrite Hpos. reflexivity.
Defined.

(** ** Clearing, bounds, and the layer without a map *)

(** X7.  [clear()] always returns: it empties the registry and both
    indexes, clears the canvas once when the layer has a map, a canvas and
    a context, and does nothing else; the icon cache and the marker objects,
    with their image handles and identities, are kept. *)
Theorem clear_empties_the_layer (s : State) :
  exists s',
    clear s = (Ok tt, s') /\
    getAllMarkers s' = ∅ /\ _positionsTree s' = [] /\ _markersTree s' = [] /\
    layer_getBounds s' = None /\
    _icons s' = _icons s /\ heap s' = heap s /\
    trace s' =
      trace s ++
      match _map s, _canvas s, _ctx s with
      | Some _, Some (w, h), true => [Canvas (ClearRect 0 0 w h)]
      | _, _, _ => []
      end.
Proof.
  unfold clear, redraw, bind, gets, modify, canvas, when, ret; simpl.
  destruct (_map s); simpl;
    [destruct (_canvas s) as [[w h]|]; simpl; [destruct (_ctx s); simpl|]|];
    (eexists; split; [reflexivity|]); simpl; rewrite ?app_nil_r; split_and!; reflexivity.
Qed.

Lemma extend_some b p : exists b', extend b p = Some b'.
Proof. destruct b; simpl; eauto. Qed.

Lemma extend_touched (P : LatLng -> Prop) b p :
  P p -> (forall b0, b = Some b0 -> touched P b0) ->
  exists b', extend b p = Some b' /\ touched P b'.
Proof.
  intros Hp Hb. destruct b as [b0|]; simpl.
  - eexists. split; [reflexivity|].
    destruct (Hb b0 eq_refl) as ((ps & Hps & Es) & (pn & Hpn & En) & (pw & Hpw & Ew)
                                 & (pe & Hpe & Ee)).
    unfold touched, getSouth, getNorth, getWest, getEast in *. simpl. split_and!.
    + destruct (Z.min_spec (lat p) (lat (_southWest b0))) as [[_ ->]|[_ ->]]; eauto.
    + destruct (Z.max_spec (lat p) (lat (_northEast b0))) as [[_ ->]|[_ ->]]; eauto.
    + destruct (Z.min_spec (lng p) (lng (_southWest b0))) as [[_ ->]|[_ ->]]; eauto.
    + destruct (Z.max_spec (lng p) (lng (_northEast b0))) as [[_ ->]|[_ ->]]; eauto.
  - eexists. split; [reflexivity|]. unfold touched. simpl. split_and!; eauto.
Qed.

Lemma fold_extend_touched (P : LatLng -> Prop) (h : MarkerRef -> Marker)
      (l : list (nat * MarkerRef)) : forall b,
  (forall kv, In kv l -> P (getLatLng (h (snd kv)))) ->
  (forall b0, b = Some b0 -> touched P b0) ->
  forall b', fold_left (fun b kv => extend b (getLatLng (h (snd kv)))) l b = Some b' ->
             touched P b'.
Proof.
  induction l as [|kv l IH]; intros b Hl Hb b' E; simpl in E.
  - now apply Hb.
  - destruct (extend_touched P b (getLatLng (h (snd kv)))) as (b1 & E1 & T1).
    + apply Hl. now left.
    + exact Hb.
    + rewrite E1 in E. apply (IH (Some b1)); auto.
      * intros kv' Hin. apply Hl. now right.
      * intros b0 [= <-]. exact T1.
Qed.

(** X8.  [getBounds()] has no corners exactly when no marker is
    registered; otherwise the bounds enclose every registered marker and
    are the smallest that do: each of the four sides goes through a
    registered marker. *)
Theorem getBounds_is_tight (s : State) :
  (layer_getBounds s = None <-> getAllMarkers s = ∅) /\
  (forall b, layer_getBounds s = Some b ->
     (forall k r, getAllMarkers s !! k = Some r ->
                  contains b (getLatLng (heap s r)) = true) /\
     touched (registered_at s) b).
Proof.
  unfold getAllMarkers, registered_at. split; [split|].
  - intros Hnone. apply map_empty. intros k.
    destruct (_layers s !! k) as [r|] eqn:E; [|reflexivity].
    destruct (layer_getBounds_contains s k r E) as (b & Hb & _). congruence.
  - intros Hempty. unfold layer_getBounds. rewrite Hempty, lookup_empty, map_to_list_empty.
    reflexivity.
  - intros b Hb. split.
    + intros k r Hk. destruct (layer_getBounds_contains s k r Hk) as (b' & Hb' & Hc).
      congruence.
    + unfold layer_getBounds in Hb.
      eapply (fold_extend_touched _ (heap s)); [| |exact Hb].
      * intros [k r] Hin. apply list_elem_of_In, elem_of_map_to_list in Hin.
        exists k, r. now split.
      * intros b0 E0. destruct (_layers s !! 0%nat) as [r0|] eqn:H0; simpl in E0;
          [|discriminate].
        injection E0 as <-. unfold touched, getSouth, getNorth, getWest, getEast. simpl.
        rewrite !Z.min_id, !Z.max_id.
        split_and!; exists (getLatLng (heap s r0)); (split; [|reflexivity]);
          exists 0%nat, r0; now split.
Qed.

Lemma getBounds_is_tight_witness :
  exists b, layer_getBounds World.loaded = Some b /\
            touched (registered_at World.loaded) b.
Proof.
  destruct (layer_getBounds World.loaded) as [b|] eqn:E.
  - exists b. split; [reflexivity|].
    exact (proj2 (proj2 (getBounds_is_tight World.loaded) b E)).
  - vm_compute in E. discriminate E.
Defined.

(** ** The layer without a map *)

Lemma state_eta s :
  set_positionsTree (_positionsTree s ++ []) (set_markersTree (_markersTree s ++ []) s) = s.
Proof. destruct s. simpl. unfold set_positionsTree, set_markersTree. simpl.
       now rewrite !app_nil_r. Qed.

Lemma addMarkers_loop_detached rs : forall s mbs pbs,
  _map s = None ->
  exists t,
    addMarkers_loop rs mbs pbs s = (Ok (mbs, pbs), set_trace (trace s ++ t) s) /\
    Forall (fun e => e = ConsoleError "This is not a marker") t.
Proof.
  induction rs as [|r rs IH]; intros s mbs pbs Hmap.
  - exists []. simpl. rewrite app_nil_r. split; [|constructor].
    unfold ret. f_equal. now destruct s.
  - assert (Hadd : exists t, addMarker r s = (Ok no_result, set_trace (trace s ++ t) s) /\
                             Forall (fun e => e = ConsoleError "This is not a marker") t).
    { unfold addMarker, bind, gets, console_error, emit, modify, ret; simpl.
      destruct (icon (options (heap s r))).
      - destruct (negb (String.eqb (pane (options (heap s r))) "markerPane")); simpl.
        + eexists. split; [reflexivity|]. repeat constructor.
        + rewrite Hmap. exists []. rewrite app_nil_r. split; [|constructor].
          f_equal. now destruct s.
      - eexists. split; [reflexivity|]. repeat constructor. }
    destruct Hadd as (t1 & E1 & Ht1).
    destruct (IH (set_trace (trace s ++ t1) s) mbs pbs Hmap) as (t2 & E2 & Ht2).
    exists (t1 ++ t2). split.
    + cbn [addMarkers_loop]. eapply bind_then; [exact E1|]. simpl. rewrite E2.
      simpl. now rewrite <- app_assoc.
    + now apply Forall_app.
Qed.

(** X9.  A layer without a map ignores its callers: [addMarkers] returns
    without registering, indexing, fetching or drawing anything, and all
    it may leave behind are console errors [This is not a marker];
    [removeMarker], [removeMarkers] and [redraw] return and change
    nothing. *)
Theorem detached_layer_ignores_calls (s : State) :
  _map s = None ->
  (forall rs, exists t,
      addMarkers rs s = (Ok tt, set_trace (trace s ++ t) s) /\
      Forall (fun e => e = ConsoleError "This is not a marker") t) /\
  (forall r, removeMarker r s = (Ok tt, s)) /\
  (forall rs, removeMarkers rs s = (Ok tt, s)) /\
  (forall c, redraw c s = (Ok tt, s)).
Proof.
  intros Hmap. split_and!.
  - intros rs. destruct (addMarkers_loop_detached rs s [] [] Hmap) as (t & E & Ht).
    exists t. split; [|exact Ht].
    unfold addMarkers. eapply bind_then; [exact E|].
    unfold bind, modify, RBush.load; simpl. f_equal.
    apply (state_eta (set_trace (trace s ++ t) s)).
  - intros r. unfold removeMarker, bind, gets; simpl. now rewrite Hmap.
  - intros rs. unfold removeMarkers, bind, gets; simpl. now rewrite Hmap.
  - intros c. unfold redraw, bind, gets; simpl. now rewrite Hmap.
Qed.

Lemma detached_layer_ignores_calls_witness :
  _map (new_CanvasLayer None None World.markers) = None /\
  removeMarker 0%nat (new_CanvasLayer None None World.markers) =
    (Ok tt, new_CanvasLayer None None World.markers).
Proof.
  split; [reflexivity|].
  apply (detached_layer_ignores_calls (new_CanvasLayer None None World.markers)).
  reflexivity.
Defined.

Example markers_added_before_the_map_are_lost :
  let s := run [Call_addMarkers [0; 1; 4]%nat; Call_onAdd World.view; Call_redraw true]
               (new_CanvasLayer None None World.markers) in
  size (getAllMarkers s) = 0%nat /\ _positionsTree s = [] /\
  reported (trace s) = ["This is not a marker"%string].
Proof. vm_compute. split_and!; reflexivity. Qed.

(** ** Adding markers, again *)

Lemma _drawMarker_markersTree r x y : preserves (kept _markersTree) (_drawMarker r x y).
Proof.
  unfold _drawMarker, _drawImage, new_Image, set_image, push_element. kept_tac.
Qed.

(** The identity [L.Util.stamp] gives a marker in a state. *)
Lemma addMarker_accepts s r map :
  _map s = Some map -> _ctx s = true ->
  requestable (heap s r) = true -> pane (options (heap s r)) = "markerPane"%string ->
  exists mb s',
    addMarker r s =
      (Ok (mkAddResult (Some mb) (Some (positionBox_of (getLatLng (heap s r)) r))
                       (Some (contains (getBounds map) (getLatLng (heap s r))))),
       s') /\
    mb = screen_box map (heap s) (positionBox_of (getLatLng (heap s r)) r) /\
    _layers s' = <[default (S (lastId s)) (_leaflet_id (heap s r)) := r]> (_layers s) /\
    _leaflet_id (heap s' r) = Some (default (S (lastId s)) (_leaflet_id (heap s r))) /\
    lastId s' = match _leaflet_id (heap s r) with
                | Some _ => lastId s
                | None => S (lastId s)
                end /\
    _positionsTree s' = _positionsTree s /\ _markersTree s' = _markersTree s /\
    _map s' = _map s /\ _ctx s' = _ctx s /\
    _latlng (heap s' r) = _latlng (heap s r) /\
    options (heap s' r) = options (heap s r) /\
    (forall r', r' <> r -> same_but_image (heap s r') (heap s' r')).
Proof.
  intros Hmap Hctx Hq Hpane. pose proof (requestable_drawable _ Hq) as Hd.
  assert (Hbox : forall io size anchor,
             icon (options (heap s r)) = Some io -> iconSize io = Some size ->
             iconAnchor io = Some anchor ->
             markerBox_of (latLngToContainerPoint map (getLatLng (heap s r))) anchor size r =
             screen_box map (heap s) (positionBox_of (getLatLng (heap s r)) r)).
  { intros io size anchor Hi Hs Ha. unfold screen_box. simpl. now rewrite Hi; simpl; rewrite Hs, Ha. }
  pose proof Hd as Hd0. unfold drawable in Hd0.
  destruct (icon (options (heap s r))) as [io|] eqn:Hicon; [|discriminate].
  destruct (iconUrl io) as [url|] eqn:Hu; [|discriminate].
  destruct (iconSize io) as [size|] eqn:Hsize; [|discriminate].
  destruct (iconAnchor io) as [anchor|] eqn:Hanchor; [|discriminate]. clear Hd0.
  specialize (Hbox io size anchor eq_refl Hsize Hanchor).
  apply String.eqb_eq in Hpane.
  unfold addMarker, bind, gets, stamp, modify, ret, when; simpl.
  rewrite Hicon, Hpane. simpl. rewrite Hmap. unfold bind, gets, modify, ret; simpl.
  rewrite update_marker_eq. simpl.
  destruct (_leaflet_id (heap s r)) as [i|] eqn:Hid; simpl; rewrite Hanchor, Hsize.
  - set (h1 := update_marker r with_map (heap s)).
    assert (Hh1 : forall r', r' <> r -> h1 r' = heap s r').
    { intros r' Hne. subst h1. now rewrite update_marker_ne by exact Hne. }
    assert (Hr1 : h1 r = with_map (heap s r)) by (subst h1; apply update_marker_eq).
    assert (Hd1 : requestable (h1 r) = true) by (rewrite Hr1; exact Hq).
    destruct (contains (getBounds map) (getLatLng (heap s r))).
    + match goal with |- context [_drawMarker r ?x ?y ?s1] =>
        destruct (_drawMarker_returns r x y s1 Hctx Hd1) as (s2 & E);
        pose proof (_drawMarker_frame r x y s1) as Hfr;
        pose proof (_drawMarker_markersTree r x y s1) as Hmt;
        rewrite E in Hfr, Hmt; rewrite E
      end.
      destruct Hfr as (Hl & Hp & Hm & Hc & _ & Hli & Hh). unfold kept in Hmt. simpl in *.
      do 2 eexists. split; [reflexivity|]. simpl.
      destruct (Hh r) as (Hi2 & Hl2 & Ho2 & _). rewrite Hr1 in Hi2, Hl2, Ho2. simpl in *.
      split_and!; try congruence.
      intros r' Hne. rewrite <- (Hh1 r' Hne). apply Hh.
    + do 2 eexists. split; [reflexivity|]. simpl. rewrite Hr1. simpl.
      split_and!; try congruence.
      intros r' Hne. rewrite (Hh1 r' Hne). apply same_but_image_refl.
  - set (h1 := update_marker r (with_id (S (lastId s))) (update_marker r with_map (heap s))).
    assert (Hh1 : forall r', r' <> r -> h1 r' = heap s r').
    { intros r' Hne. subst h1. now rewrite !update_marker_ne by exact Hne. }
    assert (Hr1 : h1 r = with_id (S (lastId s)) (with_map (heap s r))).
    { subst h1. now rewrite !update_marker_eq. }
    assert (Hd1 : requestable (h1 r) = true) by (rewrite Hr1; exact Hq).
    destruct (contains (getBounds map) (getLatLng (heap s r))).
    + match goal with |- context [_drawMarker r ?x ?y ?s1] =>
        destruct (_drawMarker_returns r x y s1 Hctx Hd1) as (s2 & E);
        pose proof (_drawMarker_frame r x y s1) as Hfr;
        pose proof (_drawMarker_markersTree r x y s1) as Hmt;
        rewrite E in Hfr, Hmt; rewrite E
      end.
      destruct Hfr as (Hl & Hp & Hm & Hc & _ & Hli & Hh). unfold kept in Hmt. simpl in *.
      do 2 eexists. split; [reflexivity|]. simpl.
      destruct (Hh r) as (Hi2 & Hl2 & Ho2 & _). rewrite Hr1 in Hi2, Hl2, Ho2. simpl in *.
      split_and!; try congruence.
      intros r' Hne. rewrite <- (Hh1 r' Hne). apply Hh.
    + do 2 eexists. split; [reflexivity|]. simpl. rewrite Hr1. simpl.
      split_and!; try congruence.
      intros r' Hne. rewrite (Hh1 r' Hne). apply same_but_image_refl.
Qed.

Lemma screen_box_at map h h' entry :
  same_but_image (h (marker entry)) (h' (marker entry)) ->
  screen_box map h' entry = screen_box map h entry.
Proof.
  intros (_ & Hl & Ho & _). unfold screen_box, getLatLng. now rewrite Hl, Ho.
Qed.

Lemma in_view_cons map b tree :
  in_view map (b :: tree) =
  if RBush.intersects (mapBoundsBox_of (getBounds map)) b
  then b :: in_view map tree else in_view map tree.
Proof. reflexivity. Qed.

Lemma in_view_markers map (f : MarkerRef -> RBushBox) rs e :
  (forall r, marker (f r) = r) -> In e (in_view map (List.map f rs)) -> In (marker e) rs.
Proof.
  intros Hf Hin. unfold in_view, RBush.search in Hin. apply filter_In in Hin as [Hin _].
  apply in_map_iff in Hin as (r & <- & Hr). now rewrite Hf.
Qed.

(** The loop of [addMarkers] over distinct markers that the layer accepts
    for the first time. *)
Lemma addMarkers_loop_accepts map rs : forall s mbs pbs,
  _map s = Some map -> _ctx s = true -> ids_bounded s -> NoDup rs ->
  Forall (fun r => addable (heap s r)) rs ->
  exists s',
    addMarkers_loop rs mbs pbs s =
      (Ok (mbs ++ List.map (screen_box map (heap s))
                           (in_view map
                              (List.map (fun r => positionBox_of (getLatLng (heap s r)) r) rs)),
           pbs ++ List.map (fun r => positionBox_of (getLatLng (heap s r)) r) rs),
       s') /\
    _positionsTree s' = _positionsTree s /\ _markersTree s' = _markersTree s /\
    size (_layers s') = (size (_layers s) + length rs)%nat /\
    (forall k r0, _layers s !! k = Some r0 -> _layers s' !! k = Some r0) /\
    (forall r, r ∈ rs -> exists k, _layers s' !! k = Some r /\
                                   _leaflet_id (heap s' r) = Some k) /\
    (forall r', r' ∉ rs -> same_but_image (heap s r') (heap s' r')).
Proof.
  induction rs as [|r rs IH]; intros s mbs pbs Hmap Hctx Hb Hnd Hall.
  - exists s. simpl. rewrite !app_nil_r, Nat.add_0_r. split_and!; auto.
    + intros r Hr. inversion Hr.
    + intros r' _. apply same_but_image_refl.
  - inversion Hall as [|? ? (Hd & Hpane & Hid) Hrest]; subst.
    apply NoDup_cons in Hnd as [Hnotin Hnd].
    destruct (addMarker_accepts s r map Hmap Hctx Hd Hpane)
      as (mb & s1 & E1 & Hmb & Hl1 & Hi1 & Hli1 & Hp1 & Hm1 & Hmap1 & Hc1 & Hll1 & Ho1 & Hh1).
    rewrite Hid in Hl1, Hi1, Hli1. simpl in Hl1, Hi1.
    assert (Hfree : _layers s !! S (lastId s) = None).
    { destruct (_layers s !! S (lastId s)) as [r0|] eqn:E; [|reflexivity].
      apply Hb in E. lia. }
    assert (Hsame : forall r', r' ∈ rs -> same_but_image (heap s r') (heap s1 r')).
    { intros r' Hr'. apply Hh1. intros ->. contradiction. }
    set (vis := contains (getBounds map) (getLatLng (heap s r))) in *.
    set (pb := positionBox_of (getLatLng (heap s r)) r) in *.
    destruct (IH s1 (if vis then mbs ++ [mb] else mbs) (pbs ++ [pb]))
      as (s' & E & Hp & Hm & Hsize & Hold & Hnew & Hout).
    { congruence. }
    { congruence. }
    { intros k r0. rewrite Hl1, Hli1, lookup_insert. case_decide.
      - intros _. lia.
      - intros H0. apply Hb in H0. lia. }
    { exact Hnd. }
    { rewrite Forall_forall in Hrest |- *. intros r' Hr'.
      apply (same_but_image_addable (heap s r')); [now apply Hsame | now apply Hrest]. }
    assert (Hpbs : List.map (fun r0 => positionBox_of (getLatLng (heap s1 r0)) r0) rs =
                   List.map (fun r0 => positionBox_of (getLatLng (heap s r0)) r0) rs).
    { apply map_ext_in. intros r' Hr'. apply list_elem_of_In in Hr'.
      destruct (Hsame r' Hr') as (_ & Hl & _). unfold getLatLng. now rewrite Hl. }
    exists s'. split_and!.
    + cbn [addMarkers_loop]. eapply bind_then; [exact E1|]. cbn [markerBox positionBox isVisible].
      fold vis. fold pb. rewrite E. rewrite Hpbs. f_equal. f_equal. f_equal.
      * cbn [List.map]. fold pb. rewrite in_view_cons.
        unfold pb at 1. rewrite intersects_position. fold vis.
        assert (Hsb : List.map (screen_box map (heap s1))
                        (in_view map
                           (List.map (fun r0 => positionBox_of (getLatLng (heap s r0)) r0) rs)) =
                      List.map (screen_box map (heap s))
                        (in_view map
                           (List.map (fun r0 => positionBox_of (getLatLng (heap s r0)) r0) rs))).
        { apply map_ext_in. intros e He. apply screen_box_at, Hsame.
          apply list_elem_of_In.
          apply (in_view_markers map
                   (fun r0 => positionBox_of (getLatLng (heap s r0)) r0) rs e);
            [reflexivity | exact He]. }
        rewrite Hsb. destruct vis; cbn [List.map]; rewrite <- ?app_assoc, <- ?Hmb; reflexivity.
      * cbn [List.map]. fold pb. now rewrite <- app_assoc.
    + congruence.
    + congruence.
    + rewrite Hsize, Hl1, map_size_insert_None by exact Hfree. simpl. lia.
    + intros k r0 H0. apply Hold. rewrite Hl1, lookup_insert_ne; [exact H0|].
      apply Hb in H0. lia.
    + intros r' Hr'. apply elem_of_cons in Hr' as [->|Hr'].
      * exists (S (lastId s)). split.
        -- apply Hold. rewrite Hl1. apply lookup_insert_eq.
        -- destruct (Hout r Hnotin) as (-> & _). exact Hi1.
      * now apply Hnew.
    + intros r' Hr'. apply not_elem_of_cons in Hr' as [Hne Hr'].
      eapply same_but_image_trans; [apply Hh1, Hne | apply Hout, Hr'].
Qed.

(** X10.  One [addMarkers] of distinct markers that an attached layer
    accepts for the first time (of the marker pane, not stamped, with a
    full icon whose url names no property of [Object.prototype]) returns,
    registers every marker under the
    identity it has stamped it with and keeps the markers registered before;
    it appends to the position index one point box per marker, at the
    position of the marker and in the order of the call, and to the screen
    index the screen boxes of those of the markers that are in view. *)
Theorem addMarkers_registers_and_indexes (s : State) (map : Map) (rs : list MarkerRef) :
  _map s = Some map -> _ctx s = true -> ids_bounded s -> NoDup rs ->
  Forall (fun r => addable (heap s r)) rs ->
  exists s',
    addMarkers rs s = (Ok tt, s') /\
    _positionsTree s' =
      _positionsTree s ++ List.map (fun r => positionBox_of (getLatLng (heap s r)) r) rs /\
    _markersTree s' =
      _markersTree s ++
      List.map (screen_box map (heap s))
               (in_view map (List.map (fun r => positionBox_of (getLatLng (heap s r)) r) rs)) /\
    size (getAllMarkers s') = (size (getAllMarkers s) + length rs)%nat /\
    (forall k r0, getAllMarkers s !! k = Some r0 -> getAllMarkers s' !! k = Some r0) /\
    (forall r, r ∈ rs -> exists k, getAllMarkers s' !! k = Some r /\
                                   _leaflet_id (heap s' r) = Some k).
Proof.
  intros Hmap Hctx Hb Hnd Hall.
  destruct (addMarkers_loop_accepts map rs s [] [] Hmap Hctx Hb Hnd Hall)
    as (s1 & E & Hp & Hm & Hsize & Hold & Hnew & _).
  unfold addMarkers. eexists. split.
  - eapply bind_then; [exact E|]. reflexivity.
  - simpl. unfold RBush.load, getAllMarkers. rewrite Hp, Hm. now split_and!.
Qed.

Lemma addMarkers_registers_and_indexes_witness :
  _map World.attached = Some World.view /\
  exists s',
    addMarkers [0; 1; 2]%nat World.attached = (Ok tt, s') /\
    _positionsTree s' =
      [mkBox 10 10 10 10 0%nat; mkBox 20 20 20 20 1%nat; mkBox 500 500 500 500 2%nat] /\
    _markersTree s' = [mkBox 4 164 36 196 0%nat; mkBox 24 144 56 176 1%nat].
Proof.
  split; [reflexivity|].
  destruct (addMarkers_registers_and_indexes World.attached World.view [0; 1; 2]%nat)
    as (s' & E & Hp & Hm & _).
  - reflexivity.
  - reflexivity.
  - intros k r H. vm_compute in H. discriminate.
  - apply (bool_decide_unpack _). vm_compute. exact I.
  - repeat constructor.
  - exists s'. split_and!; [exact E | rewrite Hp; reflexivity | rewrite Hm; reflexivity].
Defined.

(** [addMarkers] of one marker that the layer accepts. *)
Lemma addMarkers_one s r map :
  _map s = Some map -> _ctx s = true ->
  requestable (heap s r) = true -> pane (options (heap s r)) = "markerPane"%string ->
  exists s1 mbs,
    addMarkers [r] s =
      (Ok tt,
       set_positionsTree (_positionsTree s ++ [positionBox_of (getLatLng (heap s r)) r])
         (set_markersTree (_markersTree s ++ mbs) s1)) /\
    _layers s1 = <[default (S (lastId s)) (_leaflet_id (heap s r)) := r]> (_layers s) /\
    _leaflet_id (heap s1 r) = Some (default (S (lastId s)) (_leaflet_id (heap s r))) /\
    _map s1 = _map s /\
    _latlng (heap s1 r) = _latlng (heap s r) /\
    (forall r', r' <> r -> same_but_image (heap s r') (heap s1 r')).
Proof.
  intros Hmap Hctx Hd Hpane.
  destruct (addMarker_accepts s r map Hmap Hctx Hd Hpane)
    as (mb & s1 & E1 & _ & Hl1 & Hi1 & _ & Hp1 & Hm1 & Hmap1 & _ & Hll1 & _ & Hh1).
  exists s1, (if contains (getBounds map) (getLatLng (heap s r)) then [mb] else []).
  split_and!; auto.
  unfold addMarkers. cbn [addMarkers_loop]. unfold bind at 1. unfold bind at 1.
  rewrite E1. cbn [markerBox positionBox isVisible]. unfold ret, bind, modify, RBush.load.
  simpl. rewrite Hp1, Hm1.
  destruct (contains (getBounds map) (getLatLng (heap s r))); reflexivity.
Qed.

Lemma remove_last item (eq : RBushBox -> RBushBox -> bool) l x :
  (forall b, In b l -> eq item b = false) -> eq item x = true ->
  RBush.remove item eq (l ++ [x]) = l.
Proof.
  intros Hl Hx. induction l as [|b l IH]; simpl.
  - now rewrite Hx.
  - rewrite (Hl b) by now left. f_equal. apply IH. intros b' Hb'. apply Hl. now right.
Qed.

(** X11.  Adding a marker and removing it brings the position index back
    to what it was, and leaves the marker in the registry: on an attached
    layer, for a marker the layer accepts for the first time (of the
    marker pane, not stamped, with a full icon whose url names no property
    of [Object.prototype]) and that the index does not hold, where the
    identities in use are those that [L.Util.stamp] has handed out. *)
Theorem add_then_remove_restores_index (s : State) (map : Map) (r : MarkerRef) :
  _map s = Some map -> _ctx s = true -> ids_bounded s -> addable (heap s r) ->
  (forall b, b ∈ _positionsTree s -> marker b <> r) ->
  (forall r' i, _leaflet_id (heap s r') = Some i -> (i <= lastId s)%nat) ->
  let s2 := run [Call_addMarkers [r]; Call_removeMarker r] s in
  _positionsTree s2 = _positionsTree s /\
  size (getAllMarkers s2) = S (size (getAllMarkers s)) /\
  getAllMarkers s2 !! S (lastId s) = Some r.
Proof.
  intros Hmap Hctx Hb (Hd & Hpane & Hid) Hnew Hstamped.
  destruct (addMarkers_one s r map Hmap Hctx Hd Hpane)
    as (s1 & mbs & E & Hl1 & Hi1 & Hmap1 & Hll1 & Hh1).
  rewrite Hid in Hl1, Hi1. simpl in Hl1, Hi1.
  cbv zeta. unfold run. cbn [fold_left call]. rewrite E. cbn [snd].
  set (s1' := set_positionsTree _ _).
  assert (Hfree : _layers s !! S (lastId s) = None).
  { destruct (_layers s !! S (lastId s)) as [r0|] eqn:E0; [|reflexivity].
    apply Hb in E0. lia. }
  pose proof (removeMarker_registry r s1') as [Hl2 _].
  split_and!.
  - rewrite removeMarker_positionsTree. subst s1'. simpl. rewrite Hmap1, Hmap.
    apply remove_last.
    + intros b Hin. apply list_elem_of_In in Hin.
      unfold same_leaflet_id. simpl. rewrite Hi1.
      apply bool_decide_eq_false. intros Heq.
      destruct (Hh1 (marker b) (Hnew b Hin)) as (Hsame & _).
      rewrite Hsame in Heq. symmetry in Heq. apply Hstamped in Heq. lia.
    + unfold same_leaflet_id. simpl. now apply bool_decide_eq_true.
  - unfold getAllMarkers. rewrite Hl2. subst s1'. simpl. rewrite Hl1.
    now apply map_size_insert_None.
  - unfold getAllMarkers. rewrite Hl2. subst s1'. simpl. rewrite Hl1.
    apply lookup_insert_eq.
Qed.

Lemma add_then_remove_restores_index_witness :
  let s := run [Call_addMarkers [0; 2]%nat] World.attached in
  _positionsTree s = [mkBox 10 10 10 10 0%nat; mkBox 500 500 500 500 2%nat] /\
  _positionsTree (run [Call_addMarkers [1%nat]; Call_removeMarker 1%nat] s) = _positionsTree s /\
  getAllMarkers (run [Call_addMarkers [1%nat]; Call_removeMarker 1%nat] s) !! 3%nat =
    Some 1%nat.
Proof.
  cbv zeta. split; [reflexivity|].
  destruct (add_then_remove_restores_index
              (run [Call_addMarkers [0; 2]%nat] World.attached) World.view 1%nat)
    as (Hp & _ & Hl).
  - reflexivity.
  - reflexivity.
  - intros k r H. apply elem_of_map_to_list in H.
    vm_compute in H. change (k <= 2)%nat.
    repeat (apply elem_of_cons in H as [H|H]; [injection H as -> ->; lia|]).
    inversion H.
  - split_and!; reflexivity.
  - intros b Hb. vm_compute in Hb.
    repeat (apply elem_of_cons in Hb as [->|Hb]; [discriminate|]).
    inversion Hb.
  - intros r' i H. change (i <= 2)%nat.
    do 5 (destruct r' as [|r']; [vm_compute in H; first [discriminate | injection H as <-; lia]|]).
    vm_compute in H. discriminate.
  - split; [exact Hp | exact Hl].
Defined.

Lemma has_id_ext h h' i tree :
  (forall b, In b tree -> _leaflet_id (h' (marker b)) = _leaflet_id (h (marker b))) ->
  List.filter (has_id h' i) tree = List.filter (has_id h i) tree.
Proof.
  intros H. induction tree as [|b tree IH]; [reflexivity|]. cbn [List.filter].
  assert (E : has_id h' i b = has_id h i b).
  { unfold has_id. rewrite (H b) by now left. reflexivity. }
  rewrite E, IH; [reflexivity|]. intros b' Hb'. apply H. now right.
Qed.

(** X12.  Adding again a marker that is registered, of the marker pane
    and with a full icon whose url names no property of
    [Object.prototype], leaves the registry as it is and gives the marker
    one more entry in the position index: the marker then takes as many
    removals as it has been added. *)
Theorem readding_indexes_again (s : State) (map : Map) (r : MarkerRef) (i : nat) :
  _map s = Some map -> _ctx s = true ->
  requestable (heap s r) = true -> pane (options (heap s r)) = "markerPane"%string ->
  _leaflet_id (heap s r) = Some i -> getAllMarkers s !! i = Some r ->
  exists s',
    addMarkers [r] s = (Ok tt, s') /\
    getAllMarkers s' = getAllMarkers s /\
    _positionsTree s' = _positionsTree s ++ [positionBox_of (getLatLng (heap s r)) r] /\
    length (entries_of (heap s') r (_positionsTree s')) =
      S (length (entries_of (heap s) r (_positionsTree s))).
Proof.
  intros Hmap Hctx Hd Hpane Hid Hreg.
  destruct (addMarkers_one s r map Hmap Hctx Hd Hpane)
    as (s1 & mbs & E & Hl1 & Hi1 & Hmap1 & Hll1 & Hh1).
  rewrite Hid in Hl1, Hi1. simpl in Hl1, Hi1.
  eexists. split; [exact E|]. simpl. unfold getAllMarkers in *. split_and!.
  - rewrite Hl1. now apply insert_id.
  - reflexivity.
  - unfold entries_of. rewrite Hi1, Hid.
    assert (Hids : forall r', _leaflet_id (heap s1 r') = _leaflet_id (heap s r')).
    { intros r'. destruct (Nat.eq_dec r' r) as [->|Hne]; [congruence|].
      now destruct (Hh1 r' Hne) as (? & _). }
    rewrite (has_id_ext (heap s) (heap s1)) by (intros; apply Hids).
    rewrite List.filter_app, length_app. simpl.
    unfold has_id at 2. simpl. rewrite Hid. rewrite bool_decide_eq_true_2 by reflexivity.
    simpl. lia.
Qed.

Lemma readding_indexes_again_witness :
  getAllMarkers World.loaded !! 1%nat = Some 0%nat /\
  exists s',
    addMarkers [0%nat] World.loaded = (Ok tt, s') /\
    getAllMarkers s' = getAllMarkers World.loaded /\
    length (_positionsTree s') = 4%nat.
Proof.
  split; [vm_compute; reflexivity|].
  destruct (readding_indexes_again World.loaded World.view 0%nat 1%nat)
    as (s' & E & Hl & Hp & _).
  - reflexivity.
  - reflexivity.
  - reflexivity.
  - reflexivity.
  - vm_compute; reflexivity.
  - vm_compute; reflexivity.
  - exists s'. split_and!; [exact E | exact Hl | rewrite Hp; reflexivity].
Defined.

(** ** Removing several markers *)

#[local] Instance host_kept_preorder : PreOrder host_kept.
Proof.
  split.
  - intros s. now split_and!.
  - intros s1 s2 s3 (?&?&?) (?&?&?). unfold host_kept. split_and!; congruence.
Qed.

Create HintDb host.

Ltac host_tac :=
  unfold emit, canvas, console_error, ctx, the_map, halo_colour, new_Image, set_image,
    push_element, remove_position;
  repeat first
    [ progress cbv zeta
    | preserves_step
    | apply preserves_modify; intros ?; split_and!; reflexivity
    | solve [auto with host] ].

Lemma _drawImage_host r x y : preserves host_kept (_drawImage r x y).
Proof. unfold _drawImage. host_tac. Qed.

#[local] Hint Resolve _drawImage_host : host.

Lemma _drawMarker_host r x y : preserves host_kept (_drawMarker r x y).
Proof. unfold _drawMarker. host_tac. Qed.

#[local] Hint Resolve _drawMarker_host : host.

Lemma redraw_loop_host map found markers :
  preserves host_kept (redraw_loop map found markers).
Proof.
  revert markers. induction found as [|entry rest IH]; intros markers; simpl; host_tac.
Qed.

#[local] Hint Resolve redraw_loop_host : host.

Lemma redraw_host c : preserves host_kept (redraw c).
Proof. unfold redraw. host_tac. Qed.

#[local] Hint Resolve redraw_host : host.

Lemma removeMarker_host r : preserves host_kept (removeMarker r).
Proof. unfold removeMarker. host_tac. Qed.

Lemma remove_ext item item' (eq eq' : RBushBox -> RBushBox -> bool) tree :
  (forall b, eq item b = eq' item' b) ->
  RBush.remove item eq tree = RBush.remove item' eq' tree.
Proof.
  intros H. induction tree as [|b tree IH]; simpl; [reflexivity|].
  rewrite H. now rewrite IH.
Qed.

Lemma remove_position_same h h' r tree :
  (forall r', same_but_image (h r') (h' r')) ->
  RBush.remove (positionBox_of (getLatLng (h' r)) r) (same_leaflet_id h') tree =
  RBush.remove (positionBox_of (getLatLng (h r)) r) (same_leaflet_id h) tree.
Proof.
  intros H. apply remove_ext. intros b. unfold same_leaflet_id. simpl.
  destruct (H r) as (-> & _). destruct (H (marker b)) as (-> & _). reflexivity.
Qed.

Lemma removeMarkers_loop_returns map rs : forall s flag,
  removeMarkers_loop map rs flag s =
    (Ok (flag || existsb (visible map (heap s)) rs),
     set_positionsTree (removed_from (heap s) rs (_positionsTree s)) s).
Proof.
  induction rs as [|r rs IH]; intros s flag.
  - simpl. unfold ret. rewrite orb_false_r. f_equal. now destruct s.
  - cbn [removeMarkers_loop]. unfold bind at 1, gets at 1. cbv zeta.
    unfold bind at 1, remove_position at 1, modify at 1. rewrite IH. simpl.
    f_equal. f_equal. unfold visible.
    destruct (contains (getBounds map) (getLatLng (heap s r))); simpl;
      [now rewrite orb_true_r | reflexivity].
Qed.

Lemma run_removeMarker_index s rs : forall s0,
  _map s0 <> None -> (forall r, same_but_image (heap s r) (heap s0 r)) ->
  _positionsTree (run (List.map Call_removeMarker rs) s0) =
    removed_from (heap s) rs (_positionsTree s0).
Proof.
  induction rs as [|r rs IH]; intros s0 Hmap Hh; [reflexivity|].
  cbn [List.map run fold_left call]. fold (run (List.map Call_removeMarker rs)).
  pose proof (removeMarker_registry r s0) as [_ Hh1].
  pose proof (removeMarker_host r s0) as (Hm1 & _).
  rewrite IH.
  - rewrite removeMarker_positionsTree. destruct (_map s0); [|contradiction].
    cbn [removed_from fold_left]. f_equal. now apply remove_position_same.
  - now rewrite Hm1.
  - intros r'. eapply same_but_image_trans; [apply Hh | apply Hh1].
Qed.

Lemma run_removeMarker_cleared s map size rs : forall s0,
  _map s0 = Some map -> _canvas s0 = Some size -> _ctx s0 = true ->
  (forall r, same_but_image (heap s r) (heap s0 r)) ->
  cleared (trace (run (List.map Call_removeMarker rs) s0)) =
    cleared (trace s0) ++ List.map (fun _ => tt) (List.filter (visible map (heap s)) rs).
Proof.
  induction rs as [|r rs IH]; intros s0 Hmap Hcv Hctx Hh.
  - simpl. now rewrite app_nil_r.
  - cbn [List.map run fold_left call]. fold (run (List.map Call_removeMarker rs)).
    pose proof (removeMarker_registry r s0) as [_ Hh1].
    pose proof (removeMarker_host r s0) as (Hm1 & Hc1 & Hcv1).
    rewrite IH.
    + assert (Hvis : visible map (heap s0) r = visible map (heap s) r).
      { unfold visible, getLatLng. now destruct (Hh r) as (_ & -> & _). }
      assert (Hrun : cleared (trace (snd (removeMarker r s0))) =
                     cleared (trace s0) ++ (if visible map (heap s) r then [tt] else [])).
      { rewrite <- Hvis. unfold removeMarker, bind, gets, remove_position, modify; simpl.
        rewrite Hmap. unfold visible.
        destruct (contains (getBounds map) (getLatLng (heap s0 r))); simpl.
        - now rewrite (redraw_clears_once _ map size).
        - now rewrite app_nil_r. }
      rewrite Hrun. cbn [List.filter].
      destruct (visible map (heap s) r); simpl; now rewrite <- app_assoc.
    + congruence.
    + congruence.
    + congruence.
    + intros r'. eapply same_but_image_trans; [apply Hh | apply Hh1].
Qed.

(** X13.  [removeMarkers] leaves the position index that removing the
    markers one by one with [removeMarker] leaves.  With a map, a canvas and
    a context, it redraws once if any of the markers is in view and not at
    all otherwise, where the removals one by one redraw once for every
    marker in view. *)
Theorem removeMarkers_is_one_redraw (s : State) (rs : list MarkerRef) :
  _positionsTree (snd (removeMarkers rs s)) =
    _positionsTree (run (List.map Call_removeMarker rs) s) /\
  (forall map size,
      _map s = Some map -> _canvas s = Some size -> _ctx s = true ->
      _positionsTree (snd (removeMarkers rs s)) =
        removed_from (heap s) rs (_positionsTree s) /\
      cleared (trace (snd (removeMarkers rs s))) =
        cleared (trace s) ++ (if existsb (visible map (heap s)) rs then [tt] else []) /\
      cleared (trace (run (List.map Call_removeMarker rs) s)) =
        cleared (trace s) ++
        List.map (fun _ => tt) (List.filter (visible map (heap s)) rs)).
Proof.
  assert (Hrm : forall map, _map s = Some map ->
            removeMarkers rs s =
              when (existsb (visible map (heap s)) rs) (redraw true)
                   (set_positionsTree (removed_from (heap s) rs (_positionsTree s)) s)).
  { intros map Hmap. unfold removeMarkers, bind at 1, gets at 1. rewrite Hmap.
    unfold bind at 1. now rewrite removeMarkers_loop_returns. }
  assert (Hidx : forall map, _map s = Some map ->
            _positionsTree (snd (removeMarkers rs s)) =
              removed_from (heap s) rs (_positionsTree s)).
  { intros map Hmap. rewrite (Hrm map Hmap).
    destruct (existsb (visible map (heap s)) rs); simpl; [|reflexivity].
    match goal with |- _positionsTree (snd (redraw true ?s1)) = _ =>
      destruct (redraw_frame true s1) as (_ & -> & _) end. reflexivity. }
  split.
  - destruct (_map s) as [map|] eqn:Hmap.
    + rewrite (Hidx map eq_refl). symmetry. apply run_removeMarker_index.
      * congruence.
      * intros r. apply same_but_image_refl.
    + unfold removeMarkers, bind, gets; simpl. rewrite Hmap. simpl.
      clear Hrm Hidx. induction rs as [|r rs IH]; [reflexivity|].
      cbn [List.map run fold_left call].
      assert (E : snd (removeMarker r s) = s).
      { unfold removeMarker, bind, gets; simpl. now rewrite Hmap. }
      rewrite E. exact IH.
  - intros map size Hmap Hcv Hctx. split_and!.
    + now apply (Hidx map).
    + rewrite (Hrm map Hmap).
      destruct (existsb (visible map (heap s)) rs); simpl.
      * now rewrite (redraw_clears_once _ map size).
      * now rewrite app_nil_r.
    + apply (run_removeMarker_cleared s map size); auto.
      intros r. apply same_but_image_refl.
Qed.

Lemma removeMarkers_is_one_redraw_witness :
  _map World.loaded = Some World.view /\
  cleared (trace (snd (removeMarkers [0; 1; 2]%nat World.loaded))) =
    cleared (trace World.loaded) ++ [tt] /\
  cleared (trace (run (List.map Call_removeMarker [0; 1; 2]%nat) World.loaded)) =
    cleared (trace World.loaded) ++ [tt; tt].
Proof.
  split; [reflexivity|].
  destruct (proj2 (removeMarkers_is_one_redraw World.loaded [0; 1; 2]%nat)
                  World.view (200, 200) eq_refl eq_refl eq_refl) as (_ & H1 & H2).
  split; [rewrite H1 | rewrite H2]; reflexivity.
Defined.

(** ** The form of the halo colour *)

Lemma hex_digit_in d : 0 <= d < 16 -> In (hex_digit d) hex_digits.
Proof.
  intros H. unfold hex_digit. apply nth_In.
  change (length hex_digits) with 16%nat. lia.
Qed.

Lemma byte_is_two_digits v :
  0 <= v < 256 ->
  exists a b, padStart 2 "0"%char (toString16 v) = String a (String b EmptyString) /\
              In a hex_digits /\ In b hex_digits.
Proof.
  intros Hv. unfold toString16. destruct (v <? 16) eqn:E.
  - apply Z.ltb_lt in E. exists "0"%char, (hex_digit v). split_and!.
    + reflexivity.
    + apply (hex_digit_in 0). lia.
    + apply hex_digit_in. lia.
  - apply Z.ltb_ge in E. exists (hex_digit (v / 16)), (hex_digit (v mod 16)). split_and!.
    + reflexivity.
    + apply hex_digit_in. pose proof (Z.div_pos v 16). pose proof (Z.div_lt_upper_bound v 16 16). lia.
    + apply hex_digit_in. apply Z.mod_pos_bound. lia.
Qed.

Lemma low_byte_range z : 0 <= Z.land z 255 < 256.
Proof.
  change 255 with (Z.ones 8). rewrite Z.land_ones by lia.
  apply Z.mod_pos_bound. reflexivity.
Qed.

(** X14.  The colour [_generateDynamicHexcode] makes of any string is a
    colour of the form [#rrggbb]: a [#] followed by six hexadecimal digits
    in lower case. *)
Theorem hexcode_is_a_colour (strValue : string) :
  exists d1 d2 d3 d4 d5 d6,
    _generateDynamicHexcode strValue =
      String "#" (String d1 (String d2 (String d3 (String d4 (String d5 (String d6
        EmptyString)))))) /\
    Forall (fun d => In d hex_digits) [d1; d2; d3; d4; d5; d6].
Proof.
  unfold _generateDynamicHexcode. cbv zeta. cbn [fold_left].
  destruct (byte_is_two_digits _ (low_byte_range (Z.shiftr (ToInt32 (hash_of strValue)) (0 * 8))))
    as (d1 & d2 & -> & H1 & H2).
  destruct (byte_is_two_digits _ (low_byte_range (Z.shiftr (ToInt32 (hash_of strValue)) (1 * 8))))
    as (d3 & d4 & -> & H3 & H4).
  destruct (byte_is_two_digits _ (low_byte_range (Z.shiftr (ToInt32 (hash_of strValue)) (2 * 8))))
    as (d5 & d6 & -> & H5 & H6).
  exists d1, d2, d3, d4, d5, d6. split; [reflexivity|].
  repeat (apply List.Forall_cons; [assumption|]). apply List.Forall_nil.
Qed.

(** ** The life of a cache entry *)

#[local] Instance entry_kept_preorder url : PreOrder (entry_kept url).
Proof.
  split.
  - intros s e He. exists e. split_and!; auto. exists []. now rewrite app_nil_r.
  - intros s1 s2 s3 H12 H23 e He.
    destruct (H12 e He) as (e2 & He2 & Hi2 & Hl2 & more2 & Hq2).
    destruct (H23 e2 He2) as (e3 & He3 & Hi3 & Hl3 & more3 & Hq3).
    exists e3. split_and!; [exact He3 | congruence | auto |].
    exists (more2 ++ more3). rewrite Hq3, Hq2. now rewrite app_assoc.
Qed.

Lemma entry_kept_icons url s s' : _icons s' = _icons s -> entry_kept url s s'.
Proof.
  intros E e He. exists e. rewrite E. split_and!; auto. exists []. now rewrite app_nil_r.
Qed.

Lemma entry_kept_update url url' s s' e0 e1 :
  _icons s' = <[url' := e1]> (_icons s) ->
  _icons s !! url' = Some e0 -> ic_image e1 = ic_image e0 ->
  (isLoaded e0 = true -> isLoaded e1 = true) ->
  (exists more, elements e1 = elements e0 ++ more) ->
  entry_kept url s s'.
Proof.
  intros E H0 Hi Hl Hq e He. rewrite E, lookup_insert. case_decide as Hd.
  - subst url'. rewrite He in H0. injection H0 as <-. exists e1. now split_and!.
  - exists e. split_and!; auto. exists []. now rewrite app_nil_r.
Qed.

Lemma entry_kept_new url url' s s' e1 :
  _icons s' = <[url' := e1]> (_icons s) -> _icons s !! url' = None ->
  entry_kept url s s'.
Proof.
  intros E H0 e He. rewrite E, lookup_insert. case_decide as Hd; [congruence|].
  exists e. split_and!; auto. exists []. now rewrite app_nil_r.
Qed.

Lemma _drawMarker_entry url r x y : preserves (entry_kept url) (_drawMarker r x y).
Proof.
  intros s. unfold _drawMarker, bind, gets; simpl.
  destruct (iconUrl_of (heap s r)) as [url'|]; [|reflexivity].
  destruct (image (heap s r)).
  - destruct (errored (_icons s !! url')); [reflexivity|].
    apply entry_kept_icons, _drawImage_icons.
  - destruct (_icons s !! url') as [e0|] eqn:Hicon.
    + destruct (hasErrored e0) eqn:He; [reflexivity|].
      unfold set_image, push_element, bind, modify; simpl.
      destruct (isLoaded e0) eqn:Hl.
      * match goal with |- context [_drawImage r x y ?s1] =>
          apply (entry_kept_icons url s (snd (_drawImage r x y s1)));
          rewrite (_drawImage_icons r x y s1) end. reflexivity.
      * simpl. eapply entry_kept_update; simpl;
          [reflexivity | exact Hicon | reflexivity | congruence | eauto].
    + destruct (inherited url'); [reflexivity|].
      unfold new_Image, set_image, bind, gets, modify, emit, modify; simpl.
      eapply entry_kept_new; [reflexivity | exact Hicon].
Qed.

Lemma image_onload_entry url url' : preserves (entry_kept url) (image_onload url').
Proof.
  intros s. unfold image_onload, bind at 1, gets at 1.
  destruct (_icons s !! url') as [e0|] eqn:Hicon; [|reflexivity].
  unfold bind at 1, modify at 1.
  match goal with |- context [forEach ?body ?l ?s1] =>
    assert (Hk : preserves (kept _icons) (forEach body l))
      by (apply preserves_forEach; [apply _|]; intros ?; kept_tac; apply _drawImage_icons);
    pose proof (Hk s1) as E end.
  eapply entry_kept_update; simpl;
    [exact E | exact Hicon | reflexivity | auto | exists []; now rewrite app_nil_r].
Qed.

Lemma image_onerror_entry url url' img : preserves (entry_kept url) (image_onerror url' img).
Proof.
  intros s. unfold image_onerror, bind, gets, console_error, emit, modify; simpl.
  destruct (_icons s !! url') as [e0|] eqn:Hicon; [|reflexivity]. simpl.
  eapply entry_kept_update; simpl;
    [reflexivity | exact Hicon | reflexivity | auto | exists []; now rewrite app_nil_r].
Qed.

Create HintDb entry.

#[local] Hint Resolve _drawMarker_entry image_onload_entry image_onerror_entry : entry.

Ltac entry_tac :=
  unfold emit, canvas, console_error, ctx, the_map, stamp, remove_position, discard;
  repeat first
    [ progress cbv zeta
    | preserves_step
    | apply preserves_modify; intros ?; apply entry_kept_icons; reflexivity
    | solve [auto with entry] ].

Lemma redraw_loop_entry url map found markers :
  preserves (entry_kept url) (redraw_loop map found markers).
Proof.
  revert markers. induction found as [|entry rest IH]; intros markers; simpl; entry_tac.
Qed.

#[local] Hint Resolve redraw_loop_entry : entry.

Lemma redraw_entry url c : preserves (entry_kept url) (redraw c).
Proof. unfold redraw. entry_tac. Qed.

#[local] Hint Resolve redraw_entry : entry.

Lemma addMarker_entry url r : preserves (entry_kept url) (addMarker r).
Proof. unfold addMarker. entry_tac. Qed.

#[local] Hint Resolve addMarker_entry : entry.

Lemma addMarkers_loop_entry url rs mb pb :
  preserves (entry_kept url) (addMarkers_loop rs mb pb).
Proof.
  revert mb pb. induction rs as [|r rs IH]; intros mb pb; simpl; entry_tac.
Qed.

Lemma removeMarkers_loop_entry url map rs b :
  preserves (entry_kept url) (removeMarkers_loop map rs b).
Proof.
  revert b. induction rs as [|r rs IH]; intros b; simpl; entry_tac.
Qed.

#[local] Hint Resolve addMarkers_loop_entry removeMarkers_loop_entry : entry.

Lemma call_entry url c : preserves (entry_kept url) (call c).
Proof.
  destruct c; simpl;
    unfold onAdd, _initCanvas, addMarkers, removeMarker, removeMarkers, clear, _reset,
      fire_onload, fire_onerror, setView, setLatLng;
    entry_tac.
Qed.

(** X16.  The icon cache never forgets: whatever is done to the layer, an
    entry of [_icons] stays in the cache under its url, with the image it
    was made with; once loaded it stays loaded, and its queue of draw
    requests is only ever appended to, also by the load that serves it. *)
Theorem cache_entries_are_kept (url : string) (cs : list Call) (s : State) (e : IconEntry) :
  _icons s !! url = Some e ->
  exists e',
    _icons (run cs s) !! url = Some e' /\
    ic_image e' = ic_image e /\
    (isLoaded e = true -> isLoaded e' = true) /\
    exists more, elements e' = elements e ++ more.
Proof.
  revert s e. induction cs as [|c cs IH]; intros s e He; simpl.
  - exists e. split_and!; auto. exists []. now rewrite app_nil_r.
  - destruct (call_entry url c s e He) as (e1 & He1 & Hi1 & Hl1 & more1 & Hq1).
    destruct (IH _ e1 He1) as (e2 & He2 & Hi2 & Hl2 & more2 & Hq2).
    exists e2. split_and!; [exact He2 | congruence | auto |].
    exists (more1 ++ more2). rewrite Hq2, Hq1. now rewrite app_assoc.
Qed.

Lemma cache_entries_are_kept_witness :
  exists e',
    _icons (run [Call_redraw true; Fire_onload "a.png"; Call_clear] World.loaded) !! "a.png"
      = Some e' /\
    ic_image e' = mkImage 0 "a.png" /\
    exists more, elements e' = [(0%nat, 20, 180); (1%nat, 40, 160)] ++ more.
Proof.
  destruct (cache_entries_are_kept "a.png"
              [Call_redraw true; Fire_onload "a.png"; Call_clear] World.loaded
              (mkIconEntry false (mkImage 0 "a.png") [(0%nat, 20, 180); (1%nat, 40, 160)] false))
    as (e' & He & Hi & _ & Hq).
  - vm_compute. reflexivity.
  - exists e'. now split_and!.
Defined.

(** X17.  A url whose load has failed is never drawn again: whatever is
    done to the layer afterwards, a draw request for a marker of that url
    returns at once and changes nothing, neither canvas nor cache nor
    marker. *)
Theorem failed_icon_is_never_drawn_again (url : string) (cs : list Call) (s : State)
        (r : MarkerRef) (x y : Z) :
  errored (_icons s !! url) = true ->
  iconUrl_of (heap (run cs s) r) = Some url ->
  _drawMarker r x y (run cs s) = (Ok tt, run cs s).
Proof.
  intros Herr Hurl. apply (errored_request_dropped r x y _ url Hurl).
  now apply errored_is_sticky.
Qed.

Lemma failed_icon_is_never_drawn_again_witness :
  let s := run [Fire_onerror "a.png"] World.loaded in
  let cs := [Call_redraw true; Fire_onload "a.png"; Call_addMarkers [0%nat]] in
  _drawMarker 0%nat 20 180 (run cs s) = (Ok tt, run cs s).
Proof.
  cbv zeta. apply (failed_icon_is_never_drawn_again "a.png").
  - vm_compute. reflexivity.
  - vm_compute. reflexivity.
Defined.

(** X18.  In the life of a layer every icon url is fetched at most once,
    however many markers use it and however often they are drawn, and
    every image that has been fetched has its entry in the cache. *)
Theorem every_url_is_fetched_once (cs : list Call) (bg : option bool) (p : option string)
        (h : MarkerRef -> Marker) :
  let s := run cs (new_CanvasLayer bg p h) in
  NoDup (List.map src (fetched (trace s))) /\
  forall img, img ∈ fetched (trace s) -> is_Some (_icons s !! src img).
Proof.
  cbv zeta.
  assert (H : forall cs s, fetch_ok s -> fetch_ok (run cs s)).
  { clear cs. induction cs as [|c cs IH]; intros s Hs; simpl; [exact Hs|].
    apply IH. now apply call_fetch. }
  apply (H cs (new_CanvasLayer bg p h)). split; simpl.
  - apply NoDup_nil. exact I.
  - intros img Himg. inversion Himg.
Qed.

(** ** Urls that name a property of [Object.prototype] *)

#[local] Instance own_keys_kept_preorder : PreOrder own_keys_kept.
Proof. split; unfold own_keys_kept; [intros s | intros s1 s2 s3 ? ?]; auto. Qed.

Lemma own_keys_icons s s' : _icons s' = _icons s -> own_keys_kept s s'.
Proof. unfold own_keys_kept, own_keys. now intros ->. Qed.

Lemma own_keys_insert s s' url e :
  _icons s' = <[url := e]> (_icons s) -> inherited url = false -> own_keys_kept s s'.
Proof.
  intros E Hown H url' Hin. rewrite E, lookup_insert. case_decide; [congruence|].
  now apply H.
Qed.

Lemma own_keys_entry s url e : own_keys s -> _icons s !! url = Some e -> inherited url = false.
Proof.
  intros H He. destruct (inherited url) eqn:E; [|reflexivity].
  rewrite (H url E) in He. discriminate.
Qed.

Lemma _drawMarker_own_keys r x y : preserves own_keys_kept (_drawMarker r x y).
Proof.
  intros s H. unfold _drawMarker, bind, gets; simpl.
  destruct (iconUrl_of (heap s r)) as [url|]; [|exact H].
  destruct (image (heap s r)).
  - destruct (errored (_icons s !! url)); [exact H|].
    exact (own_keys_icons s _ (_drawImage_icons r x y s) H).
  - destruct (_icons s !! url) as [e|] eqn:Hicon.
    + destruct (hasErrored e); [exact H|].
      unfold set_image, push_element, bind, modify; simpl.
      destruct (isLoaded e).
      * match goal with |- context [_drawImage r x y ?s1] =>
          exact (own_keys_icons s _ (_drawImage_icons r x y s1) H) end.
      * simpl. eapply own_keys_insert; [reflexivity | | exact H].
        exact (own_keys_entry s url e H Hicon).
    + destruct (inherited url) eqn:Hin; [exact H|].
      unfold new_Image, set_image, bind, gets, modify, emit, modify; simpl.
      eapply own_keys_insert; [reflexivity | exact Hin | exact H].
Qed.

Lemma image_onload_own_keys url : preserves own_keys_kept (image_onload url).
Proof.
  intros s H. unfold image_onload, bind at 1, gets at 1.
  destruct (_icons s !! url) as [e|] eqn:Hicon; [|exact H].
  unfold bind at 1, modify at 1.
  match goal with |- context [forEach ?body ?l ?s1] =>
    assert (Hk : preserves (kept _icons) (forEach body l))
      by (apply preserves_forEach; [apply _|]; intros ?; kept_tac; apply _drawImage_icons);
    pose proof (Hk s1) as E end.
  eapply own_keys_insert; [exact E | | exact H].
  exact (own_keys_entry s url e H Hicon).
Qed.

Lemma image_onerror_own_keys url img : preserves own_keys_kept (image_onerror url img).
Proof.
  intros s H. unfold image_onerror, bind, gets, console_error, emit, modify; simpl.
  destruct (_icons s !! url) as [e|] eqn:Hicon; [|exact H]. simpl.
  eapply own_keys_insert; [reflexivity | | exact H].
  exact (own_keys_entry s url e H Hicon).
Qed.

Create HintDb own_keys.

#[local] Hint Resolve _drawMarker_own_keys image_onload_own_keys image_onerror_own_keys
  : own_keys.

Ltac own_keys_tac :=
  unfold emit, canvas, console_error, ctx, the_map, stamp, remove_position, discard;
  repeat first
    [ progress cbv zeta
    | preserves_step
    | apply preserves_modify; intros ? H; exact H
    | solve [auto with own_keys] ].

Lemma redraw_loop_own_keys map found markers :
  preserves own_keys_kept (redraw_loop map found markers).
Proof.
  revert markers. induction found as [|entry rest IH]; intros markers; simpl; own_keys_tac.
Qed.

#[local] Hint Resolve redraw_loop_own_keys : own_keys.

Lemma redraw_own_keys c : preserves own_keys_kept (redraw c).
Proof. unfold redraw. own_keys_tac. Qed.

#[local] Hint Resolve redraw_own_keys : own_keys.

Lemma addMarker_own_keys r : preserves own_keys_kept (addMarker r).
Proof. unfold addMarker. own_keys_tac. Qed.

#[local] Hint Resolve addMarker_own_keys : own_keys.

Lemma addMarkers_loop_own_keys rs mb pb : preserves own_keys_kept (addMarkers_loop rs mb pb).
Proof.
  revert mb pb. induction rs as [|r rs IH]; intros mb pb; simpl; own_keys_tac.
Qed.

Lemma removeMarkers_loop_own_keys map rs b :
  preserves own_keys_kept (removeMarkers_loop map rs b).
Proof.
  revert b. induction rs as [|r rs IH]; intros b; simpl; own_keys_tac.
Qed.

#[local] Hint Resolve addMarkers_loop_own_keys removeMarkers_loop_own_keys : own_keys.

Lemma call_own_keys c : preserves own_keys_kept (call c).
Proof.
  destruct c; simpl;
    unfold onAdd, _initCanvas, addMarkers, removeMarker, removeMarkers, clear, _reset,
      fire_onload, fire_onerror, setView, setLatLng;
    own_keys_tac.
Qed.

Lemma run_fetch_ok cs s : fetch_ok s -> fetch_ok (run cs s).
Proof.
  revert s. induction cs as [|c cs IH]; intros s Hs; simpl; [exact Hs|].
  apply IH. now apply call_fetch.
Qed.

(** X20.  A url that names a property of [Object.prototype] never enters
    the icon cache and is never fetched: in the life of a layer, whatever
    is done to it, [_icons] has no entry of its own under such a url and
    no image has been made for it, so that a marker with such an icon is
    never painted unless it brings its image along. *)
Theorem inherited_url_is_never_fetched (cs : list Call) (bg : option bool)
        (p : option string) (h : MarkerRef -> Marker) (url : string) :
  inherited url = true ->
  let s := run cs (new_CanvasLayer bg p h) in
  _icons s !! url = None /\ Forall (fun img => src img <> url) (fetched (trace s)).
Proof.
  intros Hin. cbv zeta.
  assert (Hkeys : forall cs s, own_keys s -> own_keys (run cs s)).
  { clear. induction cs as [|c cs IH]; intros s Hs; simpl; [exact Hs|].
    apply IH. now apply call_own_keys. }
  assert (Hnone : _icons (run cs (new_CanvasLayer bg p h)) !! url = None).
  { apply Hkeys; [|exact Hin]. intros u _. apply lookup_empty. }
  split; [exact Hnone|].
  destruct (run_fetch_ok cs (new_CanvasLayer bg p h)) as [_ Hentry].
  { split; simpl; [apply NoDup_nil; exact I | intros img Himg; inversion Himg]. }
  apply Forall_forall. intros img Himg Hsrc.
  destruct (Hentry img Himg) as [e He]. congruence.
Qed.

Lemma inherited_url_is_never_fetched_witness :
  let s := run [Call_onAdd World.view; Call_addMarkers [1; 2]%nat;
                Host_setView World.far_view; Call_redraw true; Call_addMarkers [0%nat]]
               (new_CanvasLayer None None World.namesakes) in
  _icons s !! "constructor"%string = None /\
  Forall (fun img => src img <> "constructor"%string) (fetched (trace s)).
Proof.
  cbv zeta. apply inherited_url_is_never_fetched. reflexivity.
Defined.
